(** * drunk: template compiler, binding ledger and component mounting

    A shallow embedding of [drunk.Template] (compile, compileNode,
    compileNodeList, compileElement, compileTextNode, processTerminalBinding,
    processNormalBinding, createExecutor), of [drunk.Component] (mount,
    getByElement, setWeakRef, removeWeakRef, the data resolution of [__init]
    and [$resolveData], and of the later revision [$mount], [register] and
    [registerByResourcesLazy]), of [drunk.util] (uuid, extend, addArrayItem,
    removeArrayItem, camelCase), of [drunk.Promise] (then, catch, resolve,
    reject, all, race and the timers they go through) and of [drunk.filter]
    (pipeFor and the text filters escape, unescape, truncate, addslashes,
    stripslashes, striptags).

    Closures are defunctionalised: every closure the source returns is a
    constructor that records the variables it captures, and an interpreter
    ([exec], [execNodeList], [run], [dispose]) gives its body. *)

From stdpp Require Import gmap strings list fin_maps pretty sorting.
From Stdlib Require Import ZArith Lia Ascii.

Set Warnings "-register-all".

(** ** JavaScript values and arrays *)

Module JS.

(** The exceptions the modelled code can raise. *)
Inductive Exception :=
| TypeError     (* a property read on [undefined] *)
| Error         (* [throw new Error(...)] *)
| SyntaxError.  (* a style rule the style sheet cannot parse *)

(** A computation that returns or throws. *)
Inductive Completion (A : Type) :=
| Return (a : A)
| Throw (e : Exception).
Global Arguments Return {A} a.
Global Arguments Throw {A} e.

Global Instance completion_ret : MRet Completion := λ A a, Return a.
Global Instance completion_bind : MBind Completion := λ A B f m,
  match m with
  | Return a => f a
  | Throw e => Throw e
  end.

(** The values [util.uuid] handles. *)
Inductive Value :=
| Undefined
| Number (n : nat)
| Str (s : string).

Definition typeof (v : Value) : Value :=
  match v with
  | Undefined => Str "undefined"
  | Number _ => Str "number"
  | Str _ => Str "string"
  end.

(** [a === b] *)
Definition strict_equals (a b : Value) : bool :=
  match a, b with
  | Undefined, Undefined => true
  | Number n, Number m => bool_decide (n = m)
  | Str s, Str t => bool_decide (s = t)
  | _, _ => false
  end.

(** The property key [obj[v]] uses: ToString of the value. *)
Definition property_key (v : Value) : string :=
  match v with
  | Undefined => "undefined"
  | Number n => pretty n
  | Str s => s
  end.

(** [s.indexOf(sub)], -1 when [sub] does not occur. *)
Definition string_indexOf (s sub : string) : Z :=
  match String.index 0 sub s with
  | Some i => Z.of_nat i
  | None => (-1)%Z
  end.

(** [s.slice(start)] for [0 <= start]. *)
Definition string_slice (s : string) (start : nat) : string :=
  String.substring start (String.length s - start) s.

Section arrays.
Context {A : Type}.

(** [arr.indexOf(x)]: [same] is the strict-equality test against [x]. *)
Fixpoint indexOf_from (same : A → bool) (arr : list A) (i : Z) : Z :=
  match arr with
  | [] => (-1)%Z
  | y :: arr' => if same y then i else indexOf_from same arr' (i + 1)%Z
  end.

Definition indexOf (same : A → bool) (arr : list A) : Z :=
  indexOf_from same arr 0%Z.

(** [arr.slice(start)] for [0 <= start]. *)
Definition slice (arr : list A) (start : nat) : list A := drop start arr.

(** The array [arr.splice(start, deleteCount)] leaves behind: a negative
    [start] counts from the end, and both arguments are clamped. *)
Definition splice (arr : list A) (start deleteCount : Z) : list A :=
  let len := Z.of_nat (length arr) in
  let actualStart :=
    if (start <? 0)%Z then Z.max (len + start) 0 else Z.min start len in
  let actualDeleteCount :=
    Z.min (Z.max deleteCount 0) (len - actualStart) in
  take (Z.to_nat actualStart) arr
    ++ drop (Z.to_nat (actualStart + actualDeleteCount)) arr.

(** [arr.sort(comparefn)]: a stable sort (ECMAScript 2019, 22.1.3.27);
    [y] is moved before [x] only when [comparefn(x, y) > 0]. *)
Fixpoint sort_insert (comparefn : A → A → Z) (x : A) (sorted : list A)
  : list A :=
  match sorted with
  | [] => [x]
  | y :: sorted' =>
      if (0 <? comparefn x y)%Z
      then y :: sort_insert comparefn x sorted'
      else x :: y :: sorted'
  end.

Definition sort (comparefn : A → A → Z) (arr : list A) : list A :=
  foldr (sort_insert comparefn) [] arr.

(** [a] may come before [b] in an array sorted by descending [key]. *)
Definition descending (key : A → Z) (a b : A) : Prop :=
  (key b ≤ key a)%Z.
End arrays.

End JS.

Import JS.

(** ** The node tree *)

Module Dom.

Inductive OtherKind :=
| Comment            (* nodeType 8 *)
| DocumentFragment.  (* nodeType 11 *)

(** [uid] is the identity of the node object. *)
Inductive Node :=
| ElementNode (uid : nat) (tagName : string)
    (attributes : list (string * string)) (value : string)
    (childNodes : list Node)
| TextNode (uid : nat) (textContent : string)
| OtherNode (uid : nat) (kind : OtherKind) (childNodes : list Node).

Definition nodeType (node : Node) : Z :=
  match node with
  | ElementNode _ _ _ _ _ => 1
  | TextNode _ _ => 3
  | OtherNode _ Comment _ => 8
  | OtherNode _ DocumentFragment _ => 11
  end.

Definition uid (node : Node) : nat :=
  match node with
  | ElementNode u _ _ _ _ | TextNode u _ | OtherNode u _ _ => u
  end.

(** [node.tagName]; [None] is [undefined]. *)
Definition tagName (node : Node) : option string :=
  match node with
  | ElementNode _ t _ _ _ => Some t
  | _ => None
  end.

Definition attributes (node : Node) : list (string * string) :=
  match node with
  | ElementNode _ _ attrs _ _ => attrs
  | _ => []
  end.

Definition childNodes (node : Node) : list Node :=
  match node with
  | ElementNode _ _ _ _ ch | OtherNode _ _ ch => ch
  | TextNode _ _ => []
  end.

Definition textContent (node : Node) : string :=
  match node with
  | TextNode _ s => s
  | _ => ""
  end.

(** [node.value]; only elements carry it. *)
Definition value (node : Node) : option string :=
  match node with
  | ElementNode _ _ _ v _ => Some v
  | _ => None
  end.

Definition hasAttributes (node : Node) : bool :=
  match attributes node with [] => false | _ => true end.

Definition hasChildNodes (node : Node) : bool :=
  match childNodes node with [] => false | _ => true end.

Fixpoint getNamedItem (attrs : list (string * string)) (name : string)
  : option string :=
  match attrs with
  | [] => None
  | (n, v) :: attrs' =>
      if decide (n = name) then Some v else getNamedItem attrs' name
  end.

(** [element.getAttribute(name)]; [None] is [null]. *)
Definition getAttribute (node : Node) (name : string) : option string :=
  getNamedItem (attributes node) name.

(** [element.removeAttribute] exists on elements only. *)
Definition has_removeAttribute (node : Node) : bool :=
  match node with ElementNode _ _ _ _ _ => true | _ => false end.

Definition removeAttribute (node : Node) (name : string) : Node :=
  match node with
  | ElementNode u t attrs v ch =>
      ElementNode u t (filter (λ a, a.1 ≠ name) attrs) v ch
  | _ => node
  end.

Definition setChildNodes (node : Node) (ch : list Node) : Node :=
  match node with
  | ElementNode u t attrs v _ => ElementNode u t attrs v ch
  | OtherNode u k _ => OtherNode u k ch
  | TextNode _ _ => node
  end.

(** What [Template.compile] and [Component.mount] accept: a node, or an
    array of nodes (an object with its own identity). *)
Inductive Target :=
| Single (node : Node)
| Array (uid : nat) (nodes : list Node).

Definition target_uid (t : Target) : nat :=
  match t with Single n => uid n | Array u _ => u end.

Definition target_value (t : Target) : option string :=
  match t with Single n => value n | Array _ _ => None end.

(** [element.childNodes]; an array has none. *)
Definition target_childNodes (t : Target) : option (list Node) :=
  match t with Single n => Some (childNodes n) | Array _ _ => None end.

End Dom.

Import Dom.

(** ** Template: the compiler *)

Module Template.

(** A directive definition of the registry. [def_isTerminal] is [None]
    when the definition object has no [isTerminal] key. *)
Record BindingDefinition := {
  priority : Z;
  def_isTerminal : option bool;
  retainAttribute : bool
}.

(** A binding descriptor; [None] is an unset key. *)
Record Descriptor := {
  name : string;
  expression : string;
  attrName : option string;
  isTerminal : option bool;
  isInterpolate : bool
}.

(** An interpolation token: a literal, or [{ expression }]. *)
Inductive Token :=
| Literal (s : string)
| Expr (expression : string).

(** What the compiler takes from its collaborators: [config], the
    directive registry ([Binding.getTerminalBindings],
    [Binding.getDefinintionByName]), the interpolation parser, and
    [viewModel.eval(value, true)]; and what the DOM answers when a node is
    used as a collection of nodes: [node.length], which is [None] when the
    node has no such property, and the indexed properties [node[0]],
    [node[1]], ... that exist, in order (a text node has a length and no
    indexed property, a SELECT has its options, a FORM its controls). *)
Class Env := {
  prefix : string;
  debug : bool;
  getTerminalBindings : list string;
  getDefinintionByName : string → option BindingDefinition;
  hasInterpolation : string → bool;
  parseInterpolate : string → list Token;
  eval : option string → string;
  nodeLength : Node → option nat;
  nodeItems : Node → list Node
}.

(** The closures the compiler returns for one node. *)
Inductive Executor :=
| ExCreate (descriptor : Descriptor) (definition : BindingDefinition)
    (* createExecutor *)
| ExNormal (executors : list Executor)
    (* processNormalBinding *)
| ExTextarea (originExecutor : option Executor)
    (* compileElement, TEXTAREA *)
| ExTextNode (fragment : list Token) (executors : list (option Executor)).
    (* compileTextNode *)

(** The closure [compileNodeList] returns. The source keeps the flat array
    [executor0, childExecutor0, executor1, childExecutor1, ...]; entry [k]
    here is its slots [2k] and [2k+1]. *)
Inductive ListExecutor :=
| ExNodeList (executors : list (option Executor * option ListExecutor)).

(** [executor.isTerminal] and [executor.priority]: set by [createExecutor]
    only. *)
Definition ex_isTerminal (e : Executor) : option bool :=
  match e with
  | ExCreate descriptor _ => isTerminal descriptor
  | _ => None
  end.

Definition ex_priority (e : Executor) : option Z :=
  match e with
  | ExCreate _ definition => Some (priority definition)
  | _ => None
  end.

(** [executor && executor.isTerminal], as a condition. *)
Definition is_terminal (executor : option Executor) : bool :=
  match executor with
  | Some e => default false (ex_isTerminal e)
  | None => false
  end.

(** [util.extend(descriptor, definition)]: the keys of the definition
    overwrite those of the descriptor. *)
Definition extend (descriptor : Descriptor) (definition : BindingDefinition)
  : Descriptor :=
  {| name := name descriptor;
     expression := expression descriptor;
     attrName := attrName descriptor;
     isTerminal :=
       match def_isTerminal definition with
       | Some b => Some b
       | None => isTerminal descriptor
       end;
     isInterpolate := isInterpolate descriptor |}.

(** [(a, b) => b.priority - a.priority]; a NaN result counts as 0. *)
Definition by_priority (a b : Executor) : Z :=
  match ex_priority b, ex_priority a with
  | Some pb, Some pa => (pb - pa)%Z
  | _, _ => 0%Z
  end.

(** [nodeList.forEach(node => executors.push(...))] at compile time: the
    entries pushed, and the nodes as compilation leaves them. *)
Definition forEachNode {A} (f : Node → Completion (A * Node))
  : list Node → Completion (list A * list Node) :=
  fix each nodes :=
    match nodes with
    | [] => mret ([], [])
    | n :: nodes' =>
        '(entry, n') ← f n;
        '(entries, ns') ← each nodes';
        mret (entry :: entries, n' :: ns')
    end.

Section compiler.
Context `{Env}.

Definition createExecutor (element : Node) (descriptor : Descriptor)
  : Completion (option Executor * Node) :=
  match getDefinintionByName (name descriptor) with
  | None =>
      if debug
      then (* console.warn *) mret (None, element)
      else (* definition.retainAttribute *) Throw TypeError
  | Some definition =>
      let element' :=
        if negb (retainAttribute definition) && has_removeAttribute element
        then removeAttribute element (prefix +:+ name descriptor)
        else element in
      mret (Some (ExCreate (extend descriptor definition) definition),
            element')
  end.

(** The loop of [processTerminalBinding]; it ends at the first falsy
    name. *)
Fixpoint processTerminalBinding_loop (terminals : list string)
  (element : Node) : Completion (option Executor * Node) :=
  match terminals with
  | [] => mret (None, element)
  | "" :: _ => mret (None, element)
  | name :: terminals' =>
      match getAttribute element (prefix +:+ name) with
      | Some (String c e as expression) =>
          createExecutor element
            {| name := name; expression := expression; attrName := None;
               isTerminal := Some true; isInterpolate := false |}
      | _ => processTerminalBinding_loop terminals' element
      end
  end.

Definition processTerminalBinding (element : Node)
  : Completion (option Executor * Node) :=
  processTerminalBinding_loop getTerminalBindings element.

(** The body of the [forEach] of [processNormalBinding] for one
    attribute of the snapshot. *)
Definition processAttribute (element : Node) (attr : string * string)
  : Completion (option Executor * Node) :=
  let name := attr.1 in
  let index := string_indexOf name prefix in
  let expression := attr.2 in
  if bool_decide (-1 < index)%Z
     && bool_decide (index < Z.of_nat (String.length name) - 1)%Z
  then
    createExecutor element
      {| name := string_slice name (Z.to_nat index + String.length prefix);
         expression := expression; attrName := None;
         isTerminal := None; isInterpolate := false |}
  else if hasInterpolation expression then
    createExecutor element
      {| name := "attr"; expression := expression; attrName := Some name;
         isTerminal := None; isInterpolate := true |}
  else mret (None, element).

Fixpoint processAttributes (attrs : list (string * string))
  (executors : list Executor) (element : Node)
  : Completion (list Executor * Node) :=
  match attrs with
  | [] => mret (executors, element)
  | attr :: attrs' =>
      '(executor, element') ← processAttribute element attr;
      processAttributes attrs'
        (match executor with
         | Some e => executors ++ [e]
         | None => executors
         end) element'
  end.

Definition processNormalBinding (element : Node)
  : Completion (option Executor * Node) :=
  '(executors, element') ← processAttributes (attributes element) [] element;
  match executors with
  | [] => mret (None, element')
  | _ => mret (Some (ExNormal (sort by_priority executors)), element')
  end.

Definition compileElement (element : Node)
  : Completion (option Executor * Node) :=
  '(executor, element') ←
    (if hasAttributes element then
       '(terminal, element1) ← processTerminalBinding element;
       match terminal with
       | Some _ => mret (terminal, element1)
       | None => processNormalBinding element1
       end
     else mret (None, element));
  if bool_decide (tagName element = Some "TEXTAREA")
  then mret (Some (ExTextarea executor), element')
  else mret (executor, element').

(** The [forEach] over the tokens of [compileTextNode]. *)
Fixpoint compileTokens (node : Node) (tokens : list Token)
  : Completion (list (option Executor)) :=
  match tokens with
  | [] => mret []
  | Literal _ :: tokens' =>
      executors ← compileTokens node tokens';
      mret (None :: executors)
  | Expr expression :: tokens' =>
      '(executor, _) ← createExecutor node
        {| name := "bind"; expression := expression; attrName := None;
           isTerminal := None; isInterpolate := false |};
      executors ← compileTokens node tokens';
      mret (executor :: executors)
  end.

Definition compileTextNode (node : Node)
  : Completion (option Executor * Node) :=
  let content := textContent node in
  if negb (hasInterpolation content) then mret (None, node)
  else
    let tokens := parseInterpolate content in
    executors ← compileTokens node tokens;
    mret (Some (ExTextNode tokens executors), node).

Definition compileNode (node : Node) : Completion (option Executor * Node) :=
  if bool_decide (nodeType node = 1%Z)
     && negb (bool_decide (tagName node = Some "SCRIPT"))
  then compileElement node
  else if bool_decide (nodeType node = 3%Z) then compileTextNode node
  else mret (None, node).

(** The end of [compileNodeList]: the flat array has two slots per
    node, so [executors.length > 1] is [1 < 2 * length]. *)
Definition combineExecutors
  (executors : list (option Executor * option ListExecutor))
  : option ListExecutor :=
  if bool_decide (1 < 2 * length executors) then Some (ExNodeList executors)
  else None.

(** The body of the [forEach] of [compileNodeList] for one node: the
    pair pushed on [executors], and the node as compilation leaves it.
    [forEachNode compileEntry ch] is [compileNodeList] on the children,
    before its final test. *)
Fixpoint compileEntry (node : Node)
  : Completion ((option Executor * option ListExecutor) * Node) :=
  '(executor, node') ← compileNode node;
  if negb (is_terminal executor) && hasChildNodes node then
    match node with
    | ElementNode _ _ _ _ ch | OtherNode _ _ ch =>
        '(executors, ch') ← forEachNode compileEntry ch;
        mret ((executor, combineExecutors executors),
              setChildNodes node' ch')
    | TextNode _ _ => mret ((executor, None), node')
    end
  else mret ((executor, None), node').

Definition compileNodeList (nodeList : list Node)
  : Completion (option ListExecutor * list Node) :=
  '(executors, nodes') ← forEachNode compileEntry nodeList;
  mret (combineExecutors executors, nodes').

(** A static subtree: no attribute name carries the prefix, and no
    attribute value and no text holds an interpolation. *)
Definition static_attribute (attr : string * string) : bool :=
  bool_decide (string_indexOf attr.1 prefix = (-1)%Z)
  && negb (hasInterpolation attr.2).

Fixpoint static (node : Node) : bool :=
  match node with
  | ElementNode _ _ attrs _ ch =>
      forallb static_attribute attrs && forallb static ch
  | TextNode _ s => negb (hasInterpolation s)
  | OtherNode _ _ ch => forallb static ch
  end.
End compiler.

(** *** Execution *)

(** A live binding; [id] is the identity of the object. *)
Record Binding := {
  id : nat;
  element : nat;
  descriptor : Descriptor;
  definition : BindingDefinition
}.

(** What execution does to its collaborators. *)
Inductive Effect :=
| Disposed (binding : nat)                    (* binding.dispose() *)
| ValueSet (element : nat) (v : string)       (* textarea.value = v *)
| Replaced (element : nat) (nodes : list nat). (* elementUtil.replace *)

(** The view model an executor runs against: its ledger [_bindings], the
    next free object identity, and the effects so far. *)
Record ViewModel := {
  _bindings : list Binding;
  next_id : nat;
  effects : list Effect
}.

Definition Exec (A : Type) : Type := ViewModel → ViewModel * Completion A.

Global Instance exec_ret : MRet Exec := λ A a vm, (vm, Return a).
Global Instance exec_bind : MBind Exec := λ A B f m vm,
  match m vm with
  | (vm', Return a) => f a vm'
  | (vm', Throw e) => (vm', Throw e)
  end.

Definition throw {A} (e : Exception) : Exec A := λ vm, (vm, Throw e).

(** [viewModel._bindings] *)
Definition get_bindings : Exec (list Binding) := λ vm,
  (vm, Return (_bindings vm)).

Definition effect (e : Effect) : Exec unit := λ vm,
  ({| _bindings := _bindings vm; next_id := next_id vm;
      effects := effects vm ++ [e] |}, Return ()).

(** Modelled from the spec: [Binding.create] is not under src/. Every
    live binding a directive factory creates is appended to the ledger of
    the view model; it is a new object. *)
Definition Binding_create (element : nat) (descriptor : Descriptor)
  (definition : BindingDefinition) : Exec unit := λ vm,
  ({| _bindings := _bindings vm ++
        [{| id := next_id vm; element := element;
            descriptor := descriptor; definition := definition |}];
      next_id := S (next_id vm);
      effects := effects vm |}, Return ()).

(** [fragment.cloneNode(true)]: one new text node per token, a literal
    with its text and an expression with a blank. *)
Fixpoint cloneFragment (fragment : list Token) (next : nat) : list Node :=
  match fragment with
  | [] => []
  | Literal s :: fragment' => TextNode next s :: cloneFragment fragment' (S next)
  | Expr _ :: fragment' => TextNode next " " :: cloneFragment fragment' (S next)
  end.

Definition cloneNode (fragment : list Token) : Exec (list Node) := λ vm,
  ({| _bindings := _bindings vm;
      next_id := next_id vm + length fragment;
      effects := effects vm |},
   Return (cloneFragment fragment (next_id vm))).

(** [arr.forEach(f)] at execution time. *)
Definition forEach {A} (f : A → Exec unit) : list A → Exec unit :=
  fix each arr :=
    match arr with
    | [] => mret ()
    | x :: arr' => f x;; each arr'
    end.

(** [nodes.forEach((node, i) => f(slots[i], node))]: the node at index
    [i] meets the slot at index [i]; a node past the end of [slots] meets
    [undefined], which every caller skips. *)
Definition forEachIndexed {A B} (f : A → B → Exec unit)
  : list A → list B → Exec unit :=
  fix each slots nodes {struct slots} :=
    match slots, nodes with
    | slot :: slots', node :: nodes' => f slot node;; each slots' nodes'
    | _, _ => mret ()
    end.

Section execution.
Context `{Env}.

(** The body of each node-level closure, on the live [element]. *)
Fixpoint exec (e : Executor) (element : Target) : Exec unit :=
  match e with
  | ExCreate descriptor definition =>
      Binding_create (target_uid element) descriptor definition
  | ExNormal executors =>
      forEach (λ executor, exec executor element) executors
  | ExTextarea originExecutor =>
      effect (ValueSet (target_uid element) (eval (target_value element)));;
      match originExecutor with
      | Some origin => exec origin element
      | None => mret ()
      end
  | ExTextNode fragment executors =>
      frag ← cloneNode fragment;
      forEachIndexed
        (λ executor node,
           match executor with
           | Some e => exec e (Single node)
           | None => mret ()
           end) executors frag;;
      effect (Replaced (target_uid element) (uid <$> frag))
  end.

(** The closure of [compileNodeList] on the live [nodes]. *)
Fixpoint execNodeList (l : ListExecutor) (nodes : list Node) : Exec unit :=
  match l with
  | ExNodeList executors =>
      if bool_decide (length nodes * 2 ≠ 2 * length executors)
      then throw Error
      else
        forEachIndexed
          (λ '(nodeExecutor, childExecutor) node,
             match nodeExecutor with
             | Some e => exec e (Single node)
             | None => mret ()
             end;;
             match childExecutor with
             | Some c => execNodeList c (childNodes node)
             | None => mret ()
             end) executors nodes
  end.

(** One turn of the [forEach] of the [compileNodeList] closure: the
    pair of slots [2i], [2i+1] on the node at index [i]. *)
Definition execPair (entry : option Executor * option ListExecutor)
  (node : Node) : Exec unit :=
  match entry.1 with
  | Some e => exec e (Single node)
  | None => mret ()
  end;;
  match entry.2 with
  | Some c => execNodeList c (childNodes node)
  | None => mret ()
  end.

(** *** compile and the binding program it returns *)

Inductive AnyExecutor :=
| OnNode (e : Executor)
| OnNodes (l : ListExecutor).

(** The variables the closure [compile] returns has captured. *)
Record BindingExecutor := {
  executor : option AnyExecutor;
  childExecutor : option ListExecutor
}.

Definition compile (node : Target) : Completion (BindingExecutor * Target) :=
  match node with
  | Array u nodes =>
      '(executor, nodes') ← compileNodeList nodes;
      mret ({| executor := OnNodes <$> executor; childExecutor := None |},
            Array u nodes')
  | Single n =>
      '(executor, n') ←
        (if bool_decide (nodeType n = 11%Z) then mret (None, n)
         else compileNode n);
      let isTerminal := is_terminal executor in
      if negb isTerminal
         && negb (bool_decide (tagName n = Some "SCRIPT"))
         && hasChildNodes n
      then
        '(childExecutor, ch') ← compileNodeList (childNodes n);
        mret ({| executor := OnNode <$> executor;
                 childExecutor := childExecutor |},
              Single (setChildNodes n' ch'))
      else
        mret ({| executor := OnNode <$> executor; childExecutor := None |},
              Single n')
  end.

(** The closure of [compileNodeList] on a lone node: [nodes.length] is
    the [length] of the node, if it has one, and [util.toArray(nodes)]
    has holes, which [forEach] skips, where the node has no indexed
    property; the pairs of slots are taken in order by the items met. *)
Definition execOnNode (l : ListExecutor) (node : Node) : Exec unit :=
  match l with
  | ExNodeList executors =>
      match nodeLength node with
      | None => throw Error
      | Some n =>
          if bool_decide (n * 2 ≠ 2 * length executors)
          then throw Error
          else forEachIndexed execPair executors (nodeItems node)
      end
  end.

(** [executor(viewModel, element, ...)] for the captured [executor]. A
    node without a [length] makes the length test of the
    [compileNodeList] closure compare NaN, and the closure throws. *)
Definition call (x : AnyExecutor) (element : Target) : Exec unit :=
  match x, element with
  | OnNode e, _ => exec e element
  | OnNodes l, Array _ nodes => execNodeList l nodes
  | OnNodes l, Single node => execOnNode l node
  end.

(** The closure a binding program returns: it has captured
    [bindingList]; [allBindings] is the ledger of the view model. *)
Record Disposer := { bindingList : list Binding }.

(** The binding program: the closure [compile] returns. *)
Definition run (program : BindingExecutor) (element : Target)
  : Exec Disposer :=
  allBindings ← get_bindings;
  let startIndex := length allBindings in
  (match executor program with
   | Some x => call x element
   | None => mret ()
   end : Exec unit);;
  (match childExecutor program with
   | Some c =>
       match target_childNodes element with
       | Some nodes => execNodeList c nodes
       | None => throw TypeError
       end
   | None => mret ()
   end : Exec unit);;
  bindings ← get_bindings;
  mret {| bindingList := slice bindings startIndex |}.

(** [binding === x]: the identity of the object. *)
Definition same_binding (x : option Binding) (binding : Binding) : bool :=
  match x with
  | Some b => bool_decide (id b = id binding)
  | None => false
  end.

(** The disposer. *)
Definition dispose (d : Disposer) (viewModel : ViewModel) : ViewModel :=
  let disposed := (λ b, Disposed (id b)) <$> bindingList d in
  let allBindings := _bindings viewModel in
  let startIndex := indexOf (same_binding (head (bindingList d))) allBindings in
  {| _bindings :=
       splice allBindings startIndex (Z.of_nat (length (bindingList d)));
     next_id := next_id viewModel;
     effects := effects viewModel ++ disposed |}.
End execution.

(** An executor that [createExecutor] returned. *)
Definition is_create (e : Executor) : Prop :=
  ∃ descriptor definition, e = ExCreate descriptor definition.

(** The [createExecutor] closures in the unit [compileElement] returns. *)
Definition created (executor : option Executor) : list Executor :=
  match executor with
  | Some (ExNormal executors) => executors
  | Some (ExTextarea (Some (ExNormal executors))) => executors
  | Some (ExTextarea (Some e)) => [e]
  | Some (ExTextarea None) => []
  | Some e => [e]
  | None => []
  end.

(** The attribute name [createExecutor] removed for an executor. *)
Definition removed_name `{Env} (e : Executor) : option string :=
  match e with
  | ExCreate descriptor definition =>
      if retainAttribute definition then None
      else Some (prefix +:+ name descriptor)
  | _ => None
  end.

(** The priority [by_priority] reads off an executor. *)
Definition priority_of (e : Executor) : Z := default 0%Z (ex_priority e).

(** The [createExecutor] closure a binding comes from. *)
Definition created_by (b : Binding) : Executor :=
  ExCreate (descriptor b) (definition b).

(** *** The ledger *)


(** [vm'] is [vm] with the new objects [new] pushed on the ledger, in the
    order of their creation. *)
Definition appended (vm vm' : ViewModel) (new : list Binding) : Prop :=
  _bindings vm' = _bindings vm ++ new
  ∧ next_id vm ≤ next_id vm'
  ∧ Forall (λ b, next_id vm ≤ id b < next_id vm') new
  ∧ StronglySorted lt (id <$> new).

Definition appends {A} (m : Exec A) : Prop :=
  ∀ vm, ∃ new, appended vm (m vm).1 new.

(** An execution that returns and leaves the ledger as it was. *)
Definition inert (m : Exec unit) : Prop :=
  ∀ vm, ∃ vm', m vm = (vm', Return ()) ∧ _bindings vm' = _bindings vm.


(** What a client does with a view model: it executes a binding program
    on an element, or calls the disposer an earlier execution returned.
    A call of a disposer that does not exist does nothing. *)
Inductive Action :=
| Execute (program : BindingExecutor) (element : Target)
| CallDisposer (i : nat).



(** The disposers a list of actions calls, in the order of the calls. *)
Definition calls (actions : list Action) : list nat :=
  omap (λ a, match a with CallDisposer i => Some i | Execute _ _ => None end)
    actions.


(** An execution that returns. *)
Definition returns (m : Exec unit) : Prop :=
  ∀ vm, ∃ vm', m vm = (vm', Return ()).

(** [node'] is [node], but for its attributes. *)
Definition same_but_attributes (node node' : Node) : Prop :=
  match node, node' with
  | ElementNode u t _ v ch, ElementNode u' t' _ v' ch' =>
      u = u' ∧ t = t' ∧ v = v' ∧ ch = ch'
  | _, _ => node = node'
  end.

(** The child unit of an entry of a node list returns on the children of
    [node]. *)
Definition entry_returns `{Env}
  (entry : option Executor * option ListExecutor) (node : Node) : Prop :=
  ∀ c, entry.2 = Some c → returns (execNodeList c (childNodes node)).

End Template.

(** ** String.prototype.replace with a global pattern *)

(** A string is the sequence of its code units, here those below 256. *)
Module Text.

Section replace.
(** [matchAt s] is the length of the match of the pattern at the start of
    [s], when there is one; no pattern used here matches the empty string.
    [replacement m] is the text that takes the place of the match [m]. *)
Context (matchAt : string → option nat) (replacement : string → string).

(** The characters of the subject are visited from left to right; [skip]
    of them still belong to the last match. *)
Fixpoint replace_from (skip : nat) (s : string) : string :=
  match s with
  | "" => ""
  | String c s' =>
      match skip with
      | S k => replace_from k s'
      | 0 =>
          match matchAt s with
          | Some (S k) =>
              replacement (String.substring 0 (S k) s) +:+ replace_from k s'
          | _ => String c (replace_from 0 s')
          end
      end
  end.

(** [s.replace(/pattern/g, replacement)] *)
Definition replace (s : string) : string := replace_from 0 s.
End replace.

(** The pattern is the literal text [p]. *)
Definition literal (p : string) (s : string) : option nat :=
  if String.prefix p s then Some (String.length p) else None.

(** The pattern is one character of the class [class]. *)
Definition oneOf (class : ascii → bool) (s : string) : option nat :=
  match s with
  | String c _ => if class c then Some 1 else None
  | "" => None
  end.

(** [.] matches every character but a line terminator. *)
Definition lineTerminator (c : ascii) : bool :=
  bool_decide (c = "010"%char) || bool_decide (c = "013"%char).

(** [\w] *)
Definition wordChar (c : ascii) : bool :=
  let n := nat_of_ascii c in
  bool_decide (48 ≤ n ≤ 57) || bool_decide (65 ≤ n ≤ 90)
  || bool_decide (97 ≤ n ≤ 122) || bool_decide (n = 95).

(** [c.toUpperCase()] for one character of [\w]. *)
Definition toUpperCase (c : ascii) : ascii :=
  let n := nat_of_ascii c in
  if bool_decide (97 ≤ n ≤ 122) then ascii_of_nat (n - 32) else c.

(** [s.slice(0, end)] *)
Definition slice_to (s : string) (e : Z) : string :=
  let len := Z.of_nat (String.length s) in
  let to := if (e <? 0)%Z then Z.max (len + e) 0 else Z.min e len in
  String.substring 0 (Z.to_nat to) s.

End Text.

(** ** util *)

Module util.

(** The objects that carry the property [nameOfUid], with its value, and
    the module variable [counter]. *)
Record State := {
  uids : gmap nat nat;
  counter : nat
}.

(** [target[nameOfUid]] *)
Definition get_uid (target : nat) (s : State) : Value :=
  match uids s !! target with
  | Some n => Number n
  | None => Undefined
  end.

(** [if (typeof target[nameOfUid] === undefined) target[nameOfUid] =
    counter++; return target[nameOfUid];] *)
Definition uuid (target : nat) (s : State) : State * Value :=
  let s' :=
    if strict_equals (typeof (get_uid target s)) Undefined
    then {| uids := <[target := counter s]> (uids s);
            counter := S (counter s) |}
    else s in
  (s', get_uid target s').

Section arrays.
(** Items that [===] compares by [=]: every value but NaN. *)
Context {A : Type} `{EqDecision A}.

(** [array.indexOf(item)] *)
Definition indexOfItem (array : list A) (item : A) : Z :=
  indexOf (λ y, bool_decide (y = item)) array.

(** [util.addArrayItem]: the array as the call leaves it. *)
Definition addArrayItem (array : list A) (item : A) : list A :=
  if (indexOfItem array item <? 0)%Z then array ++ [item] else array.

(** [util.removeArrayItem]: the array as the call leaves it. *)
Definition removeArrayItem (array : list A) (item : A) : list A :=
  let index := indexOfItem array item in
  if (-1 <? index)%Z then splice array index 1 else array.
End arrays.

Section objects.
(** A plain object as the map of its own enumerable properties, all of
    them writable data properties; its prototype is Object.prototype and
    is not part of the map. *)
Context {V : Type}.

(** [destination[key] = value]: the own property is written or created,
    but for the key [__proto__] of an object with no own property of that
    name: that assignment goes to the setter of Object.prototype, which
    sets the prototype or does nothing, and creates no property. *)
Definition assign (key : string) (value : V) (destination : gmap string V)
  : gmap string V :=
  match destination !! key with
  | Some _ => <[key := value]> destination
  | None =>
      if bool_decide (key = "__proto__") then destination
      else <[key := value]> destination
  end.

(** [Object.keys(src).forEach(key => destination[key] = src[key])] *)
Definition assignAll (destination src : gmap string V) : gmap string V :=
  foldl (λ d kv, assign kv.1 kv.2 d) destination (map_to_list src).

(** [util.extend(destination, ...sources)]; [None] is a falsy source. *)
Definition extend (destination : gmap string V)
  (sources : list (option (gmap string V))) : gmap string V :=
  foldl (λ d src,
           match src with
           | Some o => assignAll d o
           | None => d
           end) destination sources.
End objects.

(** [/[-_](\w)/g] *)
Definition separator (s : string) : option nat :=
  match s with
  | String c (String w _) =>
      if (bool_decide (c = "-"%char) || bool_decide (c = "_"%char))
         && Text.wordChar w
      then Some 2 else None
  | _ => None
  end.

(** [($0, $1) => $1.toUpperCase()] *)
Definition upperOfGroup (m : string) : string :=
  match m with
  | String _ (String w _) => String (Text.toUpperCase w) ""
  | _ => m
  end.

(** [util.camelCase] *)
Definition camelCase (str : string) : string :=
  Text.replace separator upperOfGroup str.

End util.

(** ** Component: mounting *)

Module Component.
Import Template.

(** A component object: a view model with its mount state. *)
Record Instance := {
  _isMounted : bool;
  element : option Target;
  bindings : list Binding
}.

Definition newInstance : Instance :=
  {| _isMounted := false; element := None; bindings := [] |}.

Inductive ConsoleEntry :=
| AssertionFailed     (* console.assert(!this._isMounted, ...) *)
| MountRejected       (* console.error in mount *)
| WeakRefRejected.    (* console.error in setWeakRef *)

Record World := {
  utilState : util.State;
  weakRefMap : gmap string nat;
  instances : gmap nat Instance;
  next_id : nat;
  effects : list Effect;
  console : list ConsoleEntry
}.

Inductive MountResult :=
| Mounted
| Aborted.

Definition instance (this : nat) (w : World) : Instance :=
  default newInstance (instances w !! this).

Definition log (entry : ConsoleEntry) (w : World) : World :=
  {| utilState := utilState w; weakRefMap := weakRefMap w;
     instances := instances w; next_id := next_id w;
     effects := effects w; console := console w ++ [entry] |}.

Definition uuid (target : Target) (w : World) : World * Value :=
  let '(u, uid) := util.uuid (target_uid target) (utilState w) in
  ({| utilState := u; weakRefMap := weakRefMap w;
      instances := instances w; next_id := next_id w;
      effects := effects w; console := console w |}, uid).

(** [Component.getByElement]; [None] is [undefined]. *)
Definition getByElement (element : Target) (w : World)
  : World * option nat :=
  let '(w', uid) := uuid element w in
  (w', weakRefMap w' !! property_key uid).

(** [Component.setWeakRef] *)
Definition setWeakRef (element : Target) (viewModel : nat) (w : World)
  : World :=
  let '(w', uid) := uuid element w in
  match weakRefMap w' !! property_key uid with
  | Some other =>
      if bool_decide (other ≠ viewModel) then log WeakRefRejected w'
      else w'
  | None =>
      {| utilState := utilState w';
         weakRefMap := <[property_key uid := viewModel]> (weakRefMap w');
         instances := instances w'; next_id := next_id w';
         effects := effects w'; console := console w' |}
  end.

(** [Component.removeWeakRef] *)
Definition removeWeakRef (element : Target) (w : World) : World :=
  let '(w', uid) := uuid element w in
  {| utilState := utilState w';
     weakRefMap := delete (property_key uid) (weakRefMap w');
     instances := instances w'; next_id := next_id w';
     effects := effects w'; console := console w' |}.

(** The view model a binding program of [this] runs against. *)
Definition viewModel (this : nat) (w : World) : ViewModel :=
  {| _bindings := bindings (instance this w);
     Template.next_id := next_id w;
     Template.effects := effects w |}.

Definition update (this : nat) (i : Instance) (vm : ViewModel) (w : World)
  : World :=
  {| utilState := utilState w; weakRefMap := weakRefMap w;
     instances :=
       <[this := {| _isMounted := _isMounted i; element := element i;
                    bindings := _bindings vm |}]> (instances w);
     next_id := Template.next_id vm;
     effects := Template.effects vm;
     console := console w |}.

Section mount.
Context `{Env}.

(** [Component.prototype.mount] of component.ts. The node handed to the
    binding program is the node as compilation left it. *)
Definition mount (this : nat) (target : Target) (w : World)
  : World * Completion MountResult :=
  let w0 :=
    if _isMounted (instance this w) then log AssertionFailed w else w in
  let '(w1, found) := getByElement target w0 in
  match found with
  | Some _ => (log MountRejected w1, Return Aborted)
  | None =>
      match compile target with
      | Throw e => (w1, Throw e)
      | Return (program, target') =>
          match run program target' (viewModel this w1) with
          | (vm, Throw e) => (update this (instance this w1) vm w1, Throw e)
          | (vm, Return _) =>
              let w2 := update this (instance this w1) vm w1 in
              let w3 := setWeakRef target' this w2 in
              (update this
                 {| _isMounted := true; element := Some target';
                    bindings := bindings (instance this w3) |}
                 (viewModel this w3) w3,
               Return Mounted)
          end
      end
  end.
End mount.

End Component.

(** ** Promise, and the data resolution of a component *)

Module Promise.

(** The numeric value of a state is the offset of its callback in a
    subscription. *)
Inductive PromiseState := PENDING | RESOLVED | REJECTED.

Inductive Val :=
| Plain (v : Value)       (* not thenable *)
| Ref (promise : nat)     (* a drunk.Promise object *)
| Results (all : nat).    (* the [result] array of a [Promise.all] call *)

(** The closures passed as callbacks. *)
Inductive Callback :=
| NoCallback
    (* undefined or null *)
| Assign (property : string) (returnsResult : bool)
    (* [result => this[property] = result] of $resolveData, which returns
       the result, and [result => { this[name] = result; }] of __init,
       which does not *)
| Warn (property : string)
    (* [reason => console.warn(...)] *)
| ToResolve (promise : nat)
    (* handleThenable: [value => resolvePromise(promise, value)] *)
| ToReject (promise : nat)
    (* handleThenable: [reason => rejectPromise(promise, reason)] *)
| AllFulfilled (all : nat) (i : nat)
    (* Promise.all: [value => { if (rejected) return; check(i, value); }] *)
| AllRejected (all : nat).
    (* Promise.all: [reason => { ...; reject(reason); }] *)

(** Three consecutive items of [_listeners]. *)
Record Subscription := {
  subPromise : nat;
  onFulfillment : Callback;
  onRejection : Callback
}.

Record PromiseObject := {
  _state : PromiseState;
  _value : Val;
  _listeners : list Subscription
}.

(** The closures handed to [nextTick]. *)
Inductive Task :=
| Publish (promise : nat) (value : Val) (state : PromiseState)
| Invoke (state : PromiseState) (promise : nat) (callback : Callback)
    (value : Val).

(** The variables of one call of [Promise.all]; [result] is [None] once
    it is set to [null]. *)
Record AllClosure := {
  all_promise : nat;
  len : nat;
  count : nat;
  result : option (gmap nat Val);
  rejected : bool
}.

(** The promises, the pending timers in firing order, and the component
    [this] of the data callbacks: the properties it proxies, the
    assignments made to it and the warnings logged, each in order. *)
Record Runtime := {
  promises : gmap nat PromiseObject;
  alls : gmap nat AllClosure;
  next : nat;
  timers : list Task;
  proxied : list string;
  assigned : list (string * Val);
  warnings : list string
}.

Definition pending : PromiseObject :=
  {| _state := PENDING; _value := Plain Undefined; _listeners := [] |}.

Definition get (promise : nat) (r : Runtime) : PromiseObject :=
  default pending (promises r !! promise).

Definition set (promise : nat) (o : PromiseObject) (r : Runtime) : Runtime :=
  {| promises := <[promise := o]> (promises r); alls := alls r;
     next := next r; timers := timers r; proxied := proxied r;
     assigned := assigned r; warnings := warnings r |}.

(** [setTimeout(callback, 0)] *)
Definition nextTick (task : Task) (r : Runtime) : Runtime :=
  {| promises := promises r; alls := alls r; next := next r;
     timers := timers r ++ [task]; proxied := proxied r;
     assigned := assigned r; warnings := warnings r |}.

(** [new Promise(noop)] *)
Definition newPromise (r : Runtime) : Runtime * nat :=
  ({| promises := <[next r := pending]> (promises r); alls := alls r;
      next := S (next r); timers := timers r; proxied := proxied r;
      assigned := assigned r; warnings := warnings r |}, next r).

Definition isThenable (target : Val) : bool :=
  match target with Ref _ => true | _ => false end.

Definition is_pending (promise : nat) (r : Runtime) : bool :=
  match _state (get promise r) with PENDING => true | _ => false end.

Definition subscribe (promise subPromise : nat)
  (onFulfillment onRejection : Callback) (r : Runtime) : Runtime :=
  let o := get promise r in
  set promise
    {| _state := _state o; _value := _value o;
       _listeners := _listeners o ++
         [{| subPromise := subPromise; onFulfillment := onFulfillment;
             onRejection := onRejection |}] |} r.

Definition publish (promise : nat) (value : Val) (state : PromiseState)
  (r : Runtime) : Runtime :=
  let o := get promise r in
  nextTick (Publish promise value state)
    (set promise
       {| _state := state; _value := value; _listeners := _listeners o |} r).

Definition rejectPromise (promise : nat) (reason : Val) (r : Runtime)
  : Runtime :=
  if negb (is_pending promise r) then r
  else
    let reason :=
      match reason with
      | Ref p => if bool_decide (p = promise) then Plain Undefined else reason
      | _ => reason
      end in
    publish promise reason REJECTED r.

(** [handleThenable] for a thenable that is a drunk.Promise. *)
Definition handleThenable (thenable promise : nat) (r : Runtime) : Runtime :=
  match _state (get thenable r) with
  | PENDING =>
      subscribe thenable promise (ToResolve promise) (ToReject promise) r
  | RESOLVED => publish promise (_value (get thenable r)) RESOLVED r
  | REJECTED => publish promise (_value (get thenable r)) REJECTED r
  end.

Definition resolvePromise (promise : nat) (value : Val) (r : Runtime)
  : Runtime :=
  if negb (is_pending promise r) then r
  else
    match value with
    | Ref thenable =>
        if bool_decide (thenable = promise)
        then publish promise (Plain Undefined) RESOLVED r
        else handleThenable thenable promise r
    | _ => publish promise value RESOLVED r
    end.

(** [check(i, value)] of [Promise.all]; it throws once [result] is null. *)
Definition check (all i : nat) (value : Val) (r : Runtime)
  : Runtime * Completion unit :=
  match alls r !! all with
  | None => (r, Return ())
  | Some a =>
      match result a with
      | None => (r, Throw TypeError)
      | Some res =>
          let count' := S (count a) in
          let filled := <[i := value]> res in
          let closure (res : option (gmap nat Val)) :=
            {| all_promise := all_promise a; len := len a; count := count';
               result := res; rejected := rejected a |} in
          let with_closure (c : AllClosure) (r : Runtime) :=
            {| promises := promises r; alls := <[all := c]> (alls r);
               next := next r; timers := timers r; proxied := proxied r;
               assigned := assigned r; warnings := warnings r |} in
          if bool_decide (count' = len a)
          then
            (with_closure (closure None)
               (resolvePromise (all_promise a) (Results all)
                  (with_closure (closure (Some filled)) r)),
             Return ())
          else (with_closure (closure (Some filled)) r, Return ())
      end
  end.

(** [callback.call(null, value)]: what the callback returns or throws. *)
Definition callCallback (callback : Callback) (value : Val) (r : Runtime)
  : Runtime * Completion Val :=
  match callback with
  | NoCallback => (r, Return (Plain Undefined))
  | Assign property returnsResult =>
      ({| promises := promises r; alls := alls r; next := next r;
          timers := timers r; proxied := proxied r;
          assigned := assigned r ++ [(property, value)];
          warnings := warnings r |},
       Return (if returnsResult then value else Plain Undefined))
  | Warn property =>
      ({| promises := promises r; alls := alls r; next := next r;
          timers := timers r; proxied := proxied r;
          assigned := assigned r;
          warnings := warnings r ++ [property] |},
       Return (Plain Undefined))
  | ToResolve promise =>
      (resolvePromise promise value r, Return (Plain Undefined))
  | ToReject promise =>
      (rejectPromise promise value r, Return (Plain Undefined))
  | AllFulfilled all i =>
      match alls r !! all with
      | Some a =>
          if rejected a then (r, Return (Plain Undefined))
          else
            match check all i value r with
            | (r', Return _) => (r', Return (Plain Undefined))
            | (r', Throw e) => (r', Throw e)
            end
      | None => (r, Return (Plain Undefined))
      end
  | AllRejected all =>
      match alls r !! all with
      | Some a =>
          if rejected a then (r, Return (Plain Undefined))
          else
            (rejectPromise (all_promise a) value
               {| promises := promises r;
                  alls :=
                    <[all := {| all_promise := all_promise a; len := len a;
                                count := count a; result := None;
                                rejected := true |}]> (alls r);
                  next := next r; timers := timers r; proxied := proxied r;
                  assigned := assigned r; warnings := warnings r |},
             Return (Plain Undefined))
      | None => (r, Return (Plain Undefined))
      end
  end.

Definition invokeCallback (state : PromiseState) (promise : nat)
  (callback : Callback) (value : Val) (r : Runtime) : Runtime :=
  let hasCallback :=
    match callback with NoCallback => false | _ => true end in
  let '(r1, outcome) :=
    if hasCallback then callCallback callback value r
    else (r, Return value) in
  if negb (is_pending promise r1) then r1
  else
    match outcome with
    | Throw _ => rejectPromise promise (Plain (Str "TypeError")) r1
    | Return value' =>
        if hasCallback then resolvePromise promise value' r1
        else
          match state with
          | RESOLVED => publish promise value' state r1
          | _ => rejectPromise promise value' r1
          end
    end.

(** What a timer does when it fires. *)
Definition runTask (task : Task) (r : Runtime) : Runtime :=
  match task with
  | Invoke state promise callback value =>
      invokeCallback state promise callback value r
  | Publish promise value state =>
      let arr := _listeners (get promise r) in
      let r' :=
        foldl
          (λ r l,
             invokeCallback state (subPromise l)
               (match state with
                | PENDING => NoCallback
                | RESOLVED => onFulfillment l
                | REJECTED => onRejection l
                end) value r) r arr in
      match arr with
      | [] => r'
      | _ =>
          let o := get promise r' in
          set promise
            {| _state := _state o; _value := _value o; _listeners := [] |} r'
      end
  end.

(** [Promise.resolve(value)] *)
Definition resolve (value : Val) (r : Runtime) : Runtime * nat :=
  let '(r1, promise) := newPromise r in
  if negb (isThenable value)
  then (set promise {| _state := RESOLVED; _value := value;
                       _listeners := [] |} r1, promise)
  else (resolvePromise promise value r1, promise).

(** [Promise.reject(reason)] *)
Definition reject (reason : Val) (r : Runtime) : Runtime * nat :=
  let '(r1, promise) := newPromise r in
  if negb (isThenable reason)
  then (set promise {| _state := REJECTED; _value := reason;
                       _listeners := [] |} r1, promise)
  else (resolvePromise promise reason r1, promise).

(** [this.then(onFulfillment, onRejection)] on the promise [this]. *)
Definition then_ (this : nat) (onFulfillment onRejection : Callback)
  (r : Runtime) : Runtime * nat :=
  let state := _state (get this r) in
  let value := _value (get this r) in
  match state, onFulfillment, onRejection with
  | RESOLVED, NoCallback, _ => resolve value r
  | REJECTED, _, NoCallback => reject value r
  | _, _, _ =>
      let '(r1, promise) := newPromise r in
      match state with
      | PENDING => (subscribe this promise onFulfillment onRejection r1, promise)
      | RESOLVED => (nextTick (Invoke state promise onFulfillment value) r1, promise)
      | REJECTED => (nextTick (Invoke state promise onRejection value) r1, promise)
      end
  end.

(** The [forEach] of [Promise.all] from index [i] on. *)
Fixpoint allEach (all : nat) (iterable : list Val) (i : nat) (r : Runtime)
  : Runtime * Completion unit :=
  match iterable with
  | [] => (r, Return ())
  | thenable :: iterable' =>
      match thenable with
      | Ref p =>
          let '(r1, _) := then_ p (AllFulfilled all i) (AllRejected all) r in
          allEach all iterable' (S i) r1
      | _ =>
          match check all i thenable r with
          | (r1, Return _) => allEach all iterable' (S i) r1
          | (r1, Throw e) => (r1, Throw e)
          end
      end
  end.

(** [Promise.all(iterable)]: the executor runs inside the constructor,
    which rejects the promise when the executor throws. *)
Definition all (iterable : list Val) (r : Runtime) : Runtime * nat :=
  let '(r1, promise) := newPromise r in
  let a := next r1 in
  let r2 :=
    {| promises := promises r1;
       alls := <[a := {| all_promise := promise; len := length iterable;
                         count := 0; result := Some ∅;
                         rejected := false |}]> (alls r1);
       next := S (next r1); timers := timers r1; proxied := proxied r1;
       assigned := assigned r1; warnings := warnings r1 |} in
  match iterable with
  | [] => (resolvePromise promise (Results a) r2, promise)
  | _ =>
      match allEach a iterable 0 r2 with
      | (r3, Return _) => (r3, promise)
      | (r3, Throw _) =>
          (rejectPromise promise (Plain (Str "TypeError")) r3, promise)
      end
  end.

(** *** Data resolution *)

(** A data descriptor: the value [produces], or a function that, called
    on the component, settles the futures [settles] in order and returns
    [produces]. *)
Record DataDescriptor := {
  isFunction : bool;
  settles : list (nat * bool * Val);
  produces : Val
}.

(** The owner of a future settles it: [resolve(value)] or
    [reject(value)] of its executor. *)
Definition settle (promise : nat) (fulfilled : bool) (value : Val)
  (r : Runtime) : Runtime :=
  if fulfilled then resolvePromise promise value r
  else rejectPromise promise value r.

(** [if (typeof value === 'function') value = value.call(this);] *)
Definition callData (d : DataDescriptor) (r : Runtime) : Runtime :=
  if isFunction d
  then foldl (λ r '(promise, fulfilled, value),
                settle promise fulfilled value r) r (settles d)
  else r.

(** [this.$proxy(property)] *)
Definition proxy (property : string) (r : Runtime) : Runtime :=
  {| promises := promises r; alls := alls r; next := next r;
     timers := timers r; proxied := proxied r ++ [property];
     assigned := assigned r; warnings := warnings r |}.

(** The callback of the [map] of [$resolveData] for one property. *)
Definition resolveProperty (property : string) (d : DataDescriptor)
  (r : Runtime) : Runtime * nat :=
  let r1 := callData d (proxy property r) in
  let value := produces d in
  let '(r2, promise) := resolve value r1 in
  then_ promise (Assign property true) (Warn property) r2.

Fixpoint resolveProperties (descriptors : list (string * DataDescriptor))
  (r : Runtime) : Runtime * list Val :=
  match descriptors with
  | [] => (r, [])
  | (property, d) :: descriptors' =>
      let '(r1, promise) := resolveProperty property d r in
      let '(r2, promises) := resolveProperties descriptors' r1 in
      (r2, Ref promise :: promises)
  end.

(** [Component.prototype.$resolveData]; [None] is a falsy argument. *)
Definition resolveData
  (dataDescriptors : option (list (string * DataDescriptor))) (r : Runtime)
  : Runtime * nat :=
  match dataDescriptors with
  | None => resolve (Plain Undefined) r
  | Some descriptors =>
      let '(r1, promises) := resolveProperties descriptors r in
      all promises r1
  end.


(** *** The event loop *)

(** What happens after the synchronous code has returned: the oldest
    timer fires, or the owner of a future settles it. *)
Inductive Event :=
| Tick
| Settle (promise : nat) (fulfilled : bool) (value : Val).

Definition step (e : Event) (r : Runtime) : Runtime :=
  match e with
  | Tick =>
      match timers r with
      | [] => r
      | task :: timers' =>
          runTask task
            {| promises := promises r; alls := alls r; next := next r;
               timers := timers'; proxied := proxied r;
               assigned := assigned r; warnings := warnings r |}
      end
  | Settle promise fulfilled value => settle promise fulfilled value r
  end.

Definition steps (events : list Event) (r : Runtime) : Runtime :=
  foldl (λ r e, step e r) r events.

(** [r'] proxies and has assigned what [r] has. *)
Definition quiet (r r' : Runtime) : Prop :=
  proxied r' = proxied r ∧ assigned r' = assigned r.





(** The [for] loop of [Promise.race] on the rest of [iterable]. Its
    callbacks [value => check(value)] and [reason => check(reason, true)]
    resolve and reject [promise] and return nothing, as the closures of
    [handleThenable] do. *)
Fixpoint raceEach (promise : nat) (iterable : list Val) (r : Runtime)
  : Runtime :=
  match iterable with
  | [] => r
  | thenable :: iterable' =>
      match thenable with
      | Ref t =>
          match _state (get t r) with
          | PENDING =>
              let '(r1, _) :=
                then_ t (ToResolve promise) (ToReject promise) r in
              raceEach promise iterable' r1
          | RESOLVED => resolvePromise promise (_value (get t r)) r
          | REJECTED => rejectPromise promise (_value (get t r)) r
          end
      | _ => resolvePromise promise thenable r
      end
  end.

(** [Promise.race(iterable)] *)
Definition race (iterable : list Val) (r : Runtime) : Runtime * nat :=
  let '(r1, promise) := newPromise r in
  (raceEach promise iterable r1, promise).

(** [this.catch(onRejection)] *)
Definition catch (this : nat) (onRejection : Callback) (r : Runtime)
  : Runtime * nat :=
  then_ this NoCallback onRejection r.

(** Every promise of the runtime was made by [new Promise]. *)
Definition allocated (r : Runtime) : Prop :=
  ∀ promise, is_Some (promises r !! promise) → promise < next r.

(** The promises settled in [r] have their state and value in [r']. *)
Definition kept (r r' : Runtime) : Prop :=
  ∀ promise,
    _state (get promise r) ≠ PENDING →
    _state (get promise r') = _state (get promise r)
    ∧ _value (get promise r') = _value (get promise r).

End Promise.

(** ** Component, later revision: $mount and the registry *)

Module Component2.
Import Template.

(** [node[weakRefKey]] for the objects that have it, [instancesById]
    ([None] is [null]), and the component objects. [util.uniqueId] is not
    under src/: the identity of a component stands for its unique id. *)
Record World := {
  weakRefKey : gmap nat nat;
  instancesById : gmap nat (option nat);
  instances : gmap nat Component.Instance;
  next_id : nat;
  effects : list Effect;
  console : list Component.ConsoleEntry;
  emitted : list (nat * string)
}.

Definition instance (this : nat) (w : World) : Component.Instance :=
  default Component.newInstance (instances w !! this).

Definition log (entry : Component.ConsoleEntry) (w : World) : World :=
  {| weakRefKey := weakRefKey w; instancesById := instancesById w;
     instances := instances w; next_id := next_id w; effects := effects w;
     console := console w ++ [entry]; emitted := emitted w |}.

(** [this.$emit(event)] *)
Definition emit (this : nat) (event : string) (w : World) : World :=
  {| weakRefKey := weakRefKey w; instancesById := instancesById w;
     instances := instances w; next_id := next_id w; effects := effects w;
     console := console w; emitted := emitted w ++ [(this, event)] |}.

(** [Component.getByElement]: [element && instancesById[element[weakRefKey]]];
    [None] is a falsy result. *)
Definition getByElement (element : Target) (w : World) : option nat :=
  match weakRefKey w !! target_uid element with
  | Some id => mjoin (instancesById w !! id)
  | None => None
  end.

(** [Component.setWeakRef] *)
Definition setWeakRef (element : Node) (component : nat) (w : World) : World :=
  {| weakRefKey := <[uid element := component]> (weakRefKey w);
     instancesById := instancesById w; instances := instances w;
     next_id := next_id w; effects := effects w; console := console w;
     emitted := emitted w |}.

(** [Component.removeWeakRef] *)
Definition removeWeakRef (element : Node) (w : World) : World :=
  {| weakRefKey := delete (uid element) (weakRefKey w);
     instancesById := instancesById w; instances := instances w;
     next_id := next_id w; effects := effects w; console := console w;
     emitted := emitted w |}.

Definition viewModel (this : nat) (w : World) : ViewModel :=
  {| _bindings := Component.bindings (instance this w);
     Template.next_id := next_id w;
     Template.effects := effects w |}.

Definition update (this : nat) (i : Component.Instance) (vm : ViewModel)
  (w : World) : World :=
  {| weakRefKey := weakRefKey w; instancesById := instancesById w;
     instances :=
       <[this := {| Component._isMounted := Component._isMounted i;
                    Component.element := Component.element i;
                    Component.bindings := _bindings vm |}]> (instances w);
     next_id := Template.next_id vm;
     effects := Template.effects vm;
     console := console w; emitted := emitted w |}.

(** [Array.isArray(element) ? element : [element]] *)
Definition nodeList (element : Target) : list Node :=
  match element with
  | Single node => [node]
  | Array _ nodes => nodes
  end.

Section mount.
Context `{Env}.

(** [Component.prototype.$mount] *)
Definition mount (this : nat) (target : Target) (w : World)
  : World * Completion Component.MountResult :=
  let w0 :=
    if Component._isMounted (instance this w)
    then log Component.AssertionFailed w else w in
  match getByElement target w0 with
  | Some _ => (log Component.MountRejected w0, Return Component.Aborted)
  | None =>
      match compile target with
      | Throw e => (w0, Throw e)
      | Return (program, target') =>
          match run program target' (viewModel this w0) with
          | (vm, Throw e) => (update this (instance this w0) vm w0, Throw e)
          | (vm, Return _) =>
              let w1 :=
                update this
                  {| Component._isMounted := true;
                     Component.element := Some target';
                     Component.bindings := _bindings vm |} vm w0 in
              let w2 :=
                foldl (λ w node, setWeakRef node this w) w1 (nodeList target') in
              (emit this "mounted" w2, Return Component.Mounted)
          end
      end
  end.
End mount.

(** *** The registry of component classes *)

(** [constructorsByName] ([None] is [null]), [resourcesByName] and the
    [record] of the names that have their style rule, each a plain object
    given by its own properties, and the names [dom.addCSSRule] was called
    with, in order; [dom.addCSSRule] is not under src/ and is taken to
    return. The output on the console is left out. *)
Record Registry := {
  constructorsByName : gmap string (option nat);
  resourcesByName : gmap string string;
  record : gmap string bool;
  cssRules : list string
}.

Section registry.
(** [inherited name]: Object.prototype has a property [name]. The values
    of its properties are functions, and for [__proto__] the prototype
    itself: as a condition they all hold. *)
Context (inherited : string → bool).

(** [record[name]] as a condition. *)
Definition recorded (name : string) (g : Registry) : bool :=
  match record g !! name with
  | Some b => b
  | None => inherited name
  end.

(** [addHiddenStyleForComponent] *)
Definition addHiddenStyleForComponent (name : string) (g : Registry)
  : Registry :=
  if recorded name g then g
  else
    {| constructorsByName := constructorsByName g;
       resourcesByName := resourcesByName g;
       record := util.assign name true (record g);
       cssRules := cssRules g ++ [name] |}.

(** [Component.register]; [componentCtor] is an object. *)
Definition register (name : string) (componentCtor : nat) (g : Registry)
  : Registry :=
  addHiddenStyleForComponent name
    {| constructorsByName :=
         util.assign name (Some componentCtor) (constructorsByName g);
       resourcesByName := resourcesByName g; record := record g;
       cssRules := cssRules g |}.

(** The [forEach] of [Component.registerByResourcesLazy] for one name. *)
Definition registerResource (name resource : string) (g : Registry)
  : Registry :=
  addHiddenStyleForComponent name
    {| constructorsByName := util.assign name None (constructorsByName g);
       resourcesByName := util.assign name resource (resourcesByName g);
       record := record g; cssRules := cssRules g |}.

(** [Component.registerByResourcesLazy]; the object is given by its keys
    in order, with their values. *)
Definition registerByResourcesLazy (components : list (string * string))
  (g : Registry) : Registry :=
  foldl (λ g kv, registerResource kv.1 kv.2 g) g components.

(** A call of the registry. *)
Inductive Call :=
| Register (name : string) (componentCtor : nat)
| RegisterByResourcesLazy (components : list (string * string)).

Definition call (c : Call) (g : Registry) : Registry :=
  match c with
  | Register name componentCtor => register name componentCtor g
  | RegisterByResourcesLazy components => registerByResourcesLazy components g
  end.

(** The names a call registers. *)
Definition names (c : Call) : list string :=
  match c with
  | Register name _ => [name]
  | RegisterByResourcesLazy components => components.*1
  end.

(** The hiding rules are distinct, they are the names [record] holds, and
    none of them is a property of Object.prototype. *)
Definition one_rule_per_name (g : Registry) : Prop :=
  NoDup (cssRules g)
  ∧ (∀ name, is_Some (record g !! name) ↔ name ∈ cssRules g)
  ∧ (∀ name, record g !! name = Some false → False)
  ∧ (∀ name, name ∈ cssRules g → inherited name = false).
End registry.

(** The registry before the first call. *)
Definition emptyRegistry : Registry :=
  {| constructorsByName := ∅; resourcesByName := ∅; record := ∅;
     cssRules := [] |}.

End Component2.

(** ** Component of component.ts: the registry *)

Module Registry1.

(** [definedComponentMap], a plain object given by its own properties,
    and the rules of the style sheet the first rule creates. [record] is
    read and never written: it stays the empty object. The output on the
    console is left out. *)
Record Registry := {
  definedComponentMap : gmap string nat;
  cssRules : list string
}.

Section registry.
(** [inherited name]: Object.prototype has a property [name], so that
    [record[name]] holds; [parses rule]: the style sheet can parse the
    rule, and [insertRule] throws if it cannot. *)
Context (inherited : string → bool) (parses : string → bool).

(** [addHiddenStyleForComponent] of component.ts *)
Definition addHiddenStyleForComponent (name : string) (g : Registry)
  : Registry * Completion unit :=
  if inherited name then (g, Return ())
  else
    let rule := name +:+ "{display:none}" in
    if parses rule
    then ({| definedComponentMap := definedComponentMap g;
             cssRules := cssRules g ++ [rule] |}, Return ())
    else (g, Throw SyntaxError).

(** [Component.register] of component.ts; [componentCtor] is an
    object. *)
Definition register (name : string) (componentCtor : nat) (g : Registry)
  : Registry * Completion unit :=
  addHiddenStyleForComponent name
    {| definedComponentMap :=
         util.assign name componentCtor (definedComponentMap g);
       cssRules := cssRules g |}.
End registry.

(** The registry before the first call. *)
Definition emptyRegistry : Registry :=
  {| definedComponentMap := ∅; cssRules := [] |}.

End Registry1.

(** ** filter *)

Module filter.

(** [escapeChars[x]] *)
Definition escapeChars (x : string) : option string :=
  if decide (x = "&") then Some "&amp;"
  else if decide (x = " ") then Some "&nbsp;"
  else if decide (x = String "034" "") then Some "&quot;"
  else if decide (x = "'") then Some "&#x27;"
  else if decide (x = "<") then Some "&lt;"
  else if decide (x = ">") then Some "&gt;"
  else None.

(** [unescapeChars[a]] *)
Definition unescapeChars (a : string) : option string :=
  if decide (a = "&amp;") then Some "&"
  else if decide (a = "&nbsp;") then Some " "
  else if decide (a = "&quot;") then Some (String "034" "")
  else if decide (a = "&#x27;") then Some "'"
  else if decide (a = "&lt;") then Some "<"
  else if decide (a = "&gt;") then Some ">"
  else None.

(** A function passed to [replace] returns [undefined] for a missing key,
    which [replace] turns into text. *)
Definition orUndefined (o : option string) : string := default "undefined" o.

(** The class of [reg.escape]. *)
Definition escaped (c : ascii) : bool :=
  bool_decide (c = "<"%char) || bool_decide (c = ">"%char)
  || bool_decide (c = "&"%char) || bool_decide (c = " "%char)
  || bool_decide (c = "034"%char) || bool_decide (c = "'"%char).

(** [filters.escape] *)
Definition escape (input : string) : string :=
  Text.replace (Text.oneOf escaped) (λ x, orUndefined (escapeChars x)) input.

(** The length of the match of [.*?;]. *)
Fixpoint lazySemicolon (s : string) : option nat :=
  match s with
  | "" => None
  | String c s' =>
      if bool_decide (c = ";"%char) then Some 1
      else if Text.lineTerminator c then None
      else S <$> lazySemicolon s'
  end.

(** [reg.unescape], [/&.+?;/]. *)
Definition entity (s : string) : option nat :=
  match s with
  | String a (String c s') =>
      if bool_decide (a = "&"%char) && negb (Text.lineTerminator c)
      then (λ n, S (S n)) <$> lazySemicolon s'
      else None
  | _ => None
  end.

(** [filters.unescape] *)
Definition unescape (input : string) : string :=
  Text.replace entity (λ a, orUndefined (unescapeChars a)) input.

(** [filters.truncate]; [tail] is [None] when it is [null] or not given. *)
Definition truncate (input : string) (length : Z) (tail : option string)
  : string :=
  if (Z.of_nat (String.length input) <=? length)%Z then input
  else Text.slice_to input length +:+ default "..." tail.

(** The class of the first pattern of [addslashes]: a backslash, a double
    quote or a single quote. *)
Definition slashed (c : ascii) : bool :=
  bool_decide (c = "\"%char) || bool_decide (c = "034"%char)
  || bool_decide (c = "'"%char).

(** [filters.addslashes] *)
Definition addslashes (input : string) : string :=
  Text.replace (Text.oneOf (λ c, bool_decide (c = "000"%char)))
    (λ _, "\0")
    (Text.replace (Text.oneOf slashed) (λ m, "\" +:+ m) input).

(** [filters.stripslashes] *)
Definition stripslashes (input : string) : string :=
  Text.replace (Text.literal "\\") (λ _, "\")
    (Text.replace (Text.literal "\0") (λ _, String "000" "")
       (Text.replace (Text.literal (String "\" (String "034" "")))
          (λ _, String "034" "")
          (Text.replace (Text.literal "\'") (λ _, "'") input))).

(** No backslash of [s] is followed by the digit 0. *)
Fixpoint slashZeroFree (s : string) : bool :=
  match s with
  | String a s' =>
      negb (bool_decide (a = "\"%char)
            && match s' with
               | String b _ => bool_decide (b = "0"%char)
               | "" => false
               end)
      && slashZeroFree s'
  | "" => true
  end.

(** [s] with a backslash before each of its characters that the flags
    name: single quotes, double quotes and backslashes, and with NUL
    written as a backslash and the digit 0. *)
Fixpoint slashedText (quote dquote nul backslash : bool) (s : string)
  : string :=
  match s with
  | "" => ""
  | String c s' =>
      (if bool_decide (c = "'"%char) && quote
          || bool_decide (c = "034"%char) && dquote
          || bool_decide (c = "\"%char) && backslash
       then String "\" (String c "")
       else if bool_decide (c = "000"%char) && nul then "\0"
       else String c "")
      +:+ slashedText quote dquote nul backslash s'
  end.

(** [filters.striptags], [/(<([^>]+)>)/ig]: the length of [[^>]+>]. *)
Fixpoint untilClose (s : string) (seen : bool) : option nat :=
  match s with
  | "" => None
  | String c s' =>
      if bool_decide (c = ">"%char) then (if seen then Some 1 else None)
      else S <$> untilClose s' true
  end.

Definition tag (s : string) : option nat :=
  match s with
  | String c s' =>
      if bool_decide (c = "<"%char) then S <$> untilClose s' false else None
  | "" => None
  end.

Definition striptags (input : string) : string :=
  Text.replace tag (λ _, "") input.

(** The character that closes a tag occurs in [s]. *)
Definition closes (s : string) : Prop :=
  ">"%char ∈ String.list_ascii_of_string s.

Section pipe.
(** The values filters work on; [text] is what [join] makes of an item
    that is neither [null] nor [undefined] ([JSON.stringify] of an object,
    ToString of anything else), [ofText] is a string as a value. *)
Context {V : Type} (nullish : V → bool) (text : V → string)
  (ofText : string → V).

(** A filter definition: [def.param(...args)], if there is a getter, is
    the array of the further arguments, unless the getter throws. *)
Record FilterDef := {
  name : string;
  param : option (list V → Completion (list V))
}.

(** [getInterpolateValue] *)
Definition getInterpolateValue (values : list V) : V :=
  match values with
  | [value] => value
  | _ =>
      ofText (String.concat ""
                ((λ item, if nullish item then "" else text item) <$> values))
  end.

(** The [forEach] of [pipeFor]. [filterMap name] is the function that
    [filterMap[name]] finds, on the object or along its prototype chain,
    if what it finds is a function; a filter is called on its arguments
    and returns a value or throws. A name with no function throws, before
    the parameters are evaluated. *)
Fixpoint applyFilters (filterMap : string → option (list V → Completion V))
  (args : list V) (value : V) (filterDefs : list FilterDef) : Completion V :=
  match filterDefs with
  | [] => Return value
  | def :: filterDefs' =>
      match filterMap (name def) with
      | None => Throw Error
      | Some method =>
          param ← match param def with
                  | Some getter => getter args
                  | None => Return []
                  end;
          value' ← method (value :: param);
          applyFilters filterMap args value' filterDefs'
      end
  end.

(** [pipeFor(value, filterDefs, filterMap, false, ...args)]; [None] is a
    falsy [filterDefs]. *)
Definition pipeFor (value : V) (filterDefs : option (list FilterDef))
  (filterMap : string → option (list V → Completion V)) (args : list V)
  : Completion V :=
  match filterDefs with
  | None => Return value
  | Some defs => applyFilters filterMap args value defs
  end.

(** The [map] of the interpolated branch: item [i] goes through
    [filterDefs[i]], if there is one. *)
Fixpoint pipeItems (filterMap : string → option (list V → Completion V))
  (args : list V) (items : list V)
  (filterDefs : list (option (list FilterDef))) : Completion (list V) :=
  match items with
  | [] => Return []
  | item :: items' =>
      item' ← pipeFor item (mjoin (head filterDefs)) filterMap args;
      rest ← pipeItems filterMap args items' (tail filterDefs);
      mret (item' :: rest)
  end.

(** [pipeFor(value, filterDefs, filterMap, true, ...args)] *)
Definition pipeForInterpolate (value : list V)
  (filterDefs : option (list (option (list FilterDef))))
  (filterMap : string → option (list V → Completion V)) (args : list V)
  : Completion V :=
  match filterDefs with
  | None => Return (getInterpolateValue value)
  | Some defs =>
      values ← pipeItems filterMap args value defs;
      mret (getInterpolateValue values)
  end.
End pipe.

End filter.

(** ** A concrete environment for the examples *)

Module Demo.
Import Template.

(** A stand-in for the interpolation parser: [{{] opens an expression
    and [}}] closes it. *)
Fixpoint tokenize (s : string) (inExpr : bool) (acc : string) : list Token :=
  let flush :=
    if inExpr then [Expr acc]
    else match acc with "" => [] | _ => [Literal acc] end in
  match s with
  | "" => flush
  | String "{"%char (String "{"%char s') =>
      if inExpr then tokenize s' inExpr (acc +:+ "{{")
      else flush ++ tokenize s' true ""
  | String "}"%char (String "}"%char s') =>
      if inExpr then flush ++ tokenize s' false ""
      else tokenize s' inExpr (acc +:+ "}}")
  | String c s' => tokenize s' inExpr (acc +:+ String c "")
  end.

Definition definitions (name : string) : option BindingDefinition :=
  if decide (name = "repeat") then
    Some {| priority := 90; def_isTerminal := Some true; retainAttribute := false |}
  else if decide (name = "if") then
    Some {| priority := 100; def_isTerminal := Some true; retainAttribute := false |}
  else if decide (name = "model") then
    Some {| priority := 5; def_isTerminal := None; retainAttribute := false |}
  else if decide (name = "on") then
    Some {| priority := 5; def_isTerminal := None; retainAttribute := false |}
  else if decide (name = "class") then
    Some {| priority := 10; def_isTerminal := None; retainAttribute := true |}
  else if decide (name = "bind") then
    Some {| priority := 1; def_isTerminal := None; retainAttribute := false |}
  else if decide (name = "attr") then
    Some {| priority := 1; def_isTerminal := None; retainAttribute := false |}
  else None.

(** [node[0]], [node[1]], ... of the DOM: the options of a SELECT (its
    OPTION children and those of its OPTGROUP children) and the controls
    of a FORM (the listed elements below it, in tree order, but for image
    buttons); no other node has indexed properties. *)
Definition isOption (node : Node) : bool :=
  bool_decide (tagName node = Some "OPTION").

Definition options (nodes : list Node) : list Node :=
  nodes ≫= λ node,
    if isOption node then [node]
    else if bool_decide (tagName node = Some "OPTGROUP")
    then filter (λ n, isOption n = true) (childNodes node)
    else [].

Definition isControl (node : Node) : bool :=
  match tagName node with
  | Some t =>
      bool_decide (t ∈ ["BUTTON"; "FIELDSET"; "OBJECT"; "OUTPUT"; "SELECT";
                        "TEXTAREA"])
      || bool_decide (t = "INPUT")
         && negb (bool_decide (getAttribute node "type" = Some "image"))
  | None => false
  end.

Fixpoint controls (node : Node) : list Node :=
  (if isControl node then [node] else [])
  ++ match node with
     | ElementNode _ _ _ _ ch | OtherNode _ _ ch =>
         (fix each (nodes : list Node) : list Node :=
            match nodes with
            | [] => []
            | n :: nodes' => controls n ++ each nodes'
            end) ch
     | TextNode _ _ => []
     end.

Definition domItems (node : Node) : list Node :=
  match node with
  | ElementNode _ "SELECT" _ _ ch => options ch
  | ElementNode _ "FORM" _ _ ch => ch ≫= controls
  | _ => []
  end.

(** [node.length] of the DOM: the length of the data of a text node or a
    comment (the comments of the examples are empty), the number of
    options of a SELECT and of controls of a FORM. *)
Definition domLength (node : Node) : option nat :=
  match node with
  | TextNode _ s => Some (String.length s)
  | OtherNode _ Comment _ => Some 0
  | ElementNode _ "SELECT" _ _ _ | ElementNode _ "FORM" _ _ _ =>
      Some (length (domItems node))
  | _ => None
  end.

Definition env (debug : bool) : Env :=
  {| prefix := "drunk-";
     debug := debug;
     getTerminalBindings := ["if"; "repeat"];
     getDefinintionByName := definitions;
     hasInterpolation := λ s,
       match String.index 0 "{{" s with Some _ => true | None => false end;
     parseInterpolate := λ s, tokenize s false "";
     eval := λ v, default "" v;
     nodeLength := domLength;
     nodeItems := domItems |}.

Definition emptyViewModel : ViewModel :=
  {| _bindings := []; next_id := 1000; effects := [] |}.

(** [<div id="a" drunk-model="x" title="t {{y}}" drunk-class="c">Hello
    {{name}}!<span></span></div>] *)
Definition card : Node :=
  ElementNode 1 "DIV"
    [("id", "a"); ("drunk-model", "x"); ("title", "t {{y}}");
     ("drunk-class", "c")] ""
    [TextNode 2 "Hello {{name}}!"; ElementNode 3 "SPAN" [] "" []].

(** [<textarea drunk-if="x" drunk-model="m">{{z}}</textarea>] *)
Definition textarea : Node :=
  ElementNode 4 "TEXTAREA" [("drunk-if", "x"); ("drunk-model", "m")] ""
    [TextNode 5 "{{z}}"].

(** [<div drunk-zzz="w"></div>]: no directive is named [zzz]. *)
Definition unknown : Node :=
  ElementNode 6 "DIV" [("drunk-zzz", "w")] "" [].

(** [<div title="{{x}}"></div>] *)
Definition titled : Node :=
  ElementNode 7 "DIV" [("title", "{{x}}")] "" [].

(** [<div><span></span></div>] *)
Definition plain : Node :=
  ElementNode 8 "DIV" [] "" [ElementNode 9 "SPAN" [] "" []].

(** [<div drunk-if="" drunk-model="x">{{z}}</div>] *)
Definition emptyIf : Node :=
  ElementNode 10 "DIV" [("drunk-if", ""); ("drunk-model", "x")] ""
    [TextNode 11 "{{z}}"].

(** [<p drunk-model="y"></p>] *)
Definition paragraph : Node :=
  ElementNode 12 "P" [("drunk-model", "y")] "" [].

Definition noProgram : BindingExecutor :=
  {| executor := None; childExecutor := None |}.

Definition compiled (node : Node) : BindingExecutor * Target :=
  match @compile (env true) (Single node) with
  | Return r => r
  | Throw _ => (noProgram, Single node)
  end.

Definition ran (node : Node) (vm : ViewModel) : ViewModel * Disposer :=
  match @run (env true) (compiled node).1 (compiled node).2 vm with
  | (vm', Return d) => (vm', d)
  | (vm', Throw _) => (vm', {| bindingList := [] |})
  end.

(** The card is bound, then the paragraph, against one view model. *)
Definition afterCard : ViewModel * Disposer :=
  Eval vm_compute in ran card emptyViewModel.

Definition afterParagraph : ViewModel * Disposer :=
  Eval vm_compute in ran paragraph afterCard.1.

(** The executors of the card in attribute scan order, and the card as
    the scan leaves it. *)
Definition cardScan : list Executor * Node :=
  Eval vm_compute in
    match @processAttributes (env true) (attributes card) [] card with
    | Return r => r
    | Throw _ => ([], card)
    end.

Definition cardElement : option Executor * Node :=
  Eval vm_compute in
    match @compileElement (env true) card with
    | Return r => r
    | Throw _ => (None, card)
    end.

(** Nothing is mounted, and no object has a uuid. *)
Definition emptyWorld : Component.World :=
  {| Component.utilState := {| util.uids := ∅; util.counter := 0 |};
     Component.weakRefMap := ∅;
     Component.instances := ∅;
     Component.next_id := 1000;
     Component.effects := [];
     Component.console := [] |}.

(** Two pending futures, 1 and 2, owned by the caller. *)
Definition twoFutures : Promise.Runtime :=
  {| Promise.promises := {[1 := Promise.pending; 2 := Promise.pending]};
     Promise.alls := ∅;
     Promise.next := 3;
     Promise.timers := [];
     Promise.proxied := [];
     Promise.assigned := [];
     Promise.warnings := [] |}.


(** [{ a: () => { settle future 2 with 20; return 10 }, b: <future 2> }] *)
Definition eagerData : list (string * Promise.DataDescriptor) :=
  [("a", {| Promise.isFunction := true;
            Promise.settles :=
              [(2, true, Promise.Plain (Number 20))];
            Promise.produces := Promise.Plain (Number 10) |});
   ("b", {| Promise.isFunction := false; Promise.settles := [];
            Promise.produces := Promise.Ref 2 |})].
End Demo.

(** ** Further examples *)

Module Samples.
Import Template.

(** [<div drunk-if="x" drunk-model="m">{{z}}</div>] *)
Definition shown : Node :=
  ElementNode 20 "DIV" [("drunk-if", "x"); ("drunk-model", "m")] ""
    [TextNode 21 "{{z}}"].

(** The text of the card. *)
Definition greeting : Node := TextNode 2 "Hello {{name}}!".

(** The card and the paragraph as an array. *)
Definition cardAndParagraph : Target :=
  Array 30 [Demo.card; Demo.paragraph].

(** Components 10 and 20 are alive, and nothing is mounted. *)
Definition liveWorld : Component2.World :=
  {| Component2.weakRefKey := ∅;
     Component2.instancesById := {[10 := Some 10; 20 := Some 20]};
     Component2.instances := ∅;
     Component2.next_id := 1000;
     Component2.effects := [];
     Component2.console := [];
     Component2.emitted := [] |}.


Definition mountedOnPair : Component2.World :=
  Eval vm_compute in
    (@Component2.mount (Demo.env true) 10 cardAndParagraph liveWorld).1.

(** Promise 1 is fulfilled with 7, promise 2 is pending. *)
Definition oneSettled : Promise.Runtime :=
  {| Promise.promises :=
       {[1 := {| Promise._state := Promise.RESOLVED;
                 Promise._value := Promise.Plain (Number 7);
                 Promise._listeners := [] |};
         2 := Promise.pending]};
     Promise.alls := ∅;
     Promise.next := 3;
     Promise.timers := [];
     Promise.proxied := [];
     Promise.assigned := [];
     Promise.warnings := [] |}.

(** A filter map with the one filter [escape], on strings; called on
    nothing, [escape] throws on [input.replace]. *)
Definition escapeOnly (name : string)
  : option (list string → Completion string) :=
  if decide (name = "escape")
  then Some (λ arguments,
               match arguments with
               | input :: _ => Return (filter.escape input)
               | [] => Throw TypeError
               end)
  else None.

(** The properties of Object.prototype. *)
Definition objectPrototype : list string :=
  ["constructor"; "hasOwnProperty"; "isPrototypeOf"; "propertyIsEnumerable";
   "toLocaleString"; "toString"; "valueOf"; "__proto__"; "__defineGetter__";
   "__defineSetter__"; "__lookupGetter__"; "__lookupSetter__"].

Definition ofObjectPrototype (name : string) : bool :=
  bool_decide (name ∈ objectPrototype).

(** [my-view] is registered, then [constructor], then the resources of
    [my-view] and [my-list]. *)
Definition registered : Component2.Registry :=
  Eval vm_compute in
    foldl (λ g c, Component2.call ofObjectPrototype c g)
      Component2.emptyRegistry
      [Component2.Register "my-view" 1; Component2.Register "constructor" 2;
       Component2.RegisterByResourcesLazy
         [("my-view", "view.html"); ("my-list", "list.html")]].
End Samples.

(** * Properties *)

Import Template.

(** ** Arrays *)

Section array_lemmas.
Context {A : Type}.
Implicit Types (arr pre mid post : list A) (same : A → bool).

Lemma indexOf_from_skip same pre arr i :
  Forall (λ y, same y = false) pre →
  indexOf_from same (pre ++ arr) i
  = indexOf_from same arr (i + Z.of_nat (length pre))%Z.
Proof.
  intros Hpre. revert i.
  induction Hpre as [|y pre Hy _ IH]; intros i; simpl.
  - f_equal. lia.
  - rewrite Hy, IH. f_equal. lia.
Qed.

Lemma indexOf_found same pre x arr :
  Forall (λ y, same y = false) pre → same x = true →
  indexOf same (pre ++ x :: arr) = Z.of_nat (length pre).
Proof.
  intros Hpre Hx. unfold indexOf.
  rewrite indexOf_from_skip by done. simpl. by rewrite Hx.
Qed.

Lemma indexOf_absent same arr :
  Forall (λ y, same y = false) arr → indexOf same arr = (-1)%Z.
Proof.
  intros Harr. unfold indexOf.
  rewrite <- (app_nil_r arr), indexOf_from_skip by done. done.
Qed.

Lemma splice_middle pre mid post :
  splice (pre ++ mid ++ post) (Z.of_nat (length pre)) (Z.of_nat (length mid))
  = pre ++ post.
Proof.
  unfold splice. rewrite !length_app.
  destruct (Z.ltb_spec (Z.of_nat (length pre)) 0) as [?|_]; [lia|].
  rewrite Z.min_l by lia. rewrite Z.max_l by lia. rewrite Z.min_l by lia.
  rewrite Nat2Z.id, <- Nat2Z.inj_add, Nat2Z.id.
  rewrite take_app_length.
  rewrite app_assoc, drop_app_length'; [done|].
  by rewrite length_app.
Qed.

Lemma splice_none arr start :
  splice arr start 0 = arr.
Proof.
  unfold splice. rewrite (Z.max_l 0 0) by lia.
  set (len := Z.of_nat (length arr)).
  set (a := if (start <? 0)%Z then _ else _).
  assert (0 ≤ a ≤ len)%Z as Ha.
  { subst a len. destruct (Z.ltb_spec start 0); lia. }
  rewrite Z.min_l by lia. rewrite Z.add_0_r. apply take_drop.
Qed.
End array_lemmas.

(** ** Induction on executors *)

Lemma Executor_nested_ind (P : Executor → Prop) :
  (∀ descriptor definition, P (ExCreate descriptor definition)) →
  (∀ executors, Forall P executors → P (ExNormal executors)) →
  (∀ origin, (∀ e, origin = Some e → P e) → P (ExTextarea origin)) →
  (∀ fragment executors,
     Forall (λ o, ∀ e, o = Some e → P e) executors →
     P (ExTextNode fragment executors)) →
  ∀ e, P e.
Proof.
  intros Hcreate Hnormal Htextarea Htext.
  fix IH 1. intros [descriptor definition|executors|origin|fragment executors].
  - apply Hcreate.
  - apply Hnormal. induction executors as [|e executors IHl]; constructor.
    + apply IH.
    + apply IHl.
  - apply Htextarea. destruct origin as [e|]; intros e' [=].
    subst e'. apply IH.
  - apply Htext. induction executors as [|o executors IHl]; constructor.
    + destruct o as [e|]; intros e' [=]. subst e'. apply IH.
    + apply IHl.
Qed.


Lemma Node_nested_ind (P : Node → Prop) :
  (∀ u t attrs v ch, Forall P ch → P (ElementNode u t attrs v ch)) →
  (∀ u s, P (TextNode u s)) →
  (∀ u k ch, Forall P ch → P (OtherNode u k ch)) →
  ∀ node, P node.
Proof.
  intros Helement Htext Hother. fix IH 1. intros [u t attrs v ch|u s|u k ch].
  - apply Helement. induction ch as [|n ch IHl]; constructor; [apply IH|apply IHl].
  - apply Htext.
  - apply Hother. induction ch as [|n ch IHl]; constructor; [apply IH|apply IHl].
Qed.

(** ** Executions only push new bindings *)

Section ledger_lemmas.
Implicit Types (vm : ViewModel) (new : list Binding).


Lemma appended_refl vm : appended vm vm [].
Proof.
  repeat split; [by rewrite app_nil_r|done|constructor|constructor].
Qed.



Lemma appended_bindings vm vm' new new' :
  appended vm vm' new → _bindings vm' = _bindings vm ++ new' → new = new'.
Proof. intros (Hb & _) Hb'. rewrite Hb in Hb'. by apply app_inv_head in Hb'. Qed.



Lemma appends_get_bindings : appends get_bindings.
Proof. intros vm. exists []. apply appended_refl. Qed.








End ledger_lemmas.

Section execution_appends.
Context `{Env}.








End execution_appends.

(** ** The disposer *)

Section disposer.
Context `{Env}.

Lemma same_binding_other b (pre : list Binding) :
  id b ∉ id <$> pre → Forall (λ y, same_binding (Some b) y = false) pre.
Proof.
  intros Hnotin. apply Forall_forall. intros y Hy. simpl.
  apply bool_decide_eq_false. intros Heq. apply Hnotin.
  rewrite Heq. by apply list_elem_of_fmap_2.
Qed.




(** *** Sessions *)







End disposer.

(** ** The combined unit of a node collection *)

Section node_list.
Context `{Env}.

Lemma forEachIndexed_zip {A B} (f : A → B → Exec unit) slots nodes :
  forEachIndexed f slots nodes
  = forEach (λ '(slot, node), f slot node) (zip slots nodes).
Proof.
  revert nodes.
  induction slots as [|slot slots IH]; intros [|node nodes]; simpl; try done.
  by rewrite IH.
Qed.

Lemma forEach_ext {A} (f g : A → Exec unit) arr vm :
  (∀ x vm', f x vm' = g x vm') → forEach f arr vm = forEach g arr vm.
Proof.
  intros Hfg. revert vm. induction arr as [|x arr IH]; intros vm; [done|].
  simpl. unfold mbind, exec_bind. rewrite Hfg.
  destruct (g x vm) as [vm' [[]|e]]; [apply IH|done].
Qed.

(** C3. A combined unit run on a live collection whose length is not the
    number of compiled pairs throws before it touches the view model; on
    a collection of that length its own test passes and pair [i] runs on
    node [i], in order. *)
Theorem combined_unit_checks_length executors nodes vm :
  execNodeList (ExNodeList executors) nodes vm
  = if decide (length nodes = length executors)
    then forEach (λ '(entry, node), execPair entry node)
           (zip executors nodes) vm
    else (vm, Throw Error).
Proof.
  simpl. case_bool_decide as Hlen; case_decide as Hlen'; try lia; [done|].
  rewrite forEachIndexed_zip. apply forEach_ext. by intros [[e c] node] vm'.
Qed.
End node_list.

(** ** Array.prototype.sort on a numeric key *)

Section sort_lemmas.
Context {A : Type} (comparefn : A → A → Z).

Lemma sort_insert_perm x l : sort_insert comparefn x l ≡ₚ x :: l.
Proof.
  induction l as [|y l IH]; simpl; [done|].
  case_match; [|done]. rewrite IH. apply Permutation_swap.
Qed.

Lemma sort_perm l : sort comparefn l ≡ₚ l.
Proof.
  induction l as [|x l IH]; simpl; [done|].
  by rewrite sort_insert_perm, IH.
Qed.

(** [comparefn] compares a numeric [key], larger keys first, on the
    elements that satisfy [P]. *)
Context (P : A → Prop) (key : A → Z).
Hypothesis comparefn_key :
  ∀ a b, P a → P b → comparefn a b = (key b - key a)%Z.

Lemma sort_insert_sorted x l :
  P x → Forall P l →
  StronglySorted (descending key) l →
  StronglySorted (descending key) (sort_insert comparefn x l).
Proof.
  intros Hx HP Hsorted.
  induction Hsorted as [|y l Hsorted IH Hy]; simpl.
  - repeat constructor.
  - apply Forall_cons in HP as [HPy HPl].
    rewrite comparefn_key by done.
    destruct (Z.ltb_spec 0 (key y - key x)) as [Hlt|Hge].
    + constructor; [by apply IH|].
      rewrite sort_insert_perm. constructor; [|done].
      unfold descending. lia.
    + constructor; [by constructor|].
      constructor; [unfold descending; lia|].
      eapply Forall_impl; [exact Hy|]. unfold descending. simpl. lia.
Qed.

Lemma sort_sorted l :
  Forall P l → StronglySorted (descending key) (sort comparefn l).
Proof.
  induction 1 as [|x l Hx Hl IH]; simpl; [constructor|].
  apply sort_insert_sorted; [done| |done]. by rewrite sort_perm.
Qed.

Lemma sort_insert_stable p x l :
  P x → Forall P l →
  filter (λ e, key e = p) (sort_insert comparefn x l)
  = filter (λ e, key e = p) (x :: l).
Proof.
  intros Hx. induction 1 as [|y l Hy Hl IH]; simpl; [done|].
  rewrite comparefn_key by done.
  destruct (Z.ltb_spec 0 (key y - key x)) as [Hlt|Hge]; [|done].
  rewrite filter_cons, IH, !filter_cons.
  repeat case_decide; try done; lia.
Qed.

(** Stability: the elements of one key keep their order. *)
Lemma sort_stable p l :
  Forall P l →
  filter (λ e, key e = p) (sort comparefn l) = filter (λ e, key e = p) l.
Proof.
  induction 1 as [|x l Hx Hl IH]; simpl; [done|].
  rewrite sort_insert_stable; [|done|by rewrite sort_perm].
  by rewrite !filter_cons, IH.
Qed.
End sort_lemmas.

(** ** The normal attribute scan *)

Section normal_binding.
Context `{Env}.

Lemma by_priority_key a b :
  is_create a → is_create b →
  by_priority a b = (priority_of b - priority_of a)%Z.
Proof. by intros (? & ? & ->) (? & ? & ->). Qed.

Lemma createExecutor_Some element descriptor e element' :
  createExecutor element descriptor = Return (Some e, element') →
  ∃ definition,
    getDefinintionByName (name descriptor) = Some definition
    ∧ e = ExCreate (extend descriptor definition) definition
    ∧ element' =
        if negb (retainAttribute definition) && has_removeAttribute element
        then removeAttribute element (prefix +:+ name descriptor)
        else element.
Proof.
  unfold createExecutor.
  destruct (getDefinintionByName _) as [definition|]; [|by destruct debug].
  intros [= <- <-]. by exists definition.
Qed.

Lemma createExecutor_None element descriptor element' :
  createExecutor element descriptor = Return (None, element') →
  getDefinintionByName (name descriptor) = None ∧ debug = true
  ∧ element' = element.
Proof.
  unfold createExecutor.
  destruct (getDefinintionByName _) as [definition|]; [done|].
  destruct debug; [|done]. by intros [= <-].
Qed.

Lemma processAttribute_create element attr e element' :
  processAttribute element attr = Return (Some e, element') → is_create e.
Proof.
  unfold processAttribute. repeat case_match; try done;
    intros (definition & _ & -> & _)%createExecutor_Some; by eexists _, _.
Qed.

Lemma processAttributes_create attrs executors element scanned element' :
  Forall is_create executors →
  processAttributes attrs executors element = Return (scanned, element') →
  Forall is_create scanned.
Proof.
  revert executors element.
  induction attrs as [|attr attrs IH]; intros executors element Hex; simpl.
  - by intros [= <- <-].
  - destruct (processAttribute element attr) as [[executor element1]|]
      eqn:Hattr; [|done]. simpl.
    apply IH. destruct executor as [e|]; [|done].
    apply Forall_app. split; [done|]. constructor; [|done].
    by eapply processAttribute_create.
Qed.

(** Running created executors pushes one binding each, in array order. *)
Lemma exec_created executors target vm :
  Forall is_create executors →
  ∃ vm' new,
    exec (ExNormal executors) target vm = (vm', Return ())
    ∧ _bindings vm' = _bindings vm ++ new
    ∧ created_by <$> new = executors.
Proof.
  intros Hex. revert vm. simpl.
  induction Hex as [|e executors (descriptor & definition & ->) _ IH];
    intros vm; simpl.
  - exists vm, []. by rewrite app_nil_r.
  - unfold mbind at 1, exec_bind at 1. simpl.
    edestruct IH as (vm' & new & -> & Hb & Hnew).
    eexists vm', (_ :: new). split; [done|]. split.
    + rewrite Hb. simpl. by rewrite <- app_assoc.
    + by rewrite fmap_cons, Hnew.
Qed.

Lemma StronglySorted_fmap_inv {A B} (f : A → B) (R : relation B)
  (l : list A) :
  StronglySorted R (f <$> l) → StronglySorted (λ x y, R (f x) (f y)) l.
Proof.
  induction l as [|x l IH]; [constructor|].
  rewrite fmap_cons. intros [Hhd Htl]%StronglySorted_cons.
  constructor; [by apply IH|]. by rewrite Forall_fmap in Hhd.
Qed.

Lemma filter_fmap {A B} (f : A → B) (P : B → Prop)
  `{!∀ y, Decision (P y)} (l : list A) :
  filter P (f <$> l) = f <$> filter (P ∘ f) l.
Proof.
  induction l as [|x l IH]; [done|].
  rewrite fmap_cons, !filter_cons. simpl.
  case_decide; [rewrite fmap_cons|]; by rewrite IH.
Qed.

(** C4. The executors of the non-terminal matches of an element run in
    the order of a stable sort of the scan order by descending priority:
    the bindings they install are those of the scan, a binding of higher
    priority is installed before one of lower priority, and the bindings
    of one priority are installed in attribute scan order. *)
Theorem normal_bindings_run_by_priority element scanned element' :
  processAttributes (attributes element) [] element
    = Return (scanned, element') →
  scanned ≠ [] →
  ∃ executor,
    processNormalBinding element = Return (Some executor, element')
    ∧ ∀ target vm, ∃ vm' new,
        exec executor target vm = (vm', Return ())
        ∧ _bindings vm' = _bindings vm ++ new
        ∧ created_by <$> new ≡ₚ scanned
        ∧ StronglySorted
            (λ b1 b2,
               (priority (definition b2) ≤ priority (definition b1))%Z) new
        ∧ ∀ p,
            created_by <$> filter (λ b, priority (definition b) = p) new
            = filter (λ e, priority_of e = p) scanned.
Proof.
  intros Hscan Hne.
  assert (Forall is_create scanned) as Hcreate.
  { eapply processAttributes_create; [|exact Hscan]. constructor. }
  exists (ExNormal (sort by_priority scanned)). split.
  { unfold processNormalBinding. rewrite Hscan. simpl.
    by destruct scanned. }
  intros target vm.
  assert (Forall is_create (sort by_priority scanned)) as Hsorted.
  { by rewrite sort_perm. }
  destruct (exec_created _ target vm Hsorted) as (vm' & new & Hexec & Hb & Hnew).
  exists vm', new. split_and!; [done|done| | |].
  - rewrite Hnew. apply sort_perm.
  - pose proof (sort_sorted by_priority is_create priority_of
                  by_priority_key scanned Hcreate) as Hs.
    rewrite <- Hnew in Hs. by apply StronglySorted_fmap_inv in Hs.
  - intros p.
    rewrite <- (sort_stable by_priority is_create priority_of
                  by_priority_key p scanned Hcreate).
    rewrite <- Hnew. by rewrite filter_fmap.
Qed.
End normal_binding.

(** ** Terminal detection *)

Section terminal_binding.
Context `{Env}.

Lemma processTerminalBinding_loop_skip terminals element :
  (∀ t, t ∈ terminals →
        getAttribute element (prefix +:+ t) = None
        ∨ getAttribute element (prefix +:+ t) = Some "") →
  processTerminalBinding_loop terminals element = Return (None, element).
Proof.
  induction terminals as [|t terminals IH]; intros Hskip; simpl; [done|].
  destruct t as [|c t]; [done|].
  destruct (Hskip (String c t)) as [-> | ->]; [left| |];
    apply IH; intros t' Ht'; apply Hskip; by right.
Qed.

Lemma processNormalBinding_not_terminal element executor element' :
  processNormalBinding element = Return (executor, element') →
  is_terminal executor = false.
Proof.
  unfold processNormalBinding.
  destruct (processAttributes _ _ _) as [[executors element1]|]; [|done].
  simpl. by destruct executors; intros [= <- <-].
Qed.

Lemma getAttribute_element element name v :
  getAttribute element name = Some v →
  ∃ u t attrs value ch, element = ElementNode u t attrs value ch ∧ attrs ≠ [].
Proof.
  destruct element as [u t attrs value ch|u s|u k ch]; try done.
  intros Hget. exists u, t, attrs, value, ch. split; [done|].
  by destruct attrs.
Qed.

End terminal_binding.

(** ** Attributes removed by compilation *)

Section removed_attributes.
Context `{Env}.
Implicit Types (element : Node) (a : string * string).

Lemma attributes_removeAttribute element n :
  attributes (removeAttribute element n)
  = filter (λ a, a.1 ≠ n) (attributes element).
Proof. by destruct element. Qed.

Lemma filter_none_removed (attrs : list (string * string)) :
  filter (λ a, a.1 ∉ omap removed_name []) attrs = attrs.
Proof.
  induction attrs as [|a attrs IH]; [done|].
  rewrite filter_cons_True; [by rewrite IH|]. simpl. apply not_elem_of_nil.
Qed.

Lemma filter_removed_app (attrs : list (string * string)) es1 es2 :
  filter (λ a, a.1 ∉ omap removed_name es2)
    (filter (λ a, a.1 ∉ omap removed_name es1) attrs)
  = filter (λ a, a.1 ∉ omap removed_name (es1 ++ es2)) attrs.
Proof.
  rewrite list_filter_filter. apply list_filter_iff. intros a.
  rewrite omap_app, not_elem_of_app. tauto.
Qed.

Lemma createExecutor_attributes element descriptor executor element' :
  createExecutor element descriptor = Return (executor, element') →
  attributes element'
  = filter (λ a, a.1 ∉ omap removed_name (option_list executor))
      (attributes element).
Proof.
  destruct executor as [e|].
  - intros (definition & _ & -> & ->)%createExecutor_Some. simpl.
    destruct (retainAttribute definition); simpl.
    { by rewrite filter_none_removed. }
    destruct element as [u t attrs value ch|u s|u k ch]; simpl; try done.
    apply list_filter_iff. intros a. rewrite list_elem_of_singleton. done.
  - intros (_ & _ & ->)%createExecutor_None. simpl.
    by rewrite filter_none_removed.
Qed.

Lemma processAttribute_attributes element attr executor element' :
  processAttribute element attr = Return (executor, element') →
  attributes element'
  = filter (λ a, a.1 ∉ omap removed_name (option_list executor))
      (attributes element).
Proof.
  unfold processAttribute. repeat case_match;
    try apply createExecutor_attributes.
  intros [= <- <-]. simpl. by rewrite filter_none_removed.
Qed.

Lemma processAttributes_attributes attrs executors element scanned element' :
  processAttributes attrs executors element = Return (scanned, element') →
  ∃ new,
    scanned = executors ++ new
    ∧ attributes element'
      = filter (λ a, a.1 ∉ omap removed_name new) (attributes element).
Proof.
  revert executors element.
  induction attrs as [|attr attrs IH]; intros executors element; simpl.
  - intros [= <- <-]. exists []. by rewrite app_nil_r, filter_none_removed.
  - destruct (processAttribute element attr) as [[executor element1]|]
      eqn:Hattr; [|done]. simpl.
    intros (new & -> & Hattrs)%IH.
    apply processAttribute_attributes in Hattr.
    exists (option_list executor ++ new). split.
    + destruct executor; simpl; [by rewrite <- app_assoc|done].
    + by rewrite Hattrs, Hattr, filter_removed_app.
Qed.

Lemma processNormalBinding_attributes element executor element' :
  processNormalBinding element = Return (executor, element') →
  ∀ a, a ∈ attributes element'
       ↔ a ∈ attributes element ∧ a.1 ∉ omap removed_name (created executor).
Proof.
  unfold processNormalBinding.
  destruct (processAttributes _ _ _) as [[scanned element1]|] eqn:Hscan;
    [|done].
  apply processAttributes_attributes in Hscan as (new & -> & Hattrs).
  simpl. intros Hret a.
  assert (element' = element1
          ∧ ∀ n, n ∈ omap removed_name (created executor)
                 ↔ n ∈ omap removed_name new) as [-> Hsame].
  { destruct new as [|e new]; injection Hret as <- <-; [done|].
    split; [done|]. intros n.
    change (created _) with (sort by_priority (e :: new)).
    rewrite !list_elem_of_omap.
    split; intros (x & Hx & Hn); exists x; split; try done.
    - by rewrite sort_perm in Hx.
    - by rewrite sort_perm. }
  rewrite Hattrs, list_elem_of_filter, Hsame. tauto.
Qed.

Lemma processTerminalBinding_loop_attributes terminals element executor element' :
  processTerminalBinding_loop terminals element = Return (executor, element') →
  attributes element'
  = filter (λ a, a.1 ∉ omap removed_name (option_list executor))
      (attributes element).
Proof.
  induction terminals as [|t terminals IH]; simpl.
  - intros [= <- <-]. simpl. by rewrite filter_none_removed.
  - destruct t as [|c t].
    { intros [= <- <-]. simpl. by rewrite filter_none_removed. }
    destruct (getAttribute _ _) as [[|c' e]|]; try done.
    apply createExecutor_attributes.
Qed.

Lemma processTerminalBinding_loop_create terminals element e element' :
  processTerminalBinding_loop terminals element = Return (Some e, element') →
  is_create e.
Proof.
  induction terminals as [|t terminals IH]; simpl; [done|].
  destruct t as [|c t]; [done|].
  destruct (getAttribute _ _) as [[|c' e']|]; try done.
  intros (definition & _ & -> & _)%createExecutor_Some. by eexists _, _.
Qed.
End removed_attributes.

Section compileElement_attributes.
Context `{Env}.

Lemma prefix_append (p s : string) : String.prefix p (p +:+ s) = true.
Proof.
  induction p as [|c p IH]; simpl; [by destruct s|].
  by destruct (ascii_dec c c).
Qed.

Lemma string_indexOf_prefixed (p s : string) :
  string_indexOf (p +:+ s) p = 0%Z.
Proof.
  unfold string_indexOf.
  pose proof (prefix_append p s) as Hp.
  destruct (p +:+ s) as [|c s'] eqn:Heq.
  - by destruct p.
  - cbn [String.index]. by rewrite Hp.
Qed.

Lemma removed_name_prefixed (es : list Executor) (n : string) :
  n ∈ omap removed_name es → string_indexOf n prefix = 0%Z.
Proof.
  intros (e & _ & He)%list_elem_of_omap.
  destruct e as [descriptor definition| | |]; try done. simpl in He.
  destruct (retainAttribute definition); [done|].
  injection He as <-. apply string_indexOf_prefixed.
Qed.

Lemma created_textarea e :
  is_create e → created (Some (ExTextarea (Some e))) = created (Some e).
Proof. by intros (? & ? & ->). Qed.

(** The attributes compilation leaves on an element. *)
Lemma compileElement_attributes element executor element' :
  compileElement element = Return (executor, element') →
  ∀ a, a ∈ attributes element'
       ↔ a ∈ attributes element ∧ a.1 ∉ omap removed_name (created executor).
Proof.
  unfold compileElement.
  destruct (hasAttributes element) eqn:Hattrs.
  - destruct (processTerminalBinding element) as [[terminal element1]|]
      eqn:Hterminal; [|done].
    cbn [mbind completion_bind].
    destruct terminal as [t|].
    + pose proof (processTerminalBinding_loop_create _ _ _ _ Hterminal)
        as Hcreate.
      apply processTerminalBinding_loop_attributes in Hterminal.
      cbn [mbind completion_bind mret completion_ret].
      intros Hret a.
      assert (element' = element1 ∧ created executor = [t]) as [-> ->].
      { case_bool_decide; injection Hret as <- <-.
        - split; [done|]. rewrite created_textarea by done.
          by destruct Hcreate as (? & ? & ->).
        - split; [done|]. by destruct Hcreate as (? & ? & ->). }
      rewrite Hterminal, list_elem_of_filter. simpl. tauto.
    + apply processTerminalBinding_loop_attributes in Hterminal.
      simpl in Hterminal. rewrite filter_none_removed in Hterminal.
      destruct (processNormalBinding element1) as [[normal element2]|]
        eqn:Hnormal; [|done].
      pose proof (processNormalBinding_attributes _ _ _ Hnormal) as Hn.
      cbn [mbind completion_bind mret completion_ret].
      intros Hret a.
      assert (element' = element2 ∧ created executor = created normal)
        as [-> ->].
      { unfold processNormalBinding in Hnormal.
        destruct (processAttributes _ _ _) as [[scanned el]|]; [|done].
        simpl in Hnormal.
        case_bool_decide; injection Hret as <- <-; (split; [done|]);
          [|done].
        by destruct scanned; injection Hnormal as <- <-. }
      rewrite Hn, Hterminal. tauto.
  - cbn [mbind completion_bind mret completion_ret].
    intros Hret a.
    assert (element' = element ∧ created executor = []) as [-> ->].
    { by case_bool_decide; injection Hret as <- <-. }
    simpl. rewrite elem_of_nil. tauto.
Qed.

(** C8 (amended). Compilation removes from an element exactly the
    attributes named prefix + name for the descriptors it resolved with
    a definition that does not set [retainAttribute]; every other
    attribute stays, among them the attribute that triggers an
    interpolation match, whose name does not carry the prefix. *)
Theorem compilation_removes_prefixed_attributes element executor element' :
  compileElement element = Return (executor, element') →
  (∀ a, a ∈ attributes element'
        ↔ a ∈ attributes element
          ∧ ¬ ∃ descriptor definition,
                ExCreate descriptor definition ∈ created executor
                ∧ retainAttribute definition = false
                ∧ a.1 = prefix +:+ name descriptor)
  ∧ (∀ a, a ∈ attributes element →
          string_indexOf a.1 prefix = (-1)%Z →
          a ∈ attributes element').
Proof.
  intros Hcompile.
  pose proof (compileElement_attributes _ _ _ Hcompile) as Hattrs.
  split.
  - intros a. rewrite Hattrs. apply and_iff_compat_l.
    rewrite list_elem_of_omap. split.
    + intros Hnot (descriptor & definition & Hin & Hretain & Hname).
      apply Hnot. exists (ExCreate descriptor definition).
      split; [done|]. simpl. by rewrite Hretain, Hname.
    + intros Hnot (e & Hin & He). apply Hnot.
      destruct e as [descriptor definition| | |]; try done. simpl in He.
      exists descriptor, definition.
      destruct (retainAttribute definition); [done|].
      by injection He as <-.
  - intros a Hin Hindex. apply Hattrs. split; [done|].
    intros Hrem%removed_name_prefixed. lia.
Qed.
End compileElement_attributes.

(** ** Static subtrees *)

Section static_subtree.
Context `{Env}.

Lemma inert_ret : inert (mret ()).
Proof. intros vm. by exists vm. Qed.

Lemma inert_effect e : inert (effect e).
Proof. intros vm. by eexists. Qed.

Lemma inert_bind (m : Exec unit) (k : Exec unit) :
  inert m → inert k → inert (m;; k).
Proof.
  intros Hm Hk vm. unfold mbind, exec_bind.
  destruct (Hm vm) as (vm1 & -> & Hb1).
  destruct (Hk vm1) as (vm2 & -> & Hb2).
  exists vm2. split; [done|]. by rewrite Hb2.
Qed.

Lemma inert_forEachIndexed {A B} (f : A → B → Exec unit) slots nodes :
  Forall2 (λ slot node, inert (f slot node)) slots nodes →
  inert (forEachIndexed f slots nodes).
Proof.
  induction 1 as [|slot node slots nodes Hf _ IH]; simpl.
  - apply inert_ret.
  - by apply inert_bind.
Qed.

Lemma getNamedItem_Some attrs n v :
  getNamedItem attrs n = Some v → (n, v) ∈ attrs.
Proof.
  induction attrs as [|[n' v'] attrs IH]; simpl; [done|].
  case_decide as Hn.
  - intros [= ->]. subst n'. left.
  - intros Hget. right. by apply IH.
Qed.

Lemma static_attribute_name attrs n v :
  forallb static_attribute attrs = true → (n, v) ∈ attrs →
  string_indexOf n prefix = (-1)%Z ∧ hasInterpolation v = false.
Proof.
  rewrite forallb_forall. intros Hstatic Hin%list_elem_of_In.
  specialize (Hstatic _ Hin). unfold static_attribute in Hstatic.
  apply andb_true_iff in Hstatic as [Hn Hv]. simpl in *.
  apply bool_decide_eq_true in Hn. by apply negb_true_iff in Hv.
Qed.

Lemma static_processAttributes attrs executors element :
  forallb static_attribute attrs = true →
  processAttributes attrs executors element = Return (executors, element).
Proof.
  induction attrs as [|[n v] attrs IH]; simpl; [done|].
  intros [Hattr Hrest]%andb_true_iff.
  unfold static_attribute in Hattr. simpl in Hattr.
  apply andb_true_iff in Hattr as [Hn%bool_decide_eq_true Hv%negb_true_iff].
  unfold processAttribute. simpl. rewrite Hn, Hv.
  rewrite bool_decide_eq_false_2 by lia. simpl. by apply IH.
Qed.

Lemma static_processTerminalBinding element :
  forallb static_attribute (attributes element) = true →
  processTerminalBinding element = Return (None, element).
Proof.
  intros Hstatic. apply processTerminalBinding_loop_skip. intros t _. left.
  destruct (getAttribute element (prefix +:+ t)) as [v|] eqn:Hget; [|done].
  apply getNamedItem_Some in Hget.
  destruct (static_attribute_name _ _ _ Hstatic Hget) as [Hn _].
  rewrite string_indexOf_prefixed in Hn. lia.
Qed.

Lemma static_compileElement element :
  forallb static_attribute (attributes element) = true →
  compileElement element
  = Return (if bool_decide (tagName element = Some "TEXTAREA")
            then Some (ExTextarea None) else None, element).
Proof.
  intros Hstatic. unfold compileElement.
  destruct (hasAttributes element).
  - rewrite static_processTerminalBinding by done. simpl.
    unfold processNormalBinding.
    rewrite static_processAttributes by done. simpl.
    by case_bool_decide.
  - simpl. by case_bool_decide.
Qed.

(** The unit of a static node, if any, only rewrites a textarea value. *)
Lemma static_compileNode node :
  static node = true →
  ∃ executor,
    compileNode node = Return (executor, node)
    ∧ is_terminal executor = false
    ∧ inert (match executor with
             | Some e => exec e (Single node)
             | None => mret ()
             end).
Proof.
  destruct node as [u t attrs v ch|u s|u k ch]; simpl; intros Hstatic.
  - apply andb_true_iff in Hstatic as [Hattrs _].
    unfold compileNode. simpl. case_bool_decide.
    + exists None. split_and!; [done|done|apply inert_ret].
    + simpl. rewrite (static_compileElement (ElementNode u t attrs v ch))
        by done.
      simpl. case_bool_decide.
      * eexists. split_and!; [done|done|]. simpl.
        apply inert_bind; [apply inert_effect|apply inert_ret].
      * exists None. split_and!; [done|done|apply inert_ret].
  - unfold compileNode, compileTextNode. simpl. rewrite Hstatic.
    exists None. split_and!; [done|done|apply inert_ret].
  - unfold compileNode. exists None.
    split_and!; [by destruct k|done|apply inert_ret].
Qed.

Lemma static_forEachNode nodes :
  Forall (λ node, static node = true →
            ∃ entry, compileEntry node = Return (entry, node)
                     ∧ inert (execPair entry node)) nodes →
  forallb static nodes = true →
  ∃ entries,
    forEachNode compileEntry nodes = Return (entries, nodes)
    ∧ Forall2 (λ entry node, inert (execPair entry node)) entries nodes.
Proof.
  induction 1 as [|node nodes Hnode _ IH]; simpl.
  - intros _. exists []. split; [done|constructor].
  - intros [Hs Hrest]%andb_true_iff.
    destruct (Hnode Hs) as (entry & -> & Hinert).
    destruct (IH Hrest) as (entries & -> & Hall).
    exists (entry :: entries). split; [done|]. by constructor.
Qed.

Lemma inert_execNodeList entries nodes :
  Forall2 (λ entry node, inert (execPair entry node)) entries nodes →
  inert (match combineExecutors entries with
         | Some c => execNodeList c nodes
         | None => mret ()
         end).
Proof.
  intros Hall. unfold combineExecutors.
  case_bool_decide; [|apply inert_ret]. simpl.
  rewrite bool_decide_eq_false_2.
  2: { apply Forall2_length in Hall. lia. }
  apply inert_forEachIndexed.
  eapply Forall2_impl; [exact Hall|]. by intros [e c] node.
Qed.

Lemma static_compileEntry node :
  static node = true →
  ∃ entry, compileEntry node = Return (entry, node)
           ∧ inert (execPair entry node).
Proof.
  induction node as [u t attrs v ch IH|u s|u k ch IH] using Node_nested_ind;
    intros Hstatic.
  - destruct (static_compileNode _ Hstatic) as (executor & Hc & Hnt & Hinert).
    cbn [compileEntry]. rewrite Hc. cbn [mbind completion_bind].
    rewrite Hnt. cbn [negb andb].
    simpl in Hstatic. apply andb_true_iff in Hstatic as [_ Hch].
    destruct (static_forEachNode ch IH Hch) as (entries & Hentries & Hall).
    destruct ch as [|n ch].
    + eexists. split; [done|]. apply inert_bind; [done|apply inert_ret].
    + cbn [hasChildNodes childNodes]. rewrite Hentries.
      eexists. split; [done|].
      apply inert_bind; [done|]. by apply inert_execNodeList.
  - destruct (static_compileNode _ Hstatic) as (executor & Hc & Hnt & Hinert).
    cbn [compileEntry]. rewrite Hc. cbn [mbind completion_bind].
    rewrite Hnt. eexists. split; [done|].
    apply inert_bind; [done|apply inert_ret].
  - destruct (static_compileNode _ Hstatic) as (executor & Hc & Hnt & Hinert).
    cbn [compileEntry]. rewrite Hc. cbn [mbind completion_bind].
    rewrite Hnt. cbn [negb andb]. simpl in Hstatic.
    destruct (static_forEachNode ch IH Hstatic) as (entries & Hentries & Hall).
    destruct ch as [|n ch].
    + eexists. split; [done|]. apply inert_bind; [done|apply inert_ret].
    + cbn [hasChildNodes childNodes]. rewrite Hentries.
      eexists. split; [done|].
      apply inert_bind; [done|]. by apply inert_execNodeList.
Qed.
End static_subtree.

Section static_program.
Context `{Env}.

Lemma dispose_nothing vm : _bindings (dispose {| bindingList := [] |} vm) = _bindings vm.
Proof. unfold dispose. simpl. apply splice_none. Qed.

Lemma run_inert program nodes node :
  target_childNodes (Single node) = Some nodes →
  inert (match executor program with
         | Some x => call x (Single node)
         | None => mret ()
         end) →
  inert (match childExecutor program with
         | Some c => execNodeList c nodes
         | None => mret ()
         end) →
  ∀ vm, ∃ vm' d,
    run program (Single node) vm = (vm', Return d)
    ∧ _bindings vm' = _bindings vm
    ∧ bindingList d = [].
Proof.
  intros Hnodes Hnode Hchild vm. unfold run. rewrite Hnodes.
  unfold mbind at 1, exec_bind at 1, get_bindings at 1.
  unfold mbind at 1, exec_bind at 1.
  destruct (Hnode vm) as (vm1 & -> & Hb1).
  unfold mbind at 1, exec_bind at 1.
  assert (∃ vm2, (match childExecutor program with
                  | Some c => execNodeList c nodes
                  | None => mret ()
                  end : Exec unit) vm1 = (vm2, Return ())
                 ∧ _bindings vm2 = _bindings vm1) as (vm2 & Hrun2 & Hb2).
  { apply Hchild. }
  destruct (childExecutor program) as [c|]; rewrite Hrun2;
    (eexists _, _; split; [done|]; simpl; split; [congruence|];
     unfold slice; rewrite Hb2, Hb1; apply drop_all).
Qed.

(** C9 (amended). Compiling a static subtree returns a binding program
    and leaves the subtree as it was; executing the program against the
    subtree returns, installs no binding, the slice of owned bindings is
    empty, and the disposer leaves every ledger unchanged. *)
Theorem static_subtree_installs_nothing node :
  static node = true →
  ∃ program,
    compile (Single node) = Return (program, Single node)
    ∧ ∀ vm, ∃ vm' d,
        run program (Single node) vm = (vm', Return d)
        ∧ _bindings vm' = _bindings vm
        ∧ bindingList d = []
        ∧ ∀ vm2, _bindings (dispose d vm2) = _bindings vm2.
Proof.
  intros Hstatic.
  assert (∃ unit,
            (if bool_decide (nodeType node = 11%Z) then mret (None, node)
             else compileNode node) = Return (unit, node)
            ∧ is_terminal unit = false
            ∧ inert (match unit with
                     | Some e => exec e (Single node)
                     | None => mret ()
                     end)) as (unit & Hc & Hnt & Hinert).
  { case_bool_decide; [|by apply static_compileNode].
    exists None. split_and!; [done|done|apply inert_ret]. }
  assert (∃ entries,
            forEachNode compileEntry (childNodes node)
            = Return (entries, childNodes node)
            ∧ Forall2 (λ entry n, inert (execPair entry n))
                entries (childNodes node)) as (entries & Hentries & Hall).
  { apply static_forEachNode.
    - apply Forall_forall. intros n _. apply static_compileEntry.
    - destruct node as [u t attrs v ch|u s|u k ch]; simpl in *; try done.
      by apply andb_true_iff in Hstatic as [_ Hch]. }
  assert (setChildNodes node (childNodes node) = node) as Hset.
  { by destruct node. }
  assert (∀ program,
            executor program = OnNode <$> unit →
            childExecutor program = None
            ∨ childExecutor program = combineExecutors entries →
            ∀ vm, ∃ vm' d,
              run program (Single node) vm = (vm', Return d)
              ∧ _bindings vm' = _bindings vm
              ∧ bindingList d = []
              ∧ ∀ vm2, _bindings (dispose d vm2) = _bindings vm2) as Hrun.
  { intros program He Hce vm.
    destruct (run_inert program (childNodes node) node eq_refl) with (vm := vm)
      as (vm' & d & Hrun & Hb & Hd).
    - rewrite He. by destruct unit.
    - destruct Hce as [-> | ->]; [apply inert_ret|].
      by apply inert_execNodeList.
    - exists vm', d. split_and!; try done.
      intros vm2. destruct d as [owned]. simpl in Hd. subst owned.
      apply dispose_nothing. }
  unfold compile. rewrite Hc. cbn [mbind completion_bind]. rewrite Hnt.
  cbn [negb andb].
  destruct (negb (bool_decide (tagName node = Some "SCRIPT"))
            && hasChildNodes node).
  - unfold compileNodeList. rewrite Hentries. simpl. rewrite Hset.
    eexists. split; [done|]. apply Hrun; [done|by right].
  - eexists. split; [done|]. apply Hrun; [done|by left].
Qed.
End static_program.

(** ** An empty terminal attribute *)

Section empty_terminal.
Context `{Env}.

(** The executor made for an attribute does not depend on the state of
    the element. *)
Lemma createExecutor_executor element element2 descriptor e element' :
  createExecutor element descriptor = Return (Some e, element') →
  ∃ element2', createExecutor element2 descriptor = Return (Some e, element2').
Proof.
  unfold createExecutor.
  destruct (getDefinintionByName _) as [definition|]; [|by destruct debug].
  intros [= <- _]. by eexists.
Qed.

Lemma processAttribute_executor element element2 attr e element' :
  processAttribute element attr = Return (Some e, element') →
  ∃ element2', processAttribute element2 attr = Return (Some e, element2').
Proof.
  unfold processAttribute.
  destruct (_ && _); [apply createExecutor_executor|].
  destruct (hasInterpolation _); [apply createExecutor_executor|done].
Qed.

Lemma processAttributes_members attrs executors element scanned element' :
  processAttributes attrs executors element = Return (scanned, element') →
  ∃ new,
    scanned = executors ++ new
    ∧ ∀ e, e ∈ new ↔
           ∃ a el el', a ∈ attrs
                       ∧ processAttribute el a = Return (Some e, el').
Proof.
  revert executors element.
  induction attrs as [|attr attrs IH]; intros executors element; simpl.
  - intros [= <- <-]. exists []. split; [by rewrite app_nil_r|].
    intros e. split; [by intros ?%elem_of_nil|].
    by intros (a & _ & _ & ?%elem_of_nil & _).
  - destruct (processAttribute element attr) as [[x element1]|] eqn:Hattr;
      [|done]. simpl.
    intros (new & -> & Hnew)%IH.
    exists (option_list x ++ new). split.
    { destruct x; simpl; [by rewrite <- app_assoc|done]. }
    intros e. rewrite elem_of_app, Hnew. split.
    + intros [Hx|(a & el & el' & Ha & He)].
      * destruct x as [e'|]; [|by apply elem_of_nil in Hx].
        apply list_elem_of_singleton in Hx as ->.
        exists attr, element, element1. split; [left|done].
      * exists a, el, el'. split; [by right|done].
    + intros (a & el & el' & [->|Ha]%elem_of_cons & He).
      * left.
        destruct (processAttribute_executor _ element _ _ _ He)
          as [el2 He2].
        rewrite Hattr in He2. injection He2 as -> _. left.
      * right. by exists a, el, el'.
Qed.

Lemma processNormalBinding_members element executor element' :
  processNormalBinding element = Return (executor, element') →
  ∀ e, e ∈ created executor ↔
       ∃ a el el', a ∈ attributes element
                   ∧ processAttribute el a = Return (Some e, el').
Proof.
  unfold processNormalBinding.
  destruct (processAttributes _ _ _) as [[scanned element1]|] eqn:Hscan;
    [|done].
  apply processAttributes_members in Hscan as (new & -> & Hnew).
  simpl. intros Hret e. rewrite <- Hnew.
  destruct new as [|e0 new]; injection Hret as <- <-; [done|].
  change (created _) with (sort by_priority (e0 :: new)).
  by rewrite sort_perm.
Qed.

Lemma substring_suffix (p s : string) :
  string_slice (p +:+ s) (String.length p) = s.
Proof.
  unfold string_slice.
  assert (∀ a b, String.length (a +:+ b)
                 = String.length a + String.length b) as ->.
  { intros a b. induction a as [|c a IH]; [done|].
    change (String c a +:+ b) with (String c (a +:+ b)).
    simpl. by rewrite IH. }
  replace (String.length p + String.length s - String.length p)
    with (String.length s) by lia.
  induction p as [|c p IH].
  - change (String.substring 0 (String.length s) s = s).
    clear. induction s as [|c s IH]; simpl; [done|by rewrite IH].
  - change (String c p +:+ s) with (String c (p +:+ s)). exact IH.
Qed.

(** The attribute of a directive is a directive match of the normal
    scan. *)
Lemma processAttribute_directive element n expression definition :
  getDefinintionByName n = Some definition →
  1 < String.length (prefix +:+ n) →
  ∃ element',
    processAttribute element (prefix +:+ n, expression)
    = Return (Some (ExCreate
                      (extend {| name := n; expression := expression;
                                 attrName := None; isTerminal := None;
                                 isInterpolate := false |} definition)
                      definition), element').
Proof.
  intros Hdef Hlen. unfold processAttribute. cbn [fst snd].
  rewrite string_indexOf_prefixed.
  rewrite bool_decide_eq_true_2 by lia.
  rewrite bool_decide_eq_true_2 by lia. cbn [andb].
  change (Z.to_nat 0 + String.length prefix) with (String.length prefix).
  rewrite substring_suffix. unfold createExecutor. cbn [name].
  rewrite Hdef. by eexists.
Qed.

Lemma forEachNode_each nodes entries nodes' :
  forEachNode compileEntry nodes = Return (entries, nodes') →
  Forall2 (λ entry node, ∃ node', compileEntry node = Return (entry, node'))
    entries nodes.
Proof.
  revert entries nodes'.
  induction nodes as [|node nodes IH]; intros entries nodes'; simpl.
  - intros [= <- _]. constructor.
  - destruct (compileEntry node) as [[entry node1]|] eqn:Hentry; [|done].
    simpl.
    destruct (forEachNode compileEntry nodes) as [[entries1 nodes1]|]; [|done].
    simpl. intros [= <- _]. constructor; [by eexists|by eapply IH].
Qed.

(** With [config.debug] on, compilation does not throw. *)
Lemma createExecutor_debug element descriptor :
  debug = true → ∃ r, createExecutor element descriptor = Return r.
Proof.
  intros Hdebug. unfold createExecutor. rewrite Hdebug.
  destruct (getDefinintionByName _); by eexists.
Qed.

Lemma processAttributes_debug attrs executors element :
  debug = true → ∃ r, processAttributes attrs executors element = Return r.
Proof.
  intros Hdebug. revert executors element.
  induction attrs as [|attr attrs IH]; intros executors element; simpl.
  - by eexists.
  - assert (∃ r, processAttribute element attr = Return r) as [[x el] ->].
    { unfold processAttribute.
      destruct (_ && _); [by apply createExecutor_debug|].
      destruct (hasInterpolation _); [by apply createExecutor_debug|].
      by eexists. }
    simpl. apply IH.
Qed.

Lemma compileElement_debug element :
  debug = true → ∃ r, compileElement element = Return r.
Proof.
  intros Hdebug. unfold compileElement.
  assert (∃ r, (if hasAttributes element then
                  '(terminal, element1) ← processTerminalBinding element;
                  match terminal with
                  | Some _ => mret (terminal, element1)
                  | None => processNormalBinding element1
                  end
                else mret (None, element)) = Return r) as [[x el] ->].
  { destruct (hasAttributes element); [|by eexists].
    assert (∃ r, processTerminalBinding element = Return r) as [[t el] ->].
    { unfold processTerminalBinding.
      induction getTerminalBindings as [|n terminals IH]; simpl;
        [by eexists|].
      destruct n; [by eexists|].
      destruct (getAttribute _ _) as [[|c' e]|]; try done.
      by apply createExecutor_debug. }
    simpl. destruct t; [by eexists|].
    unfold processNormalBinding.
    destruct (processAttributes_debug (attributes el) [] el Hdebug)
      as [[scanned el'] ->].
    simpl. destruct scanned; by eexists. }
  simpl. case_bool_decide; by eexists.
Qed.

Lemma compileNode_debug node :
  debug = true → ∃ r, compileNode node = Return r.
Proof.
  intros Hdebug. unfold compileNode.
  destruct (_ && _); [by apply compileElement_debug|].
  case_bool_decide; [|by eexists].
  unfold compileTextNode. destruct (negb _); [by eexists|].
  assert (∃ r, compileTokens node (parseInterpolate (textContent node))
               = Return r) as [executors ->]; [|by eexists].
  induction (parseInterpolate _) as [|[s|x] tokens [r IH]]; simpl.
  - by eexists.
  - rewrite IH. by eexists.
  - destruct (createExecutor_debug node
                {| name := "bind"; expression := x; attrName := None;
                   isTerminal := None; isInterpolate := false |} Hdebug)
      as [[e el] ->].
    simpl. rewrite IH. by eexists.
Qed.

Lemma forEachNode_debug nodes :
  Forall (λ node, ∃ r, compileEntry node = Return r) nodes →
  ∃ r, forEachNode compileEntry nodes = Return r.
Proof.
  induction 1 as [|node nodes [[entry node'] Hnode] _ [[entries ns] IH]];
    simpl; [by eexists|].
  rewrite Hnode. simpl. rewrite IH. by eexists.
Qed.

Lemma compileEntry_debug node :
  debug = true → ∃ r, compileEntry node = Return r.
Proof.
  intros Hdebug.
  induction node as [u t attrs v ch IH|u s|u k ch IH] using Node_nested_ind;
    cbn [compileEntry];
    match goal with
    | |- context [compileNode ?n] =>
        destruct (compileNode_debug n Hdebug) as [[executor n1] ->]
    end;
    cbn [mbind completion_bind].
  - destruct (_ && _); [|by eexists].
    destruct (forEachNode_debug ch IH) as [[entries ch'] ->]. by eexists.
  - destruct (_ && _); by eexists.
  - destruct (_ && _); [|by eexists].
    destruct (forEachNode_debug ch IH) as [[entries ch'] ->]. by eexists.
Qed.

Lemma compile_debug target :
  debug = true → ∃ r, compile target = Return r.
Proof.
  intros Hdebug.
  assert (∀ nodes, ∃ r, compileNodeList nodes = Return r) as Hlist.
  { intros nodes. unfold compileNodeList.
    destruct (forEachNode_debug nodes) as [[entries ns] ->]; [|by eexists].
    apply Forall_forall. intros node _. by apply compileEntry_debug. }
  destruct target as [n|u nodes]; cbn [compile].
  - assert (∃ r, (if bool_decide (nodeType n = 11%Z) then mret (None, n)
                  else compileNode n) = Return r) as [[e n1] ->].
    { case_bool_decide; [by eexists|by apply compileNode_debug]. }
    cbn [mbind completion_bind]. destruct (_ && _); [|by eexists].
    destruct (Hlist (childNodes n)) as [[c ch'] ->]. by eexists.
  - destruct (Hlist nodes) as [[c ns] ->]. by eexists.
Qed.

(** C10. An element with a terminal directive attribute whose value is
    the empty string, and no terminal attribute with another value:
    terminal detection matches nothing and leaves the element as it is.
    The unit [compileElement] returns is then not terminal, and its
    executors are those the normal scan makes of the attributes of the
    element, one attribute at a time; the empty attribute itself is among
    them as a directive match of the normal scan when its directive is
    defined. The children are compiled, each by [compileEntry], into the
    child executor, both when the element is a child of a compiled node
    and when it is the target of [compile]; with [config.debug] on,
    [compile] returns. *)
Theorem empty_terminal_attribute_is_skipped element name :
  name ∈ getTerminalBindings →
  getAttribute element (prefix +:+ name) = Some "" →
  (∀ t, t ∈ getTerminalBindings →
        getAttribute element (prefix +:+ t) = None
        ∨ getAttribute element (prefix +:+ t) = Some "") →
  processTerminalBinding element = Return (None, element)
  ∧ (∀ executor element',
       compileElement element = Return (executor, element') →
       is_terminal executor = false
       ∧ (∀ e, e ∈ created executor ↔
               ∃ a el el', a ∈ attributes element
                           ∧ processAttribute el a = Return (Some e, el'))
       ∧ (∀ definition,
            getDefinintionByName name = Some definition →
            1 < String.length (prefix +:+ name) →
            ExCreate
              (extend {| name := name; expression := ""; attrName := None;
                         isTerminal := None; isInterpolate := false |}
                 definition) definition
            ∈ created executor))
  ∧ (tagName element ≠ Some "SCRIPT" →
     ∀ entry element',
       compileEntry element = Return (entry, element') →
       ∃ element1 entries,
         compileElement element = Return (entry.1, element1)
         ∧ entry.2 = combineExecutors entries
         ∧ Forall2
             (λ en child, ∃ child', compileEntry child = Return (en, child'))
             entries (childNodes element))
  ∧ (tagName element ≠ Some "SCRIPT" →
     ∀ program target',
       compile (Single element) = Return (program, target') →
       ∃ unit element1 entries,
         compileElement element = Return (unit, element1)
         ∧ program = {| executor := OnNode <$> unit;
                        childExecutor := combineExecutors entries |}
         ∧ Forall2
             (λ en child, ∃ child', compileEntry child = Return (en, child'))
             entries (childNodes element))
  ∧ (debug = true →
     ∃ program target', compile (Single element) = Return (program, target')).
Proof.
  intros Hname Hempty Hskip.
  assert (processTerminalBinding element = Return (None, element)) as Hterminal.
  { by apply processTerminalBinding_loop_skip. }
  pose proof (getNamedItem_Some _ _ _ Hempty) as Hattr.
  destruct (getAttribute_element _ _ _ Hempty)
    as (u & t & attrs & v & ch & -> & Hattrs).
  assert (∀ unit element',
            compileElement (ElementNode u t attrs v ch)
            = Return (unit, element') →
            ∃ normal,
              processNormalBinding (ElementNode u t attrs v ch)
              = Return (normal, element')
              ∧ created unit = created normal
              ∧ is_terminal unit = false) as Hnormal.
  { intros unit element'. unfold compileElement, hasAttributes.
    simpl attributes. destruct attrs as [|attr attrs]; [done|].
    rewrite Hterminal. cbn [mbind completion_bind].
    destruct (processNormalBinding _) as [[normal element1]|] eqn:Hn;
      [|done].
    cbn [mbind completion_bind mret completion_ret].
    pose proof (processNormalBinding_not_terminal _ _ _ Hn) as Hnot.
    intros Hret. exists normal.
    unfold processNormalBinding in Hn.
    destruct (processAttributes _ _ _) as [[scanned el]|]; [|done].
    simpl in Hn.
    case_bool_decide; injection Hret as <- <-; (split; [done|]);
      [|by split].
    split; [|done]. by destruct scanned; injection Hn as <- <-. }
  split_and!.
  - done.
  - intros unit element' Hcompile.
    destruct (Hnormal _ _ Hcompile) as (normal & Hn & Hcreated & Hnot).
    pose proof (processNormalBinding_members _ _ _ Hn) as Hmembers.
    split_and!; [done| |].
    + intros e. by rewrite Hcreated, Hmembers.
    + intros definition Hdef Hlen. rewrite Hcreated. apply Hmembers.
      destruct (processAttribute_directive (ElementNode u t attrs v ch)
                  name "" definition Hdef Hlen) as [el' Hdirective].
      by exists (prefix +:+ name, ""), (ElementNode u t attrs v ch), el'.
  - intros Hscript entry element'. simpl in Hscript.
    cbn [compileEntry]. unfold compileNode. cbn [nodeType tagName].
    rewrite bool_decide_eq_true_2 by done.
    rewrite (bool_decide_eq_false_2 (Some t = Some "SCRIPT")) by done.
    cbn [negb andb].
    destruct (compileElement _) as [[unit element1]|e] eqn:Hcompile;
      [|done].
    destruct (Hnormal _ _ eq_refl) as (_ & _ & _ & Hnot).
    cbn [mbind completion_bind]. rewrite Hnot. cbn [negb andb].
    destruct (hasChildNodes _) eqn:Hhas.
    + cbn [childNodes].
      destruct (forEachNode compileEntry ch) as [[entries ch']|] eqn:Hch;
        [|done].
      cbn [mbind completion_bind mret completion_ret].
      intros [= <- <-]. exists element1, entries.
      split_and!; [done..|]. by eapply forEachNode_each.
    + intros [= <- <-]. exists element1, []. split_and!; [done..|].
      cbn [childNodes]. destruct ch; [constructor|by compute in Hhas].
  - intros Hscript program target'. simpl in Hscript.
    cbn [compile nodeType].
    rewrite (bool_decide_eq_false_2 (1 = 11)%Z) by done.
    unfold compileNode. cbn [nodeType tagName].
    rewrite (bool_decide_eq_true_2 (1 = 1)%Z) by done.
    rewrite (bool_decide_eq_false_2 (Some t = Some "SCRIPT")) by done.
    cbn [negb andb].
    destruct (compileElement _) as [[unit element1]|e] eqn:Hcompile;
      [|done].
    destruct (Hnormal _ _ eq_refl) as (_ & _ & _ & Hnot).
    cbn [mbind completion_bind]. rewrite Hnot. cbn [negb andb].
    destruct (hasChildNodes _) eqn:Hhas.
    + cbn [childNodes]. unfold compileNodeList.
      destruct (forEachNode compileEntry ch) as [[entries ch']|] eqn:Hch;
        [|done].
      cbn [mbind completion_bind mret completion_ret].
      intros [= <- <-]. exists unit, element1, entries.
      split_and!; [done..|]. by eapply forEachNode_each.
    + intros [= <- <-]. exists unit, element1, []. split_and!; [done..|].
      cbn [childNodes]. destruct ch; [constructor|by compute in Hhas].
  - intros Hdebug. destruct (compile_debug (Single (ElementNode u t attrs v ch))
                               Hdebug) as [[program target'] ->].
    by eexists _, _.
Qed.
End empty_terminal.

(** ** Data resolution *)

Section data_resolution.
Import Promise.


Lemma quiet_refl r : quiet r r.
Proof. done. Qed.















(** *** Promises as data resolution leaves them *)

Lemma get_set promise q o r :
  get q (set promise o r) = if decide (q = promise) then o else get q r.
Proof.
  unfold get, set. simpl. case_decide as Hq.
  - subst. by rewrite lookup_insert_eq.
  - by rewrite lookup_insert_ne.
Qed.

Lemma get_newPromise q r :
  q ≠ next r → get q (newPromise r).1 = get q r.
Proof. intros Hq. unfold get, newPromise. simpl. by rewrite lookup_insert_ne. Qed.

Lemma get_new r : get (next r) (newPromise r).1 = pending.
Proof. unfold get, newPromise. simpl. by rewrite lookup_insert_eq. Qed.

Lemma then_pending this onF onR r :
  _state (get this r) = PENDING →
  then_ this onF onR r
  = (subscribe this (next r) onF onR (newPromise r).1, next r).
Proof. intros Hp. unfold then_. rewrite Hp. by destruct onF, onR. Qed.

Lemma get_publish promise value state r :
  get promise (publish promise value state r)
  = {| _state := state; _value := value;
       _listeners := _listeners (get promise r) |}.
Proof.
  unfold publish, nextTick, set, get at 1. simpl.
  by rewrite lookup_insert_eq.
Qed.




















(** A data function that settles the future of another property while it
    runs: on return both proxies are installed and nothing is assigned;
    the timers then assign both values. *)
Lemma eager_data_is_assigned_later :
  let r := (resolveData (Some Demo.eagerData) Demo.twoFutures).1 in
  proxied r = ["a"; "b"]
  ∧ assigned r = []
  ∧ assigned (steps [Tick; Tick; Tick; Tick] r)
    = [("a", Plain (Number 10)); ("b", Plain (Number 20))].
Proof. by vm_compute. Qed.
End data_resolution.

(** ** Terminal directives, unresolved names and mounting on the examples *)

Section terminal_match.
Context `{Env}.

(** X18. Outside a TEXTAREA the first terminal name whose attribute has a
    truthy value wins: the unit is the one terminal executor, the only
    attribute touched is that of the directive, and with a terminal unit
    the children are not compiled. *)
Lemma terminal_first_match_wins element before t after v definition :
  getTerminalBindings = before ++ t :: after →
  Forall (λ n, n ≠ ""
               ∧ (getAttribute element (prefix +:+ n) = None
                  ∨ getAttribute element (prefix +:+ n) = Some "")) before →
  t ≠ "" → v ≠ "" →
  getAttribute element (prefix +:+ t) = Some v →
  getDefinintionByName t = Some definition →
  tagName element ≠ Some "TEXTAREA" →
  ∃ element',
    compileElement element
    = Return (Some (ExCreate
                      (extend {| name := t; expression := v;
                                 attrName := None; isTerminal := Some true;
                                 isInterpolate := false |} definition)
                      definition), element')
    ∧ (∀ a, a ∈ attributes element' ↔
            a ∈ attributes element
            ∧ (retainAttribute definition = false → a.1 ≠ prefix +:+ t))
    ∧ (def_isTerminal definition ≠ Some false →
       tagName element ≠ Some "SCRIPT" →
       compileEntry element
       = Return ((Some (ExCreate
                          (extend {| name := t; expression := v;
                                     attrName := None;
                                     isTerminal := Some true;
                                     isInterpolate := false |} definition)
                          definition), None), element')).
Proof.
  intros Hterminals Hbefore Ht Hv Hget Hdef Htag.
  set (descriptor := {| name := t; expression := v; attrName := None;
                        isTerminal := Some true; isInterpolate := false |}).
  assert (processTerminalBinding element
          = createExecutor element descriptor) as Hfound.
  { unfold processTerminalBinding. rewrite Hterminals. clear Hterminals.
    induction Hbefore as [|n before [Hn Hskip] _ IH]; simpl.
    - destruct t as [|c t]; [done|]. rewrite Hget.
      by destruct v as [|c' v].
    - destruct n as [|c n]; [done|].
      by destruct Hskip as [-> | ->]. }
  destruct (getAttribute_element _ _ _ Hget)
    as (u & tag & attrs & value & ch & -> & Hattrs).
  eexists. split_and!.
  - unfold compileElement, hasAttributes. simpl attributes.
    destruct attrs as [|attr attrs]; [done|].
    rewrite Hfound. unfold createExecutor. simpl name. rewrite Hdef.
    simpl. by rewrite bool_decide_eq_false_2.
  - intros a. simpl.
    destruct (retainAttribute definition); simpl.
    + split; [by intros ?|by intros [? _]].
    + rewrite list_elem_of_filter. split.
      * intros [Hne Hin]. by split.
      * intros [Hin Hne]. split; [by apply Hne|done].
  - intros Hflag Hscript. cbn [compileEntry]. unfold compileNode.
    cbn [nodeType]. rewrite bool_decide_eq_true_2 by done.
    rewrite (bool_decide_eq_false_2 (tagName _ = Some "SCRIPT")) by done.
    cbn [negb andb].
    unfold compileElement, hasAttributes. simpl attributes.
    destruct attrs as [|attr attrs]; [done|].
    rewrite Hfound. unfold createExecutor. simpl name. rewrite Hdef.
    simpl. rewrite bool_decide_eq_false_2 by done. simpl.
    by destruct (def_isTerminal definition) as [[]|].
Qed.

Lemma createExecutor_unresolved element descriptor :
  getDefinintionByName (name descriptor) = None →
  createExecutor element descriptor
  = if debug then Return (None, element) else Throw TypeError.
Proof. intros Hnone. unfold createExecutor. by rewrite Hnone. Qed.
End terminal_match.

Section examples.
Import Demo.

(** C2, on the textarea of the examples: the terminal directive [if] is
    matched, but the TEXTAREA closure that wraps its executor carries no
    [isTerminal], so the text child is compiled at that level, and
    execution installs a binding for it next to the terminal one. *)
Theorem textarea_terminal_unit_compiles_children :
  ∃ terminal text node,
    @compile (env true) (Single textarea)
    = Return ({| executor := Some (OnNode (ExTextarea (Some terminal)));
                 childExecutor := Some (ExNodeList [(Some text, None)]) |},
              Single node)
    ∧ ex_isTerminal terminal = Some true
    ∧ attributes node = [("drunk-model", "m")]
    ∧ (name ∘ descriptor) <$> _bindings (ran textarea emptyViewModel).1
      = ["if"; "bind"].
Proof. do 3 eexists. by vm_compute. Qed.

(** C5, on the [div] of the examples whose directive is in no registry:
    with [config.debug] off, compilation throws a TypeError; with it on,
    the match is skipped. *)
Theorem unresolved_directive_throws_without_debug :
  @compile (env false) (Single unknown) = Throw TypeError
  ∧ @compile (env true) (Single unknown) = Return (noProgram, Single unknown).
Proof. by vm_compute. Qed.


(** C6, on two nodes of the examples: after component 10 is mounted on
    the card, component 20 is mounted on the paragraph, a node no
    component was mounted on; the mount is aborted and installs
    nothing. *)
Theorem mount_on_unmounted_node_is_aborted :
  let first := @Component.mount (env true) 10 (Single card) emptyWorld in
  let second := @Component.mount (env true) 20 (Single paragraph) first.1 in
  first.2 = Return Component.Mounted
  ∧ (@Component.mount (env true) 20 (Single paragraph) emptyWorld).2
    = Return Component.Mounted
  ∧ second.2 = Return Component.Aborted
  ∧ Component.bindings (Component.instance 20 second.1) = []
  ∧ Component.console second.1 = [Component.MountRejected].
Proof. by vm_compute. Qed.
End examples.

Section mounting.
Context `{Env}.
Import Component.


End mounting.

(** ** The properties on the examples *)

Section witnesses.
Import Demo.


(** The card has the matches [model], [attr] and [class]. *)
Lemma normal_bindings_run_by_priority_witness :
  @processAttributes (env true) (attributes card) [] card
  = Return (cardScan.1, cardScan.2)
  ∧ cardScan.1 ≠ []
  ∧ ∃ executor,
      @processNormalBinding (env true) card
      = Return (Some executor, cardScan.2).
Proof.
  assert (@processAttributes (env true) (attributes card) [] card
          = Return (cardScan.1, cardScan.2)) as Hscan.
  { vm_compute. reflexivity. }
  assert (cardScan.1 ≠ []) as Hne.
  { vm_compute. discriminate. }
  split_and!; [exact Hscan|exact Hne|].
  destruct (@normal_bindings_run_by_priority (env true) _ _ _ Hscan Hne)
    as (executor & Hnormal & _).
  exists executor. exact Hnormal.
Defined.


(** A [div] with an empty [drunk-if], a [drunk-model] and an interpolated
    text: compiled as the target, its unit holds the executors of [if]
    and [model], neither as a terminal match, and its child executor is
    that of the text; the program creates the three bindings. *)
Lemma empty_terminal_attribute_is_skipped_witness :
  let ifDefinition :=
    {| priority := 100; def_isTerminal := Some true;
       retainAttribute := false |} in
  "if" ∈ @getTerminalBindings (env true)
  ∧ getAttribute emptyIf (@prefix (env true) +:+ "if") = Some ""
  ∧ (∀ t, t ∈ @getTerminalBindings (env true) →
          getAttribute emptyIf (@prefix (env true) +:+ t) = None
          ∨ getAttribute emptyIf (@prefix (env true) +:+ t) = Some "")
  ∧ @processTerminalBinding (env true) emptyIf = Return (None, emptyIf)
  ∧ (∃ unit element1 entries,
       @compileElement (env true) emptyIf = Return (unit, element1)
       ∧ is_terminal unit = false
       ∧ ExCreate
           {| name := "if"; expression := ""; attrName := None;
              isTerminal := Some true; isInterpolate := false |}
           ifDefinition
         ∈ created unit
       ∧ (compiled emptyIf).1
         = {| executor := OnNode <$> unit;
              childExecutor := combineExecutors entries |}
       ∧ Forall2
           (λ en child,
              ∃ child', @compileEntry (env true) child = Return (en, child'))
           entries (childNodes emptyIf))
  ∧ (name ∘ descriptor) <$> _bindings (ran emptyIf emptyViewModel).1
    = ["if"; "model"; "bind"].
Proof.
  intros ifDefinition.
  assert ("if" ∈ @getTerminalBindings (env true)) as Hin.
  { simpl. left. }
  assert (getAttribute emptyIf (@prefix (env true) +:+ "if") = Some "")
    as Hempty.
  { vm_compute. reflexivity. }
  assert (∀ t, t ∈ @getTerminalBindings (env true) →
               getAttribute emptyIf (@prefix (env true) +:+ t) = None
               ∨ getAttribute emptyIf (@prefix (env true) +:+ t) = Some "")
    as Hskip.
  { intros t Ht. simpl in Ht.
    apply elem_of_cons in Ht as [-> | Ht]; [right; vm_compute; reflexivity|].
    apply list_elem_of_singleton in Ht as ->. left. vm_compute. reflexivity. }
  destruct (@empty_terminal_attribute_is_skipped (env true) _ _
              Hin Hempty Hskip)
    as (Hterminal & Helement & _ & Htarget & _).
  split_and!; [exact Hin|exact Hempty|exact Hskip|exact Hterminal| |
               vm_compute; reflexivity].
  assert (tagName emptyIf ≠ Some "SCRIPT") as Hscript by discriminate.
  assert (@compile (env true) (Single emptyIf)
          = Return ((compiled emptyIf).1, (compiled emptyIf).2)) as Hcompile.
  { vm_compute. reflexivity. }
  destruct (Htarget Hscript _ _ Hcompile)
    as (unit & element1 & entries & Hunit & Hprogram & Hentries).
  destruct (Helement _ _ Hunit) as (Hnot & _ & Hown).
  exists unit, element1, entries.
  split_and!; [exact Hunit|exact Hnot| |exact Hprogram|exact Hentries].
  apply (Hown ifDefinition); [vm_compute; reflexivity|].
  vm_compute. lia.
Defined.

(** On the card, [id] and [title] stay. *)
Lemma compilation_removes_prefixed_attributes_witness :
  @compileElement (env true) card = Return (cardElement.1, cardElement.2)
  ∧ ∀ a, a ∈ attributes card →
         string_indexOf a.1 (@prefix (env true)) = (-1)%Z →
         a ∈ attributes cardElement.2.
Proof.
  assert (@compileElement (env true) card
          = Return (cardElement.1, cardElement.2)) as Hcompile.
  { vm_compute. reflexivity. }
  split; [exact Hcompile|].
  exact (proj2 (@compilation_removes_prefixed_attributes (env true) _ _ _
                  Hcompile)).
Defined.

(** A [div] with a [span] and no attributes is static. *)
Lemma static_subtree_installs_nothing_witness :
  @static (env true) plain = true
  ∧ ∃ program,
      @compile (env true) (Single plain) = Return (program, Single plain).
Proof.
  assert (@static (env true) plain = true) as Hstatic.
  { vm_compute. reflexivity. }
  split; [exact Hstatic|].
  destruct (@static_subtree_installs_nothing (env true) _ Hstatic)
    as (program & Hcompile & _).
  exists program. exact Hcompile.
Defined.

(** C8, as stated, fails on the [div] of the examples with an
    interpolated [title]: the match is resolved as [attr], whose
    definition does not retain the attribute, and [title] stays. *)
Lemma interpolated_attribute_is_not_removed :
  ¬ ∀ element executor element' attr descriptor definition element1,
      @compileElement (env true) element = Return (executor, element') →
      attr ∈ attributes element →
      @processAttribute (env true) element attr
      = Return (Some (ExCreate descriptor definition), element1) →
      ExCreate descriptor definition ∈ created executor →
      retainAttribute definition = false →
      attr ∉ attributes element'.
Proof.
  intros Hclaim.
  eapply (Hclaim titled _ _ ("title", "{{x}}")).
  - vm_compute. reflexivity.
  - left.
  - vm_compute. reflexivity.
  - left.
  - reflexivity.
  - left.
Qed.

(** C9, as stated, fails on the static [div] of the examples with a
    static child: its binding program holds a combined unit for the
    child. *)
Lemma static_subtree_compiles_to_a_unit :
  ¬ ∀ node,
      @static (env true) node = true →
      ∃ target,
        @compile (env true) (Single node) = Return (noProgram, target).
Proof.
  intros Hclaim. destruct (Hclaim plain) as [target Hcompile].
  - vm_compute. reflexivity.
  - vm_compute in Hcompile. discriminate.
Qed.
End witnesses.

(** * Further properties of the code *)

(** ** Global replacement *)

Section replace_lemmas.
Context (matchAt : string → option nat) (replacement : string → string).

Lemma substring_prefix (m rest : string) :
  String.substring 0 (String.length m) (m +:+ rest) = m.
Proof. induction m as [|c m IH]; simpl; [by destruct rest|by rewrite IH]. Qed.

Lemma replace_from_skip (m rest : string) :
  Text.replace_from matchAt replacement (String.length m) (m +:+ rest)
  = Text.replace matchAt replacement rest.
Proof. induction m as [|c m IH]; simpl; [by destruct rest|done]. Qed.

Lemma replace_match (c : ascii) (m rest : string) :
  matchAt (String c (m +:+ rest)) = Some (S (String.length m)) →
  Text.replace matchAt replacement (String c (m +:+ rest))
  = replacement (String c m) +:+ Text.replace matchAt replacement rest.
Proof.
  intros Hm. unfold Text.replace at 1. cbn [Text.replace_from]. rewrite Hm.
  rewrite replace_from_skip. f_equal.
  cbn [String.substring]. by rewrite substring_prefix.
Qed.

Lemma replace_no_match (c : ascii) (s : string) :
  matchAt (String c s) = None →
  Text.replace matchAt replacement (String c s)
  = String c (Text.replace matchAt replacement s).
Proof. intros Hm. unfold Text.replace. cbn [Text.replace_from]. by rewrite Hm. Qed.
End replace_lemmas.

Lemma replace_oneOf class replacement c s :
  Text.replace (Text.oneOf class) replacement (String c s)
  = if class c
    then replacement (String c "") +:+ Text.replace (Text.oneOf class) replacement s
    else String c (Text.replace (Text.oneOf class) replacement s).
Proof.
  destruct (class c) eqn:Hc.
  - apply (replace_match _ _ c "" s). simpl. by rewrite Hc.
  - apply replace_no_match. simpl. by rewrite Hc.
Qed.

Section literal2.
(** The pattern is the literal text of the two characters [a] and [b], and
    the replacement is the text [r]. *)
Context (a b : ascii) (r : string).

Lemma replace_literal_hit s :
  Text.replace (Text.literal (String a (String b ""))) (λ _, r)
    (String a (String b s))
  = r +:+ Text.replace (Text.literal (String a (String b ""))) (λ _, r) s.
Proof.
  apply (replace_match (Text.literal (String a (String b ""))) (λ _, r)
           a (String b "") s).
  unfold Text.literal. simpl.
  destruct (Ascii.ascii_dec a a); [|done].
  destruct (Ascii.ascii_dec b b); [|done]. by destruct s.
Qed.

Lemma replace_literal_other c s :
  c ≠ a →
  Text.replace (Text.literal (String a (String b ""))) (λ _, r) (String c s)
  = String c
      (Text.replace (Text.literal (String a (String b ""))) (λ _, r) s).
Proof.
  intros Hc. apply replace_no_match.
  unfold Text.literal. simpl.
  by destruct (Ascii.ascii_dec a c) as [->|].
Qed.

Lemma replace_literal_miss s :
  (∀ s', s ≠ String b s') →
  Text.replace (Text.literal (String a (String b ""))) (λ _, r) (String a s)
  = String a
      (Text.replace (Text.literal (String a (String b ""))) (λ _, r) s).
Proof.
  intros Hs. apply replace_no_match.
  unfold Text.literal. simpl.
  destruct (Ascii.ascii_dec a a); [|done].
  destruct s as [|d s]; simpl; [done|].
  destruct (Ascii.ascii_dec b d) as [->|]; [|done]. by destruct (Hs s).
Qed.
End literal2.

(** ** filter: escape and unescape *)

Section escaping.
Import filter.

Lemma escaped_cases c :
  escaped c = true →
  c = "<"%char ∨ c = ">"%char ∨ c = "&"%char ∨ c = " "%char
  ∨ c = "034"%char ∨ c = "'"%char.
Proof.
  unfold escaped. rewrite !orb_true_iff, !bool_decide_eq_true. tauto.
Qed.

Lemma escape_cons c s :
  escape (String c s)
  = if escaped c then orUndefined (escapeChars (String c "")) +:+ escape s
    else String c (escape s).
Proof. apply replace_oneOf. Qed.

(** X1. [unescape] undoes [escape], on every text. *)
Theorem unescape_undoes_escape (input : string) :
  unescape (escape input) = input.
Proof.
  induction input as [|c s IH]; [done|].
  rewrite escape_cons. destruct (escaped c) eqn:Hc.
  - unfold unescape in *.
    destruct (escaped_cases c Hc) as [-> | [-> | [-> | [-> | [-> | ->]]]]].
    + rewrite (replace_match _ _ "&" "lt;" (escape s)) by done. by rewrite IH.
    + rewrite (replace_match _ _ "&" "gt;" (escape s)) by done. by rewrite IH.
    + rewrite (replace_match _ _ "&" "amp;" (escape s)) by done. by rewrite IH.
    + rewrite (replace_match _ _ "&" "nbsp;" (escape s)) by done. by rewrite IH.
    + rewrite (replace_match _ _ "&" "quot;" (escape s)) by done. by rewrite IH.
    + rewrite (replace_match _ _ "&" "#x27;" (escape s)) by done. by rewrite IH.
  - unfold unescape in *. rewrite replace_no_match; [by rewrite IH|].
    unfold entity. destruct (escape s); [done|].
    rewrite bool_decide_eq_false_2; [done|].
    intros ->. by vm_compute in Hc.
Qed.

(** X2. The text [escape] returns holds none of the characters it escapes,
    but for the ampersand. *)
Theorem escape_leaves_no_special_character (input : string) :
  Forall (λ c, escaped c = true → c = "&"%char)
    (String.list_ascii_of_string (escape input)).
Proof.
  induction input as [|c s IH]; [by constructor|].
  rewrite escape_cons. destruct (escaped c) eqn:Hc.
  - destruct (escaped_cases c Hc) as [-> | [-> | [-> | [-> | [-> | ->]]]]];
      cbn; repeat (constructor; [by vm_compute|]); done.
  - cbn. constructor; [by rewrite Hc|done].
Qed.
End escaping.

Section entities.
Import filter.

Lemma append_cons (x : ascii) (a b : string) :
  String x a +:+ b = String x (a +:+ b).
Proof. done. Qed.

Lemma append_nil (b : string) : "" +:+ b = b.
Proof. done. Qed.

Lemma append_assoc (a b c : string) : (a +:+ b) +:+ c = a +:+ b +:+ c.
Proof.
  induction a as [|x a IH]; [done|]. rewrite !append_cons. by f_equal.
Qed.

Lemma length_append (a b : string) :
  String.length (a +:+ b) = String.length a + String.length b.
Proof.
  induction a as [|x a IH]; [done|]. rewrite append_cons. simpl. by f_equal.
Qed.

Lemma lazySemicolon_body body rest :
  Forall (λ c, c ≠ ";"%char ∧ Text.lineTerminator c = false)
    (String.list_ascii_of_string body) →
  lazySemicolon (body +:+ String ";" rest) = Some (S (String.length body)).
Proof.
  induction body as [|c body IH]; intros Hbody.
  - done.
  - apply Forall_cons in Hbody as [[Hc Hline] Hbody].
    rewrite append_cons. simpl.
    rewrite bool_decide_eq_false_2 by done. rewrite Hline.
    by rewrite IH.
Qed.

(** X3. An entity [unescape] does not know becomes the text
    [undefined]. *)
Theorem unescape_unknown_entity_is_undefined (body rest : string) :
  body ≠ "" →
  Forall (λ c, c ≠ ";"%char ∧ Text.lineTerminator c = false)
    (String.list_ascii_of_string body) →
  unescapeChars ("&" +:+ body +:+ ";") = None →
  unescape ("&" +:+ body +:+ ";" +:+ rest) = "undefined" +:+ unescape rest.
Proof.
  intros Hne Hbody Hunknown. unfold unescape.
  change ("&" +:+ body +:+ ";" +:+ rest)
    with (String "&" (body +:+ ";" +:+ rest)).
  rewrite <- (append_assoc body ";" rest).
  rewrite replace_match.
  - change (String "&" (body +:+ ";")) with ("&" +:+ body +:+ ";").
    by rewrite Hunknown.
  - rewrite append_assoc. destruct body as [|c body]; [done|].
    apply Forall_cons in Hbody as [[Hc Hline] Hbody].
    rewrite !append_cons, append_nil. simpl. rewrite Hline. simpl.
    rewrite (lazySemicolon_body body rest Hbody). simpl.
    rewrite length_append. simpl. do 3 f_equal. lia.
Qed.
End entities.

(** ** filter: addslashes and stripslashes *)

Section slashes.
Import filter.

Lemma addslashes_slashedText s :
  addslashes s = slashedText true true true true s.
Proof.
  unfold addslashes.
  assert (Text.replace (Text.oneOf slashed) (λ m, "\" +:+ m) s
          = slashedText true true false true s) as ->.
  { induction s as [|c s IH]; [done|].
    rewrite replace_oneOf, IH. simpl. unfold slashed.
    rewrite !andb_true_r, andb_false_r.
    by repeat case_bool_decide; subst. }
  induction s as [|c s IH]; [done|].
  simpl. rewrite !andb_true_r, andb_false_r.
  destruct (bool_decide (c = "'"%char) || bool_decide (c = "034"%char)
            || bool_decide (c = "\"%char)) eqn:Hc.
  - rewrite !append_cons, append_nil, !replace_oneOf, IH.
    rewrite !orb_true_iff, !bool_decide_eq_true in Hc.
    by destruct Hc as [[-> | ->] | ->].
  - destruct (decide (c = "000"%char)) as [->|Hnul].
    + rewrite !append_cons, append_nil, replace_oneOf. simpl.
      by rewrite IH.
    + rewrite (bool_decide_eq_false_2 (c = "000"%char)) by done.
      rewrite !append_cons, append_nil, replace_oneOf.
      rewrite bool_decide_eq_false_2 by done. by rewrite IH.
Qed.

Lemma slashedText_id s : slashedText false false false false s = s.
Proof.
  induction s as [|c s IH]; simpl; [done|].
  rewrite !andb_false_r. simpl. by rewrite IH.
Qed.
End slashes.

Section strip.
Import filter.

Lemma slashedText_head_quote dquote nul backslash s s' :
  slashedText true dquote nul backslash s ≠ String "'" s'.
Proof.
  destruct s as [|c s]; [done|]. simpl. rewrite andb_true_r.
  destruct (decide (c = "'"%char)) as [->|Hc]; [done|].
  rewrite (bool_decide_eq_false_2 (c = "'"%char)) by done. simpl.
  destruct (_ || _); [done|]. destruct (_ && _); [done|].
  rewrite append_cons. congruence.
Qed.

Lemma slashedText_head_dquote quote nul backslash s s' :
  slashedText quote true nul backslash s ≠ String "034" s'.
Proof.
  destruct s as [|c s]; [done|]. simpl. rewrite andb_true_r.
  destruct (decide (c = "034"%char)) as [->|Hc].
  { by rewrite orb_true_r. }
  rewrite (bool_decide_eq_false_2 (c = "034"%char)) by done.
  rewrite orb_false_r.
  destruct (_ || _); [done|]. destruct (_ && _); [done|].
  rewrite append_cons. congruence.
Qed.

Lemma slashedText_head_zero quote dquote nul backslash s s' :
  slashedText quote dquote nul backslash s = String "0" s' →
  ∃ t, s = String "0" t.
Proof.
  destruct s as [|c s]; [done|]. simpl.
  destruct (_ || _); [done|]. destruct (_ && _); [done|].
  rewrite append_cons. intros [= -> _]. by eexists.
Qed.

Ltac slashed_cases c :=
  destruct (decide (c = "'"%char)) as [->|?];
  [|rewrite (bool_decide_eq_false_2 (c = "'"%char)) by done;
    destruct (decide (c = "034"%char)) as [->|?];
    [|rewrite (bool_decide_eq_false_2 (c = "034"%char)) by done;
      destruct (decide (c = "\"%char)) as [->|?];
      [|rewrite (bool_decide_eq_false_2 (c = "\"%char)) by done;
        destruct (decide (c = "000"%char)) as [->|?];
        [|rewrite (bool_decide_eq_false_2 (c = "000"%char)) by done]]]];
  simpl; rewrite ?append_cons, ?append_nil.

Ltac strip_pass head_lemma :=
  repeat first
    [ rewrite replace_literal_hit
    | rewrite replace_literal_other by done
    | rewrite replace_literal_miss by (done || apply head_lemma) ].

Lemma strip_quote s :
  Text.replace (Text.literal "\'") (λ _, "'") (slashedText true true true true s)
  = slashedText false true true true s.
Proof.
  induction s as [|c s IH]; [done|]. simpl.
  slashed_cases c; strip_pass slashedText_head_quote; by rewrite IH.
Qed.

Lemma strip_dquote s :
  Text.replace (Text.literal (String "\" (String "034" "")))
    (λ _, String "034" "") (slashedText false true true true s)
  = slashedText false false true true s.
Proof.
  induction s as [|c s IH]; [done|]. simpl.
  slashed_cases c; strip_pass slashedText_head_dquote; by rewrite IH.
Qed.

Lemma strip_nul s :
  slashZeroFree s = true →
  Text.replace (Text.literal "\0") (λ _, String "000" "")
    (slashedText false false true true s)
  = slashedText false false false true s.
Proof.
  induction s as [|c s IH]; [done|]. intros Hfree.
  cbn [slashZeroFree] in Hfree. apply andb_true_iff in Hfree as [Hc Hfree].
  specialize (IH Hfree). simpl.
  slashed_cases c; strip_pass slashedText_head_quote; try by rewrite IH.
  rewrite replace_literal_miss; [by rewrite IH|].
  intros s' Hs'. apply slashedText_head_zero in Hs' as [t ->].
  done.
Qed.

Lemma strip_backslash s :
  Text.replace (Text.literal "\\") (λ _, "\")
    (slashedText false false false true s)
  = slashedText false false false false s.
Proof.
  induction s as [|c s IH]; [done|]. simpl.
  slashed_cases c; strip_pass slashedText_head_quote; by rewrite IH.
Qed.

(** X4. [stripslashes] undoes [addslashes] on every text in which no
    backslash comes before the digit 0. *)
Theorem stripslashes_undoes_addslashes (input : string) :
  slashZeroFree input = true →
  stripslashes (addslashes input) = input.
Proof.
  intros Hfree. unfold stripslashes.
  rewrite addslashes_slashedText, strip_quote, strip_dquote.
  rewrite strip_nul by done. by rewrite strip_backslash, slashedText_id.
Qed.

End strip.

(** ** filter: truncate and striptags *)

Section truncate.
Import filter.

Lemma length_substring (n : nat) (s : string) :
  n ≤ String.length s → String.length (String.substring 0 n s) = n.
Proof.
  revert n. induction s as [|c s IH]; intros [|n] Hn; simpl in *; try done.
  - lia.
  - rewrite IH; [done|lia].
Qed.

(** X5. A text longer than [length] is cut to [length] characters and the
    tail is added to them. *)
Theorem truncate_adds_the_tail (input : string) (length : Z)
  (tail : option string) :
  (0 ≤ length < Z.of_nat (String.length input))%Z →
  String.length (truncate input length tail)
  = Z.to_nat length + String.length (default "..." tail).
Proof.
  intros Hlen. unfold truncate, Text.slice_to.
  destruct (Z.leb_spec (Z.of_nat (String.length input)) length); [lia|].
  destruct (Z.ltb_spec length 0); [lia|].
  rewrite Z.min_l by lia. rewrite length_append, length_substring; [done|lia].
Qed.
End truncate.

Section striptags.
Import filter.

Lemma untilClose_None s seen :
  untilClose s seen = None ↔
  (seen = false ∧ ∃ s', s = String ">" s') ∨ ¬ closes s.
Proof.
  unfold closes. revert seen. induction s as [|c s IH]; intros seen; simpl.
  - split; [intros _; right; by intros ?%elem_of_nil|done].
  - destruct (decide (c = ">"%char)) as [->|Hc].
    + rewrite bool_decide_eq_true_2 by done. destruct seen.
      * split; [done|]. intros [[? _]|Hno]; [done|].
        destruct Hno. by left.
      * split; [|done]. intros _. left. split; [done|by eexists].
    + rewrite bool_decide_eq_false_2 by done.
      rewrite fmap_None, IH. split.
      * intros [[? _]|Hno]; [done|]. right. by intros [?|?]%elem_of_cons.
      * intros [[_ [s' ?]]|Hno]; [congruence|].
        right. intros ?. apply Hno. by right.
Qed.

Lemma replace_from_closes matchAt k s :
  closes (Text.replace_from matchAt (λ _, "") k s) → closes s.
Proof.
  unfold closes. revert k. induction s as [|c s IH]; intros k; [done|].
  cbn [Text.replace_from]. destruct k as [|k].
  - destruct (matchAt (String c s)) as [[|j]|].
    + simpl. intros [->|?]%elem_of_cons; [by left|right; eauto].
    + rewrite append_nil. intros ?. right; eauto.
    + simpl. intros [->|?]%elem_of_cons; [by left|right; eauto].
  - intros ?. right; eauto.
Qed.

Lemma string_slice_cons c s n :
  string_slice (String c s) (S n) = string_slice s n.
Proof. done. Qed.

Lemma string_slice_all s : string_slice s 0 = s.
Proof.
  unfold string_slice. rewrite Nat.sub_0_r.
  induction s as [|c s IH]; simpl; [done|by rewrite IH].
Qed.

Lemma string_slice_nil n : string_slice "" n = "".
Proof. by destruct n. Qed.

Lemma tag_free_from k s n :
  tag (string_slice (Text.replace_from tag (λ _, "") k s) n) = None.
Proof.
  revert k n. induction s as [|c s IH]; intros k n.
  { simpl. by rewrite string_slice_nil. }
  cbn [Text.replace_from]. destruct k as [|k]; [|apply IH].
  destruct (tag (String c s)) as [[|j]|] eqn:Htag.
  - simpl in Htag. destruct (bool_decide _); [|done].
    by destruct (untilClose s false).
  - rewrite append_nil. apply IH.
  - destruct n as [|n]; [|rewrite string_slice_cons; apply IH].
    rewrite string_slice_all. simpl in *.
    case_bool_decide; [|done]. rewrite fmap_None in *.
    apply untilClose_None. apply untilClose_None in Htag.
    destruct Htag as [[_ [s' ->]]|Hno].
    + left. split; [done|]. cbn [Text.replace_from]. simpl. by eexists.
    + right. intros Hc. apply Hno. by apply replace_from_closes in Hc.
Qed.

(** X6. No tag is left in the text [striptags] returns: the pattern
    matches at none of its positions. *)
Theorem striptags_leaves_no_tag (input : string) (n : nat) :
  tag (string_slice (striptags input) n) = None.
Proof. apply tag_free_from. Qed.
End striptags.

(** ** util *)

Section util_arrays.
Context {A : Type} `{EqDecision A}.
Implicit Types (array pre post : list A) (item : A).

Lemma indexOfItem_absent array item :
  item ∉ array → util.indexOfItem array item = (-1)%Z.
Proof.
  intros Hnot. apply indexOf_absent, Forall_forall. intros y Hy.
  apply bool_decide_eq_false_2. by intros ->.
Qed.

Lemma indexOfItem_first pre item post :
  item ∉ pre →
  util.indexOfItem (pre ++ item :: post) item = Z.of_nat (length pre).
Proof.
  intros Hnot. apply indexOf_found.
  - apply Forall_forall. intros y Hy.
    apply bool_decide_eq_false_2. by intros ->.
  - by apply bool_decide_eq_true_2.
Qed.

(** X9. [addArrayItem] keeps an array free of duplicates, and adds the
    item to its members. *)
Theorem addArrayItem_keeps_items_distinct array item :
  NoDup array →
  NoDup (util.addArrayItem array item)
  ∧ ∀ x, x ∈ util.addArrayItem array item ↔ x ∈ array ∨ x = item.
Proof.
  intros Hdup. unfold util.addArrayItem.
  destruct (decide (item ∈ array)) as [Hin|Hnot].
  - apply list_elem_of_split_l in Hin as (pre & post & -> & Hpre).
    rewrite indexOfItem_first by done.
    destruct (Z.ltb_spec (Z.of_nat (length pre)) 0); [lia|].
    split; [done|]. intros x. split; [by left|].
    intros [?| ->]; [done|]. set_solver.
  - rewrite indexOfItem_absent by done. simpl. split.
    + apply NoDup_app. split_and!; [done| |apply NoDup_singleton].
      intros x Hx ->%list_elem_of_singleton. done.
    + intros x. rewrite elem_of_app, list_elem_of_singleton. done.
Qed.

(** X10. [removeArrayItem] takes out the first occurrence of the item, and
    that one only. *)
Theorem removeArrayItem_removes_first_occurrence pre item post :
  item ∉ pre →
  util.removeArrayItem (pre ++ item :: post) item = pre ++ post.
Proof.
  intros Hpre. unfold util.removeArrayItem.
  rewrite indexOfItem_first by done.
  destruct (Z.ltb_spec (-1) (Z.of_nat (length pre))); [|lia].
  apply (splice_middle pre [item] post).
Qed.

(** X11. An item added to an array that did not have it is taken out again
    by [removeArrayItem], and the array is as before. *)
Theorem removeArrayItem_undoes_addArrayItem array item :
  item ∉ array →
  util.removeArrayItem (util.addArrayItem array item) item = array.
Proof.
  intros Hnot. unfold util.addArrayItem.
  rewrite indexOfItem_absent by done. simpl.
  unfold util.removeArrayItem. rewrite indexOfItem_first by done.
  destruct (Z.ltb_spec (-1) (Z.of_nat (length array))); [|lia].
  etrans; [apply (splice_middle array [item] [])|apply app_nil_r].
Qed.
End util_arrays.

Section util_objects.
Context {V : Type}.
Implicit Types (d o : gmap string V).




End util_objects.

Section camelCase.

Lemma camelCase_plain (c : ascii) (rest : string) :
  c ≠ "-"%char → c ≠ "_"%char →
  util.camelCase (String c rest) = String c (util.camelCase rest).
Proof.
  intros H1 H2. apply replace_no_match. simpl.
  destruct rest; [done|].
  by rewrite !bool_decide_eq_false_2.
Qed.

Lemma camelCase_separator (sep w : ascii) (rest : string) :
  sep = "-"%char ∨ sep = "_"%char → Text.wordChar w = true →
  util.camelCase (String sep (String w rest))
  = String (Text.toUpperCase w) (util.camelCase rest).
Proof.
  intros Hsep Hw.
  unfold util.camelCase.
  rewrite (replace_match _ _ sep (String w "") rest); [done|].
  simpl. rewrite Hw. by destruct Hsep as [-> | ->].
Qed.

(** X13. A separator before a word character is dropped and the character
    is put in upper case; the text before it, which has no separator, is
    kept. *)
Theorem camelCase_capitalizes_after_separator (plain : string)
  (sep w : ascii) (rest : string) :
  Forall (λ c, c ≠ "-"%char ∧ c ≠ "_"%char)
    (String.list_ascii_of_string plain) →
  sep = "-"%char ∨ sep = "_"%char →
  Text.wordChar w = true →
  util.camelCase (plain +:+ String sep (String w rest))
  = plain +:+ String (Text.toUpperCase w) (util.camelCase rest).
Proof.
  intros Hplain Hsep Hw. induction plain as [|c plain IH].
  - by apply camelCase_separator.
  - apply Forall_cons in Hplain as [[H1 H2] Hplain].
    rewrite !append_cons, camelCase_plain by done. by rewrite IH.
Qed.
End camelCase.

(** ** filter: the pipe *)

Section pipe.
Import filter.
Context {V : Type}.
Implicit Types (filterMap : string → option (list V → Completion V))
  (args : list V).

Lemma applyFilters_app filterMap args value
  (first second : list (FilterDef (V:=V))) :
  applyFilters filterMap args value (first ++ second)
  = (v ← applyFilters filterMap args value first;
     applyFilters filterMap args v second).
Proof.
  revert value. induction first as [|def defs IH]; intros value; [done|].
  simpl. destruct (filterMap (name def)) as [method|]; [|done].
  destruct (match param def with Some _ => _ | None => _ end) as [p|e];
    [|done].
  simpl. destruct (method (value :: p)) as [v|e]; [|done]. apply IH.
Qed.

(** X7. Filters and the getters of their parameters may throw. When the
    filters before a definition return and the name of that definition is
    not a function of the filter map, the pipe throws the error of a
    filter that is not found, whatever definitions follow; and a pipe
    that returns has found each of its filters in the map. *)
Theorem pipeFor_throws_on_unknown_filter filterMap args value
  (first : list (FilterDef (V:=V))) def rest v :
  pipeFor value (Some first) filterMap args = Return v →
  filterMap (name def) = None →
  pipeFor value (Some (first ++ def :: rest)) filterMap args = Throw Error
  ∧ Forall (λ def, is_Some (filterMap (name def))) first.
Proof.
  simpl. intros Hfirst Hdef. split.
  - rewrite applyFilters_app, Hfirst. simpl. by rewrite Hdef.
  - clear def rest Hdef. revert value Hfirst.
    induction first as [|def defs IH]; intros value Hfirst; [constructor|].
    simpl in Hfirst.
    destruct (filterMap (name def)) as [method|] eqn:Hdef; [|done].
    constructor; [by rewrite Hdef|].
    destruct (match param def with Some _ => _ | None => _ end) as [p|e];
      [|done].
    simpl in Hfirst. destruct (method (value :: p)) as [v'|e]; [|done].
    by eapply IH.
Qed.

(** X8. The filters of a pipe are applied from left to right, each to the
    value the one before it returned. *)
Theorem pipeFor_chains_filters filterMap args value
  (first second : list (FilterDef (V:=V))) :
  pipeFor value (Some (first ++ second)) filterMap args
  = (v ← pipeFor value (Some first) filterMap args;
     pipeFor v (Some second) filterMap args).
Proof. apply applyFilters_app. Qed.
End pipe.

(** ** A binding program runs on the target it was compiled from *)

Section returns_lemmas.

Lemma returns_ret : returns (mret ()).
Proof. intros vm. by eexists. Qed.

Lemma returns_bind (m k : Exec unit) :
  returns m → returns k → returns (m ;; k).
Proof.
  intros Hm Hk vm. unfold mbind, exec_bind.
  destruct (Hm vm) as [vm1 ->]. apply Hk.
Qed.

Lemma returns_forEach {A} (f : A → Exec unit) arr :
  Forall (λ x, returns (f x)) arr → returns (forEach f arr).
Proof.
  induction 1 as [|x arr Hx _ IH]; simpl; [apply returns_ret|].
  by apply returns_bind.
Qed.

Lemma returns_forEachIndexed {A B} (f : A → B → Exec unit) slots nodes :
  Forall (λ slot, ∀ node, returns (f slot node)) slots →
  returns (forEachIndexed f slots nodes).
Proof.
  intros Hslots. revert nodes.
  induction Hslots as [|slot slots Hslot _ IH]; intros [|node nodes]; simpl;
    try apply returns_ret.
  apply returns_bind; [apply Hslot|apply IH].
Qed.

Lemma returns_forEachIndexed_pairs {A B} (f : A → B → Exec unit) slots nodes :
  Forall2 (λ slot node, returns (f slot node)) slots nodes →
  returns (forEachIndexed f slots nodes).
Proof.
  induction 1 as [|slot node slots nodes Hf _ IH]; simpl;
    [apply returns_ret|]. by apply returns_bind.
Qed.
End returns_lemmas.

Section program_returns.
Context `{Env}.

Lemma exec_returns e : ∀ element, returns (exec e element).
Proof.
  induction e as [descriptor definition|executors IH|origin IH|fragment executors IH]
    using Executor_nested_ind; intros element; simpl.
  - intros vm. by eexists.
  - apply returns_forEach. eapply Forall_impl; [exact IH|]. simpl. auto.
  - apply returns_bind; [intros vm; by eexists|].
    destruct origin as [e|]; [by apply IH|apply returns_ret].
  - intros vm. unfold mbind at 1, exec_bind at 1. simpl.
    apply returns_bind; [|intros vm'; by eexists].
    apply returns_forEachIndexed.
    eapply Forall_impl; [exact IH|]. simpl. intros [e|] He node.
    + by apply He.
    + apply returns_ret.
Qed.

Lemma same_but_attributes_refl node : same_but_attributes node node.
Proof. by destruct node. Qed.

Lemma same_but_attributes_trans n1 n2 n3 :
  same_but_attributes n1 n2 → same_but_attributes n2 n3 →
  same_but_attributes n1 n3.
Proof.
  destruct n1, n2, n3; simpl; try done; try congruence.
  intros (-> & -> & -> & ->) (-> & -> & -> & ->). done.
Qed.

Lemma createExecutor_same element descriptor executor element' :
  createExecutor element descriptor = Return (executor, element') →
  same_but_attributes element element'.
Proof.
  unfold createExecutor. destruct (getDefinintionByName _) as [definition|].
  - intros [= _ <-]. destruct (_ && _); [|apply same_but_attributes_refl].
    by destruct element.
  - destruct debug; [|done]. intros [= _ <-]. apply same_but_attributes_refl.
Qed.

Lemma processTerminalBinding_loop_same terminals element executor element' :
  processTerminalBinding_loop terminals element = Return (executor, element') →
  same_but_attributes element element'.
Proof.
  induction terminals as [|t terminals IH]; simpl.
  - intros [= _ <-]. apply same_but_attributes_refl.
  - destruct t as [|c t].
    { intros [= _ <-]. apply same_but_attributes_refl. }
    destruct (getAttribute _ _) as [[|c' e]|]; try done.
    apply createExecutor_same.
Qed.

Lemma processAttributes_same attrs executors element scanned element' :
  processAttributes attrs executors element = Return (scanned, element') →
  same_but_attributes element element'.
Proof.
  revert executors element.
  induction attrs as [|attr attrs IH]; intros executors element; simpl.
  - intros [= _ <-]. apply same_but_attributes_refl.
  - destruct (processAttribute element attr) as [[executor element1]|]
      eqn:Hattr; [|done]. simpl.
    intros Hrest%IH. eapply same_but_attributes_trans; [|exact Hrest].
    unfold processAttribute in Hattr.
    repeat case_match; try by eapply createExecutor_same.
    injection Hattr as _ <-. apply same_but_attributes_refl.
Qed.

Lemma compileElement_same element executor element' :
  compileElement element = Return (executor, element') →
  same_but_attributes element element'.
Proof.
  unfold compileElement.
  destruct (hasAttributes element).
  - destruct (processTerminalBinding element) as [[terminal element1]|]
      eqn:Hterminal; [|done].
    apply processTerminalBinding_loop_same in Hterminal.
    cbn [mbind completion_bind].
    destruct terminal as [t|].
    + cbn [mbind completion_bind mret completion_ret].
      intros Hret.
      by case_bool_decide; injection Hret as _ <-.
    + unfold processNormalBinding.
      destruct (processAttributes _ _ _) as [[scanned element2]|] eqn:Hscan;
        [|done].
      apply processAttributes_same in Hscan.
      cbn [mbind completion_bind mret completion_ret].
      intros Hret.
      assert (element' = element2) as ->.
      { destruct scanned; simpl in Hret;
          by case_bool_decide; injection Hret as _ <-. }
      by eapply same_but_attributes_trans.
  - cbn [mbind completion_bind mret completion_ret].
    intros Hret. assert (element' = element) as ->.
    { by case_bool_decide; injection Hret as _ <-. }
    apply same_but_attributes_refl.
Qed.

Lemma compileNode_same node executor node' :
  compileNode node = Return (executor, node') →
  same_but_attributes node node'.
Proof.
  unfold compileNode. destruct (_ && _); [apply compileElement_same|].
  case_bool_decide.
  - unfold compileTextNode. destruct (negb _).
    + intros [= _ <-]. apply same_but_attributes_refl.
    + destruct (compileTokens _ _); [|done].
      intros [= _ <-]. apply same_but_attributes_refl.
  - intros [= _ <-]. apply same_but_attributes_refl.
Qed.

Lemma childNodes_setChildNodes node node' ch :
  same_but_attributes node node' → hasChildNodes node = true →
  childNodes (setChildNodes node' ch) = ch.
Proof. by destruct node, node'. Qed.

Lemma execNodeList_returns entries nodes :
  Forall2 entry_returns entries nodes →
  returns (execNodeList (ExNodeList entries) nodes).
Proof.
  intros Hall. cbn [execNodeList].
  rewrite bool_decide_eq_false_2.
  2:{ apply Forall2_length in Hall. lia. }
  apply returns_forEachIndexed_pairs.
  eapply Forall2_impl; [exact Hall|].
  intros [e c] node Hc. simpl in Hc. apply returns_bind.
  - destruct e; [apply exec_returns|apply returns_ret].
  - destruct c; [by apply Hc|apply returns_ret].
Qed.

Lemma forEachNode_returns nodes entries nodes' :
  Forall (λ node, ∀ entry node',
            compileEntry node = Return (entry, node') →
            entry_returns entry node') nodes →
  forEachNode compileEntry nodes = Return (entries, nodes') →
  Forall2 entry_returns entries nodes'.
Proof.
  intros Hall. revert entries nodes'.
  induction Hall as [|node nodes Hnode _ IH]; intros entries nodes'; simpl.
  - intros [= <- <-]. constructor.
  - destruct (compileEntry node) as [[entry node1]|] eqn:Hentry; [|done].
    simpl.
    destruct (forEachNode compileEntry nodes) as [[entries1 nodes1]|]; [|done].
    simpl. intros [= <- <-]. constructor; [by eapply Hnode|by apply IH].
Qed.

Lemma combineExecutors_returns entries nodes c :
  Forall2 entry_returns entries nodes →
  combineExecutors entries = Some c →
  returns (execNodeList c nodes).
Proof.
  unfold combineExecutors. case_bool_decide; [|done].
  intros Hall [= <-]. by apply execNodeList_returns.
Qed.

Lemma compileEntry_returns node : ∀ entry node',
  compileEntry node = Return (entry, node') → entry_returns entry node'.
Proof.
  induction node as [u t attrs v ch IH|u s|u k ch IH] using Node_nested_ind;
    intros entry node'; cbn [compileEntry].
  - destruct (compileNode _) as [[executor n1]|] eqn:Hnode; [|done].
    apply compileNode_same in Hnode. cbn [mbind completion_bind].
    destruct (negb (is_terminal executor) && hasChildNodes _) eqn:Hcond.
    + destruct (forEachNode compileEntry ch) as [[entries ch']|] eqn:Hch;
        [|done].
      cbn [mbind completion_bind mret completion_ret].
      intros [= <- <-] c Hc. simpl in Hc.
      apply andb_true_iff in Hcond as [_ Hhas].
      rewrite (childNodes_setChildNodes _ _ _ Hnode Hhas).
      eapply combineExecutors_returns; [|exact Hc].
      by eapply forEachNode_returns.
    + by intros [= <- <-] c.
  - destruct (compileNode _) as [[executor n1]|] eqn:Hnode; [|done].
    cbn [mbind completion_bind]. rewrite andb_false_r.
    by intros [= <- <-] c.
  - destruct (compileNode _) as [[executor n1]|] eqn:Hnode; [|done].
    apply compileNode_same in Hnode. cbn [mbind completion_bind].
    destruct (negb (is_terminal executor) && hasChildNodes _) eqn:Hcond.
    + destruct (forEachNode compileEntry ch) as [[entries ch']|] eqn:Hch;
        [|done].
      cbn [mbind completion_bind mret completion_ret].
      intros [= <- <-] c Hc. simpl in Hc.
      apply andb_true_iff in Hcond as [_ Hhas].
      rewrite (childNodes_setChildNodes _ _ _ Hnode Hhas).
      eapply combineExecutors_returns; [|exact Hc].
      by eapply forEachNode_returns.
    + by intros [= <- <-] c.
Qed.

Lemma compileNodeList_returns nodes executor nodes' c :
  compileNodeList nodes = Return (executor, nodes') →
  executor = Some c →
  returns (execNodeList c nodes').
Proof.
  unfold compileNodeList.
  destruct (forEachNode compileEntry nodes) as [[entries ns]|] eqn:Hch;
    [|done].
  simpl. intros [= <- <-] Hc.
  eapply combineExecutors_returns; [|exact Hc].
  eapply forEachNode_returns; [|exact Hch].
  apply Forall_forall. intros node _. apply compileEntry_returns.
Qed.

(** X14. The binding program [compile] returns runs to its end on the target
    as compilation left it: it returns a disposer. *)
Theorem program_returns_on_its_target target program target' vm :
  compile target = Return (program, target') →
  ∃ vm' d, run program target' vm = (vm', Return d).
Proof.
  intros Hcompile.
  assert (returns (match executor program with
                   | Some x => call x target'
                   | None => mret ()
                   end : Exec unit)
          ∧ returns (match childExecutor program with
                     | Some c =>
                         match target_childNodes target' with
                         | Some nodes => execNodeList c nodes
                         | None => throw TypeError
                         end
                     | None => mret ()
                     end : Exec unit)) as [Hnode Hchildren].
  { destruct target as [n|u nodes]; cbn [compile] in Hcompile.
    - destruct (if bool_decide (nodeType n = 11%Z) then _ else _)
        as [[e n1]|] eqn:Hnode; [|done].
      assert (same_but_attributes n n1) as Hsame.
      { destruct (bool_decide (nodeType n = 11%Z));
          [|by eapply compileNode_same].
        injection Hnode as _ <-. apply same_but_attributes_refl. }
      cbn [mbind completion_bind] in Hcompile.
      destruct (negb _ && negb _ && hasChildNodes n) eqn:Hcond.
      + destruct (compileNodeList (childNodes n)) as [[c ch']|] eqn:Hch;
          [|done].
        cbn [mbind completion_bind mret completion_ret] in Hcompile.
        injection Hcompile as <- <-. cbn [executor childExecutor]. split.
        * destruct e; [apply exec_returns|apply returns_ret].
        * destruct c as [c|]; [|apply returns_ret].
          cbn [target_childNodes].
          apply andb_true_iff in Hcond as [_ Hhas].
          rewrite (childNodes_setChildNodes _ _ _ Hsame Hhas).
          by eapply compileNodeList_returns.
      + injection Hcompile as <- <-. cbn [executor childExecutor]. split.
        * destruct e; [apply exec_returns|apply returns_ret].
        * apply returns_ret.
    - destruct (compileNodeList nodes) as [[c nodes']|] eqn:Hch; [|done].
      cbn [mbind completion_bind mret completion_ret] in Hcompile.
      injection Hcompile as <- <-. cbn [executor childExecutor]. split.
      + destruct c as [c|]; [|apply returns_ret].
        change (returns (execNodeList c nodes')).
        by eapply compileNodeList_returns.
      + apply returns_ret. }
  unfold run. unfold mbind at 1, exec_bind at 1, get_bindings at 1.
  unfold mbind at 1, exec_bind at 1.
  destruct (Hnode vm) as [vm1 ->].
  unfold mbind at 1, exec_bind at 1.
  destruct (Hchildren vm1) as [vm2 ->].
  by eexists _, _.
Qed.
End program_returns.

Section stale_disposer.
Context `{Env}.

(** X15. A disposer whose first binding is no longer in the ledger takes
    the last binding of the ledger out. *)
Theorem stale_disposer_removes_the_last_binding d b vm :
  head (bindingList d) = Some b →
  id b ∉ id <$> _bindings vm →
  _bindings (dispose d vm)
  = take (length (_bindings vm) - 1) (_bindings vm).
Proof.
  intros Hhead Hgone. unfold dispose. cbn [_bindings]. rewrite Hhead.
  rewrite indexOf_absent by by apply same_binding_other.
  destruct (bindingList d) as [|b' owned]; [done|]. clear Hhead.
  unfold splice. set (arr := _bindings vm). cbn [length].
  destruct (Z.ltb_spec (-1) 0) as [_|?]; [|lia].
  destruct (decide (length arr = 0)) as [Hnil|Hlen].
  - destruct arr; [done|]. done.
  - rewrite (Z.max_l (Z.of_nat (length arr) + -1) 0) by lia.
    rewrite (Z.max_l _ 0) by lia.
    rewrite Z.min_r by lia.
    replace (Z.to_nat (Z.of_nat (length arr) + -1)) with (length arr - 1)
      by lia.
    replace (Z.to_nat (Z.of_nat (length arr) + -1
                       + (Z.of_nat (length arr)
                          - (Z.of_nat (length arr) + -1))))
      with (length arr) by lia.
    by rewrite drop_all, app_nil_r.
Qed.
End stale_disposer.

Section script.
Context `{Env}.

End script.

Section text_node.
Context `{Env}.

Lemma compileTokens_bind node definition tokens :
  getDefinintionByName "bind" = Some definition →
  compileTokens node tokens
  = Return ((λ token,
               match token with
               | Literal _ => None
               | Expr x =>
                   Some (ExCreate
                           (extend {| name := "bind"; expression := x;
                                      attrName := None; isTerminal := None;
                                      isInterpolate := false |} definition)
                           definition)
               end) <$> tokens).
Proof.
  intros Hdef. induction tokens as [|[s|x] tokens IH]; simpl.
  - done.
  - by rewrite IH.
  - unfold createExecutor. simpl. rewrite Hdef. simpl. by rewrite IH.
Qed.

Lemma forEachIndexed_cons {A B} (f : A → B → Exec unit) slot slots node
  nodes vm :
  forEachIndexed f (slot :: slots) (node :: nodes) vm
  = match f slot node vm with
    | (vm', Return _) => forEachIndexed f slots nodes vm'
    | (vm', Throw e) => (vm', Throw e)
    end.
Proof. done. Qed.

Lemma exec_clones definition tokens n vm :
  ∃ new,
    forEachIndexed
      (λ executor node,
         match executor with
         | Some e => exec e (Single node)
         | None => mret ()
         end)
      ((λ token,
          match token with
          | Literal _ => None
          | Expr x =>
              Some (ExCreate
                      (extend {| name := "bind"; expression := x;
                                 attrName := None; isTerminal := None;
                                 isInterpolate := false |} definition)
                      definition)
          end) <$> tokens)
      (cloneFragment tokens n) vm
    = ({| _bindings := _bindings vm ++ new;
          next_id := next_id vm + length new;
          effects := effects vm |}, Return ())
    ∧ Forall (λ b, n ≤ element b < n + length tokens
                   ∧ name (descriptor b) = "bind") new
    ∧ (expression ∘ descriptor) <$> new
      = omap (λ token, match token with
                       | Expr x => Some x
                       | Literal _ => None
                       end) tokens.
Proof.
  revert n vm. induction tokens as [|[s|x] tokens IH]; intros n vm.
  - exists []. simpl. split_and!; [|done..].
    destruct vm. simpl. by rewrite app_nil_r, Nat.add_0_r.
  - destruct (IH (S n) vm) as (new & Hrun & Hnew & Hexprs).
    exists new. split_and!; [|..|done].
    + rewrite fmap_cons. cbn [cloneFragment].
      rewrite forEachIndexed_cons. exact Hrun.
    + eapply Forall_impl; [exact Hnew|].
      intros b [? ?]. split; [simpl; lia|done].
  - set (vm1 := {| _bindings := _bindings vm ++
                      [{| id := next_id vm; element := n;
                          descriptor :=
                            extend {| name := "bind"; expression := x;
                                      attrName := None; isTerminal := None;
                                      isInterpolate := false |} definition;
                          definition := definition |}];
                   next_id := S (next_id vm);
                   effects := effects vm |}).
    destruct (IH (S n) vm1) as (new & Hrun & Hnew & Hexprs).
    eexists (_ :: new). split_and!.
    + rewrite fmap_cons. cbn [cloneFragment].
      rewrite forEachIndexed_cons.
      change (exec _ _ vm) with (vm1, Return ()). cbv beta iota.
      rewrite Hrun. simpl. rewrite <- app_assoc. simpl.
      do 2 f_equal. lia.
    + constructor; [simpl; split; [lia|done]|].
      eapply Forall_impl; [exact Hnew|].
      intros b [? ?]. split; [simpl; lia|done].
    + rewrite fmap_cons, Hexprs. done.
Qed.

(** X17. The unit of a text node binds one new node for each expression of
    its text, never the text node, which the new nodes replace. *)
Theorem text_node_binds_its_clones node definition live vm :
  hasInterpolation (textContent node) = true →
  getDefinintionByName "bind" = Some definition →
  ∃ e vm' new,
    compileTextNode node = Return (Some e, node)
    ∧ exec e live vm = (vm', Return ())
    ∧ _bindings vm' = _bindings vm ++ new
    ∧ Forall (λ b, next_id vm ≤ element b
                   < next_id vm + length (parseInterpolate (textContent node))
                   ∧ name (descriptor b) = "bind") new
    ∧ (expression ∘ descriptor) <$> new
      = omap (λ token, match token with
                       | Expr x => Some x
                       | Literal _ => None
                       end) (parseInterpolate (textContent node))
    ∧ effects vm'
      = effects vm
        ++ [Replaced (target_uid live)
              (seq (next_id vm)
                 (length (parseInterpolate (textContent node))))].
Proof.
  intros Hinter Hdef. unfold compileTextNode. rewrite Hinter. simpl.
  rewrite (compileTokens_bind _ _ _ Hdef). simpl.
  set (tokens := parseInterpolate (textContent node)).
  set (vm0 := {| _bindings := _bindings vm;
                 next_id := next_id vm + length tokens;
                 effects := effects vm |}).
  destruct (exec_clones definition tokens (next_id vm) vm0)
    as (new & Hrun & Hnew & Hexprs).
  assert (uid <$> cloneFragment tokens (next_id vm)
          = seq (next_id vm) (length tokens)) as Hclones.
  { clear. generalize (next_id vm). induction tokens as [|[s|x] tokens IH];
      intros n; simpl; [done|by rewrite IH..]. }
  eexists _,
    {| _bindings := _bindings vm ++ new;
       next_id := next_id vm0 + length new;
       effects := effects vm
                  ++ [Replaced (target_uid live)
                        (seq (next_id vm) (length tokens))] |}, new.
  split; [done|]. split_and!; try done.
  cbn [exec].
  unfold mbind at 1, exec_bind at 1, cloneNode at 1. fold vm0.
  unfold mbind at 1, exec_bind at 1. rewrite Hrun.
  unfold effect. simpl. by rewrite Hclones.
Qed.
End text_node.

(** ** $mount of the later revision *)

Section mount2.
Context `{Env}.
Import Component2.

Lemma same_but_attributes_uid node node' :
  same_but_attributes node node' → uid node' = uid node.
Proof. destruct node, node'; simpl; try done; try congruence. by intros (-> & _). Qed.

Lemma uid_setChildNodes node ch : uid (setChildNodes node ch) = uid node.
Proof. by destruct node. Qed.

Lemma compileEntry_uid node entry node' :
  compileEntry node = Return (entry, node') → uid node' = uid node.
Proof.
  destruct node as [u t attrs v ch|u s|u k ch]; cbn [compileEntry];
    (destruct (compileNode _) as [[executor n1]|] eqn:Hnode; [|done]);
    apply compileNode_same, same_but_attributes_uid in Hnode;
    cbn [mbind completion_bind].
  - destruct (_ && _).
    + destruct (forEachNode compileEntry ch) as [[entries ch']|]; [|done].
      intros [= _ <-]. by rewrite uid_setChildNodes.
    + by intros [= _ <-].
  - destruct (_ && _); by intros [= _ <-].
  - destruct (_ && _).
    + destruct (forEachNode compileEntry ch) as [[entries ch']|]; [|done].
      intros [= _ <-]. by rewrite uid_setChildNodes.
    + by intros [= _ <-].
Qed.

Lemma forEachNode_uid nodes entries nodes' :
  forEachNode compileEntry nodes = Return (entries, nodes') →
  uid <$> nodes' = uid <$> nodes.
Proof.
  revert entries nodes'.
  induction nodes as [|node nodes IH]; intros entries nodes'; simpl.
  - by intros [= _ <-].
  - destruct (compileEntry node) as [[entry node1]|] eqn:Hentry; [|done].
    simpl.
    destruct (forEachNode compileEntry nodes) as [[entries1 nodes1]|]; [|done].
    simpl. intros [= _ <-]. rewrite !fmap_cons.
    by rewrite (compileEntry_uid _ _ _ Hentry), (IH _ _ eq_refl).
Qed.

Lemma compile_nodeList target program target' :
  compile target = Return (program, target') →
  target_uid target' = target_uid target
  ∧ uid <$> nodeList target' = uid <$> nodeList target.
Proof.
  destruct target as [n|u nodes]; cbn [compile].
  - destruct (if bool_decide (nodeType n = 11%Z) then _ else _)
      as [[e n1]|] eqn:Hnode; [|done].
    assert (uid n1 = uid n) as Huid.
    { destruct (bool_decide (nodeType n = 11%Z)).
      - by injection Hnode as _ <-.
      - by apply compileNode_same, same_but_attributes_uid in Hnode. }
    cbn [mbind completion_bind].
    destruct (_ && _).
    + destruct (compileNodeList _) as [[c ch']|]; [|done].
      intros [= _ <-]. simpl. by rewrite uid_setChildNodes, Huid.
    + intros [= _ <-]. simpl. by rewrite Huid.
  - unfold compileNodeList.
    destruct (forEachNode compileEntry nodes) as [[entries ns]|] eqn:Hch;
      [|done].
    intros [= _ <-]. simpl. split; [done|]. by eapply forEachNode_uid.
Qed.

Lemma getByElement_log element entry w :
  getByElement element (log entry w) = getByElement element w.
Proof. done. Qed.

Lemma weakRefKey_setWeakRefs (nodes : list Node) this w :
  let w' := foldl (λ w node, setWeakRef node this w) w nodes in
  instancesById w' = instancesById w
  ∧ ∀ u, weakRefKey w' !! u
         = if decide (u ∈ uid <$> nodes) then Some this
           else weakRefKey w !! u.
Proof.
  revert w. induction nodes as [|node nodes IH]; intros w; cbn [foldl].
  - split; [done|]. intros u. case_decide as Hin; [|done].
    by apply elem_of_nil in Hin.
  - destruct (IH (setWeakRef node this w)) as [Hinst Hkey].
    split; [done|]. intros u. rewrite Hkey. rewrite fmap_cons.
    cbn [setWeakRef weakRefKey].
    destruct (decide (u ∈ uid <$> nodes)) as [Hin|Hnot].
    + rewrite decide_True; [done|by right].
    + destruct (decide (u = uid node)) as [->|Hne].
      * rewrite decide_True by left. by rewrite lookup_insert_eq.
      * rewrite decide_False; [by rewrite lookup_insert_ne|].
        by intros [?|?]%elem_of_cons.
Qed.

(** What a mount that succeeds leaves behind. *)
Lemma mount_mounted this target w w1 :
  mount this target w = (w1, Return Component.Mounted) →
  getByElement target w = None
  ∧ instancesById w1 = instancesById w
  ∧ ∀ u, weakRefKey w1 !! u
         = if decide (u ∈ uid <$> nodeList target) then Some this
           else weakRefKey w !! u.
Proof.
  unfold mount.
  set (w0 := if Component._isMounted (instance this w) then _ else w).
  assert (getByElement target w0 = getByElement target w
          ∧ instancesById w0 = instancesById w
          ∧ weakRefKey w0 = weakRefKey w) as (Hget & Hinst & Hkey).
  { subst w0. by destruct (Component._isMounted _). }
  rewrite Hget. destruct (getByElement target w); [done|].
  destruct (compile target) as [[program target']|] eqn:Hcompile; [|done].
  apply compile_nodeList in Hcompile as [_ Huids].
  destruct (run _ _ _) as [vm [d|e]]; [|done].
  intros [= <-]. split; [done|].
  match goal with
  | |- context [foldl _ ?w2 ?nodes] =>
      destruct (weakRefKey_setWeakRefs nodes this w2) as [Hinst2 Hkey2]
  end.
  split.
  - cbn [emit instancesById]. rewrite Hinst2. cbn [update instancesById]. done.
  - intros u. cbn [emit weakRefKey]. rewrite Hkey2, Huids.
    cbn [update weakRefKey]. by rewrite Hkey.
Qed.


(** X21. $mount on an array marks the nodes of the array, not the array:
    the array can be mounted on again. *)
Theorem mounted_array_is_not_marked this u nodes w w1 :
  u ∉ uid <$> nodes →
  mount this (Array u nodes) w = (w1, Return Component.Mounted) →
  ∀ this' nodes',
    (mount this' (Array u nodes') w1).2 ≠ Return Component.Aborted.
Proof.
  intros Hfresh (Hnone & Hinst & Hkey)%mount_mounted this' nodes'.
  unfold mount.
  set (w0 := if Component._isMounted (instance this' w1) then _ else w1).
  assert (getByElement (Array u nodes') w0 = None) as ->.
  { assert (getByElement (Array u nodes') w0
            = getByElement (Array u nodes') w1) as ->.
    { subst w0. by destruct (Component._isMounted _). }
    unfold getByElement in *. cbn [target_uid] in *.
    rewrite Hkey, Hinst. by rewrite decide_False. }
  destruct (compile _) as [[program target']|]; [|done].
  by destruct (run _ _ _) as [vm [d|e]].
Qed.
End mount2.

(** ** The registry of component classes *)


Section registry.
Import Component2.
Context (inherited : string → bool).
Hypothesis inherited_proto : inherited "__proto__" = true.

Lemma addHiddenStyleForComponent_rule name g :
  one_rule_per_name inherited g →
  one_rule_per_name inherited (addHiddenStyleForComponent inherited name g)
  ∧ (∀ n, n ∈ cssRules (addHiddenStyleForComponent inherited name g)
          ↔ n ∈ cssRules g ∨ (n = name ∧ inherited name = false))
  ∧ constructorsByName (addHiddenStyleForComponent inherited name g)
    = constructorsByName g.
Proof.
  intros (Hdup & Hrec & Htrue & Hown).
  unfold addHiddenStyleForComponent, recorded.
  destruct (record g !! name) as [[]|] eqn:Hname.
  - split_and!; [done| |done]. intros n. split; [by left|].
    intros [?|[-> Hn]]; [done|]. apply Hrec. by rewrite Hname.
  - by destruct (Htrue name).
  - destruct (inherited name) eqn:Hinherited.
    { split_and!; [done| |done]. intros n. split; [by left|].
      by intros [?|[_ ?]]. }
    assert (name ≠ "__proto__") as Hproto by congruence.
    assert (util.assign name true (record g) = <[name := true]> (record g))
      as Hassign.
    { unfold util.assign. rewrite Hname. by rewrite bool_decide_eq_false_2. }
    cbn [cssRules constructorsByName record]. rewrite Hassign.
    assert (name ∉ cssRules g) as Hnew.
    { intros Hin%Hrec. rewrite Hname in Hin. by destruct Hin. }
    split_and!; [split_and!|..]; cbn [cssRules record].
    + apply NoDup_app. split_and!; [done| |apply NoDup_singleton].
      by intros n Hin ->%list_elem_of_singleton.
    + intros n. rewrite elem_of_app, list_elem_of_singleton.
      destruct (decide (n = name)) as [->|Hne].
      * rewrite lookup_insert_eq. split; [by right|by eexists].
      * rewrite lookup_insert_ne by done. rewrite Hrec. split; [by left|].
        by intros [?|?].
    + intros n. destruct (decide (n = name)) as [->|Hne].
      * by rewrite lookup_insert_eq.
      * rewrite lookup_insert_ne by done. apply Htrue.
    + intros n [Hin| ->%list_elem_of_singleton]%elem_of_app; [|done].
      by apply Hown.
    + intros n. rewrite elem_of_app, list_elem_of_singleton. split.
      * intros [? | ->]; [by left|by right].
      * intros [?|[-> _]]; [by left|by right].
    + done.
Qed.

(** An assignment gives the object the property, unless Object.prototype
    has a property of that name. *)
Lemma assign_own {A} name (v : A) (o : gmap string A) n :
  is_Some (util.assign name v o !! n) →
  is_Some (o !! n) ∨ (n = name ∧ name ≠ "__proto__").
Proof.
  unfold util.assign. destruct (o !! name) eqn:Hname.
  - destruct (decide (n = name)) as [->|Hne]; [rewrite Hname; eauto|].
    rewrite lookup_insert_ne by done. by left.
  - case_bool_decide as Hproto; [by left|].
    destruct (decide (n = name)) as [->|Hne]; [by right|].
    rewrite lookup_insert_ne by done. by left.
Qed.

Lemma assign_has {A} name (v : A) (o : gmap string A) :
  name ≠ "__proto__" → is_Some (util.assign name v o !! name).
Proof.
  intros Hproto. unfold util.assign. destruct (o !! name).
  - rewrite lookup_insert_eq. by eexists.
  - rewrite bool_decide_eq_false_2 by done. rewrite lookup_insert_eq.
    by eexists.
Qed.
Lemma registered_step name g g' seen :
  cssRules g' = cssRules g → record g' = record g →
  (∀ n, is_Some (constructorsByName g' !! n) →
        is_Some (constructorsByName g !! n) ∨ n = name) →
  one_rule_per_name inherited g
  ∧ (∀ n, n ∈ cssRules g ↔ n ∈ seen ∧ inherited n = false)
  ∧ (∀ n, is_Some (constructorsByName g !! n) → n ∈ seen) →
  let g'' := addHiddenStyleForComponent inherited name g' in
  one_rule_per_name inherited g''
  ∧ (∀ n, n ∈ cssRules g'' ↔ n ∈ seen ++ [name] ∧ inherited n = false)
  ∧ (∀ n, is_Some (constructorsByName g'' !! n) → n ∈ seen ++ [name]).
Proof.
  intros Hrules Hrecord Hctors (Hinv & Hseen & Hown) g''.
  destruct (addHiddenStyleForComponent_rule name g')
    as (Hinv' & Hin & Hsame).
  { destruct Hinv as (? & ? & ? & ?). unfold one_rule_per_name.
    by rewrite Hrules, Hrecord. }
  split_and!; [done|..].
  - intros n. subst g''. rewrite Hin, Hrules, Hseen, elem_of_app,
      list_elem_of_singleton.
    split; [intros [[? ?]|[-> ?]]; auto|intros [[? | ->] ?]; auto].
  - intros n. subst g''. rewrite Hsame, elem_of_app, list_elem_of_singleton.
    intros [?%Hown|?]%Hctors; auto.
Qed.

Lemma call_step c g seen :
  one_rule_per_name inherited g
  ∧ (∀ n, n ∈ cssRules g ↔ n ∈ seen ∧ inherited n = false)
  ∧ (∀ n, is_Some (constructorsByName g !! n) → n ∈ seen) →
  let g' := call inherited c g in
  one_rule_per_name inherited g'
  ∧ (∀ n, n ∈ cssRules g' ↔ n ∈ seen ++ names c ∧ inherited n = false)
  ∧ (∀ n, is_Some (constructorsByName g' !! n) → n ∈ seen ++ names c).
Proof.
  destruct c as [name ctor|components]; cbn [call names].
  - intros Hinv. unfold register.
    apply (registered_step name g); [done|done| |done].
    cbn [constructorsByName]. intros n [?|[? _]]%assign_own; auto.
  - unfold registerByResourcesLazy. revert g seen.
    induction components as [|[name resource] components IH];
      intros g seen Hinv.
    + by rewrite app_nil_r.
    + cbn [foldl fmap list_fmap fst snd].
      replace (seen ++ name :: components.*1)
        with ((seen ++ [name]) ++ components.*1)
        by (by rewrite <- app_assoc).
      apply IH. unfold registerResource.
      apply (registered_step name g); [done|done| |done].
      cbn [constructorsByName]. intros n [?|[? _]]%assign_own; auto.
Qed.

(** X22. Whatever is registered, and however often, the style sheet has
    no hiding rule twice, and it has the rule of a name exactly when the
    name was registered and is not the name of a property of
    Object.prototype, as [constructor] or [toString] are: for those
    [record[name]] holds before any rule is added. Every name the
    registry holds a constructor or [null] for has its rule, but for
    such names. *)
Theorem registry_has_one_rule_per_name (calls : list Call) :
  let g := foldl (λ g c, call inherited c g) emptyRegistry calls in
  NoDup (cssRules g)
  ∧ (∀ name, name ∈ cssRules g
             ↔ name ∈ calls ≫= names ∧ inherited name = false)
  ∧ (∀ name, is_Some (constructorsByName g !! name) →
             inherited name = false → name ∈ cssRules g).
Proof.
  assert (∀ g seen,
            one_rule_per_name inherited g
            ∧ (∀ n, n ∈ cssRules g ↔ n ∈ seen ∧ inherited n = false)
            ∧ (∀ n, is_Some (constructorsByName g !! n) → n ∈ seen) →
            let g' := foldl (λ g c, call inherited c g) g calls in
            one_rule_per_name inherited g'
            ∧ (∀ n, n ∈ cssRules g'
                    ↔ n ∈ seen ++ (calls ≫= names) ∧ inherited n = false)
            ∧ (∀ n, is_Some (constructorsByName g' !! n) →
                    n ∈ seen ++ (calls ≫= names))) as Hall.
  { induction calls as [|c calls IH]; intros g seen Hinv.
    - cbn [foldl mbind list_bind]. by rewrite app_nil_r.
    - cbn [foldl]. rewrite bind_cons, app_assoc. apply IH.
      by apply call_step. }
  destruct (Hall emptyRegistry []) as ((Hdup & _) & Hrules & Hown).
  { split_and!; [split_and!|..]; cbn [emptyRegistry cssRules record
                                      constructorsByName].
    - constructor.
    - intros n. rewrite lookup_empty. split; [by intros [? ?]|].
      by intros ?%elem_of_nil.
    - intros n. by rewrite lookup_empty.
    - by intros n ?%elem_of_nil.
    - intros n. split; [by intros ?%elem_of_nil|by intros [?%elem_of_nil _]].
    - intros n. rewrite lookup_empty. by intros [? ?]. }
  cbn [app] in *. split_and!; [done|done|].
  intros name Hname Hinherited. apply Hrules. split; [|done]. by apply Hown.
Qed.
End registry.

Section registry1.
Import Registry1.
Context (inherited : string → bool) (parses : string → bool).

(** X23. In component.ts [record] is never written, so that every call
    of [register] adds a hiding rule, also for a name that has one,
    unless the name is the name of a property of Object.prototype or the
    style sheet cannot parse the rule, in which case the call throws:
    the style sheet has one rule for each other call, in the order of
    the calls. *)
Theorem register_adds_a_rule_on_every_call (calls : list (string * nat)) :
  cssRules
    (foldl (λ g c, (register inherited parses c.1 c.2 g).1) emptyRegistry
       calls)
  = (λ c, c.1 +:+ "{display:none}")
    <$> filter (λ c, inherited c.1 = false
                     ∧ parses (c.1 +:+ "{display:none}") = true) calls.
Proof.
  assert (∀ g,
            cssRules
              (foldl (λ g c, (register inherited parses c.1 c.2 g).1) g
                 calls)
            = cssRules g
              ++ ((λ c, c.1 +:+ "{display:none}")
                  <$> filter (λ c, inherited c.1 = false
                                   ∧ parses (c.1 +:+ "{display:none}")
                                     = true) calls)) as Hall.
  { induction calls as [|[name ctor] calls IH]; intros g.
    - simpl. by rewrite app_nil_r.
    - cbn [foldl]. rewrite IH. rewrite filter_cons. cbn [fst snd].
      unfold register, addHiddenStyleForComponent. cbn [fst snd cssRules].
      destruct (inherited name) eqn:Hinherited.
      { rewrite decide_False by (by intros [? _]). done. }
      destruct (parses _) eqn:Hparses.
      + rewrite decide_True by done. cbn [fst cssRules fmap list_fmap].
        by rewrite <- app_assoc.
      + rewrite decide_False by (by intros [_ ?]). done. }
  apply (Hall emptyRegistry).
Qed.
End registry1.

(** ** Promise: settled promises, missing callbacks, race and all *)

Section settled.
Import Promise.

Lemma kept_refl r : kept r r.
Proof. by intros promise _. Qed.

Lemma kept_trans r1 r2 r3 : kept r1 r2 → kept r2 r3 → kept r1 r3.
Proof.
  intros H12 H23 promise Hsettled.
  destruct (H12 promise Hsettled) as [Hs Hv].
  destruct (H23 promise) as [Hs' Hv']; [congruence|].
  split; congruence.
Qed.

Lemma kept_same r r' : promises r' = promises r → kept r r'.
Proof. intros Heq promise _. unfold get. by rewrite Heq. Qed.


Lemma kept_set_pending promise o r :
  is_pending promise r = true → kept r (set promise o r).
Proof.
  intros Hpending q Hsettled. rewrite get_set. case_decide as Hq; [|done].
  subst q. unfold is_pending in Hpending.
  by destruct (_state (get promise r)).
Qed.

Lemma kept_set_listeners promise l r :
  kept r (set promise {| _state := _state (get promise r);
                         _value := _value (get promise r);
                         _listeners := l |} r).
Proof.
  intros q _. rewrite get_set. case_decide as Hq; [by subst|done].
Qed.

Lemma kept_publish promise value state r :
  is_pending promise r = true → kept r (publish promise value state r).
Proof.
  intros Hpending. unfold publish.
  eapply kept_trans; [by apply kept_set_pending|]. by apply kept_same.
Qed.

Lemma kept_subscribe promise subPromise onF onR r :
  kept r (subscribe promise subPromise onF onR r).
Proof. apply kept_set_listeners. Qed.

Lemma kept_rejectPromise promise reason r :
  kept r (rejectPromise promise reason r).
Proof.
  unfold rejectPromise. destruct (is_pending promise r) eqn:Hp; simpl.
  - by apply kept_publish.
  - apply kept_refl.
Qed.

Lemma kept_resolvePromise promise value r :
  kept r (resolvePromise promise value r).
Proof.
  unfold resolvePromise. destruct (is_pending promise r) eqn:Hp; simpl.
  - destruct value as [v|thenable|a]; try by apply kept_publish.
    case_bool_decide; [by apply kept_publish|].
    unfold handleThenable.
    destruct (_state (get thenable r));
      [apply kept_subscribe|by apply kept_publish..].
  - apply kept_refl.
Qed.

Lemma kept_check all i value r : kept r (check all i value r).1.
Proof.
  unfold check. destruct (alls r !! all) as [a|]; [|apply kept_refl].
  destruct (result a) as [res|]; [|apply kept_refl].
  case_bool_decide; simpl.
  - eapply kept_trans; [|by apply kept_same].
    eapply kept_trans; [|apply kept_resolvePromise]. by apply kept_same.
  - by apply kept_same.
Qed.

Lemma kept_callCallback callback value r :
  kept r (callCallback callback value r).1.
Proof.
  destruct callback as [|property returns|property|promise|promise|all i|all];
    simpl; try by apply kept_same.
  - apply kept_resolvePromise.
  - apply kept_rejectPromise.
  - destruct (alls r !! all) as [a|]; [|apply kept_refl].
    destruct (rejected a); [apply kept_refl|].
    pose proof (kept_check all i value r) as Hcheck.
    by destruct (check all i value r) as [r' [[]|e]].
  - destruct (alls r !! all) as [a|]; [|apply kept_refl].
    destruct (rejected a); [apply kept_refl|]. simpl.
    eapply kept_trans; [|apply kept_rejectPromise]. by apply kept_same.
Qed.

Lemma kept_invokeCallback state promise callback value r :
  kept r (invokeCallback state promise callback value r).
Proof.
  unfold invokeCallback.
  set (hasCallback := match callback with NoCallback => false | _ => true end).
  assert (kept r (if hasCallback then callCallback callback value r
                  else (r, Return value)).1) as Hcall.
  { destruct hasCallback; [apply kept_callCallback|apply kept_refl]. }
  destruct (if hasCallback then _ else _) as [r1 outcome]. simpl in Hcall.
  eapply kept_trans; [exact Hcall|].
  destruct (is_pending promise r1) eqn:Hp; simpl; [|apply kept_refl].
  destruct outcome as [value'|e]; [|apply kept_rejectPromise].
  destruct hasCallback; [apply kept_resolvePromise|].
  destruct state; [apply kept_rejectPromise|by apply kept_publish
                   |apply kept_rejectPromise].
Qed.

Lemma kept_runTask task r : kept r (runTask task r).
Proof.
  destruct task as [promise value state|state promise callback value]; simpl;
    [|apply kept_invokeCallback].
  set (f := λ r l, invokeCallback state (subPromise l) _ value r).
  assert (∀ arr r, kept r (foldl f r arr)) as Hfold.
  { induction arr as [|l arr IH]; intros r0; simpl; [apply kept_refl|].
    eapply kept_trans; [apply kept_invokeCallback|apply IH]. }
  destruct (_listeners (get promise r)) as [|l arr]; [apply kept_refl|].
  eapply kept_trans; [apply Hfold|apply kept_set_listeners].
Qed.

Lemma kept_step e r : kept r (step e r).
Proof.
  destruct e as [|promise fulfilled value]; simpl.
  - destruct (timers r) as [|task timers']; [apply kept_refl|].
    eapply kept_trans; [|apply kept_runTask]. by apply kept_same.
  - unfold settle.
    destruct fulfilled; [apply kept_resolvePromise|apply kept_rejectPromise].
Qed.

(** X24. Once a promise is settled, nothing that happens later changes its
    state or its value. *)
Theorem settled_promise_never_changes events promise r :
  _state (get promise r) ≠ PENDING →
  _state (get promise (steps events r)) = _state (get promise r)
  ∧ _value (get promise (steps events r)) = _value (get promise r).
Proof.
  assert (kept r (steps events r)) as Hkept; [|apply Hkept].
  unfold steps. revert r.
  induction events as [|e events IH]; intros r; simpl; [apply kept_refl|].
  eapply kept_trans; [apply kept_step|apply IH].
Qed.
End settled.

Section passing.
Import Promise.



(** X25. A settlement passes a missing callback: the promise [then] returns
    settles the same way, with the same value, and the other callback is
    not called. *)
Theorem settlement_passes_a_missing_callback (promise : nat)
  (callback : Callback) (fulfilled : bool) (v : Value) (r : Runtime) :
  promises r !! promise = Some pending →
  promise < next r →
  timers r = [] →
  let issued :=
    then_ promise (if fulfilled then NoCallback else callback)
      (if fulfilled then callback else NoCallback) r in
  let r' := steps [Settle promise fulfilled (Plain v); Tick] issued.1 in
  _state (get issued.2 r') = (if fulfilled then RESOLVED else REJECTED)
  ∧ _value (get issued.2 r') = Plain v
  ∧ assigned r' = assigned r
  ∧ warnings r' = warnings r.
Proof.
  intros Hpending Hlt Htimers.
  assert (then_ promise (if fulfilled then NoCallback else callback)
            (if fulfilled then callback else NoCallback) r
          = (subscribe promise (next r)
               (if fulfilled then NoCallback else callback)
               (if fulfilled then callback else NoCallback)
               (newPromise r).1, next r)) as ->.
  { unfold then_, get. rewrite Hpending. simpl.
    by destruct fulfilled, callback. }
  cbn zeta. cbn [fst snd].
  set (q := next r).
  set (onF := if fulfilled then NoCallback else callback).
  set (onR := if fulfilled then callback else NoCallback).
  set (r1 := subscribe promise q onF onR (newPromise r).1).
  assert (get promise r1
          = {| _state := PENDING; _value := Plain Undefined;
               _listeners := [{| subPromise := q; onFulfillment := onF;
                                 onRejection := onR |}] |}) as Hp1.
  { unfold r1, subscribe. rewrite get_set, decide_True by done.
    rewrite get_newPromise by (unfold q; lia).
    unfold get. by rewrite Hpending. }
  assert (get q r1 = pending) as Hq1.
  { unfold r1, subscribe. rewrite get_set, decide_False by (unfold q; lia).
    apply get_new. }
  assert (timers r1 = [] ∧ assigned r1 = assigned r
          ∧ warnings r1 = warnings r) as (Ht1 & Ha1 & Hw1) by done.
  set (state := if fulfilled then RESOLVED else REJECTED).
  set (r2 := publish promise (Plain v) state r1).
  assert (step (Settle promise fulfilled (Plain v)) r1 = r2) as Hsettle.
  { cbn [step]. unfold settle, resolvePromise, rejectPromise, is_pending.
    rewrite Hp1. by destruct fulfilled. }
  unfold steps. cbn [foldl]. rewrite Hsettle.
  assert (get promise r2
          = {| _state := state; _value := Plain v;
               _listeners := [{| subPromise := q; onFulfillment := onF;
                                 onRejection := onR |}] |}) as Hp2.
  { unfold r2, publish, nextTick. rewrite Hp1.
    unfold get. simpl. by rewrite lookup_insert_eq. }
  assert (get q r2 = pending) as Hq2.
  { unfold r2, publish, nextTick.
    unfold get in *. simpl. rewrite lookup_insert_ne by (unfold q; lia).
    exact Hq1. }
  assert (timers r2 = [Publish promise (Plain v) state]) as Ht2.
  { unfold r2, publish, nextTick, set. cbn [timers]. by rewrite Ht1. }
  cbn [step]. rewrite Ht2.
  match goal with
  | |- context [runTask _ ?r] => set (r3 := r)
  end.
  assert (get promise r3 = get promise r2 ∧ get q r3 = pending
          ∧ assigned r3 = assigned r ∧ warnings r3 = warnings r)
    as (Hp3 & Hq3 & Ha3 & Hw3).
  { split_and!; [done| |done..]. exact Hq2. }
  cbn [runTask]. rewrite Hp3, Hp2. cbn [_listeners foldl subPromise onFulfillment onRejection].
  assert ((match state with
           | PENDING => NoCallback
           | RESOLVED => onF
           | REJECTED => onR
           end) = NoCallback) as ->.
  { unfold state, onF, onR. by destruct fulfilled. }
  assert (invokeCallback state q NoCallback (Plain v) r3
          = publish q (Plain v) state r3) as ->.
  { unfold invokeCallback, is_pending. rewrite Hq3. simpl.
    unfold state. destruct fulfilled; [done|].
    unfold rejectPromise, is_pending. by rewrite Hq3. }
  rewrite get_set, decide_False by (unfold q; lia).
  unfold publish, nextTick, get, set. simpl.
  rewrite lookup_insert_eq. simpl. done.
Qed.
End passing.

Section race.
Import Promise.


Lemma raceEach_stops promise before (item : Val) after r :
  match item with
  | Ref t => _state (get t r) ≠ PENDING ∧ t < next r
  | _ => True
  end →
  raceEach promise (before ++ item :: after) r
  = raceEach promise (before ++ [item]) r.
Proof.
  revert r. induction before as [|head before IH]; intros r Hitem.
  - simpl. destruct item as [v|t|a]; try done.
    destruct Hitem as [Hsettled _]. by destruct (_state (get t r)).
  - simpl. destruct head as [v|t'|a]; try done.
    destruct (_state (get t' r)) eqn:Hstate; try done.
    rewrite then_pending by done. apply IH.
    destruct item as [v|t|a]; try done.
    destruct Hitem as [Hsettled Hlt].
    assert (get t (subscribe t' (next r) (ToResolve promise)
                     (ToReject promise) (newPromise r).1) = get t r) as ->.
    { unfold subscribe. rewrite get_set, decide_False by congruence.
      apply get_newPromise. lia. }
    split; [done|]. simpl. lia.
Qed.

(** X26. [race] stops at the first item that is not a pending promise: the
    items after it are not looked at. *)
Theorem race_ignores_items_after_the_first_settled before (item : Val)
  after r :
  match item with
  | Ref t => _state (get t r) ≠ PENDING ∧ t < next r
  | _ => True
  end →
  race (before ++ item :: after) r = race (before ++ [item]) r.
Proof.
  intros Hitem. unfold race. cbn [newPromise]. f_equal.
  apply raceEach_stops.
  destruct item as [v|t|a]; try done. destruct Hitem as [Hsettled Hlt].
  split; [|simpl; lia].
  change (_state (get t (newPromise r).1) ≠ PENDING).
  rewrite get_newPromise by lia. done.
Qed.


(** X27. Promise.reject called with a fulfilled promise returns a promise
    that is fulfilled, with the value of that promise. *)
Theorem reject_of_a_fulfilled_promise_is_fulfilled promise r :
  _state (get promise r) = RESOLVED →
  promise < next r →
  let rejected := reject (Ref promise) r in
  _state (get rejected.2 rejected.1) = RESOLVED
  ∧ _value (get rejected.2 rejected.1) = _value (get promise r).
Proof.
  intros Hstate Hlt.
  assert (reject (Ref promise) r
          = (publish (next r) (_value (get promise r)) RESOLVED
               (newPromise r).1, next r)) as ->.
  { unfold reject. cbn [newPromise isThenable negb].
    change ({| promises := <[next r:=pending]> (promises r); alls := alls r;
               next := S (next r); timers := timers r; proxied := proxied r;
               assigned := assigned r; warnings := warnings r |})
      with (newPromise r).1.
    f_equal.
    unfold resolvePromise, is_pending. rewrite get_new. cbn [_state negb].
    rewrite bool_decide_eq_false_2 by lia.
    unfold handleThenable. rewrite get_newPromise by lia.
    by rewrite Hstate. }
  cbn zeta. cbn [fst snd]. by rewrite get_publish.
Qed.
End race.

Section all_values.
Import Promise.

Lemma allEach_values (values : list Value) : ∀ i r a c,
  values ≠ [] →
  alls r !! a = Some c →
  len c = i + length values → count c = i → is_Some (result c) →
  is_pending (all_promise c) r = true →
  ∃ r', allEach a (Plain <$> values) i r = (r', Return ())
        ∧ _state (get (all_promise c) r') = RESOLVED
        ∧ _value (get (all_promise c) r') = Results a.
Proof.
  induction values as [|v values IH]; intros i r a c Hne Ha Hlen Hcount
    [res Hres] Hpending; [done|].
  cbn [fmap list_fmap allEach]. unfold check. rewrite Ha, Hres.
  rewrite Hcount, Hlen. cbn [length].
  destruct values as [|v' values].
  - rewrite bool_decide_eq_true_2 by (simpl; lia). cbn [allEach fmap list_fmap].
    eexists. split; [done|].
    match goal with
    | |- context [resolvePromise _ _ ?r0] => set (r1 := r0)
    end.
    assert (resolvePromise (all_promise c) (Results a) r1
            = publish (all_promise c) (Results a) RESOLVED r1) as ->.
    { unfold resolvePromise.
      assert (is_pending (all_promise c) r1 = true) as -> by done. done. }
    change (_state (get (all_promise c)
                      (publish (all_promise c) (Results a) RESOLVED r1))
            = RESOLVED
            ∧ _value (get (all_promise c)
                        (publish (all_promise c) (Results a) RESOLVED r1))
              = Results a).
    by rewrite get_publish.
  - rewrite bool_decide_eq_false_2 by (simpl; lia).
    match goal with
    | |- context [allEach a _ (S i) ?r0] => set (r1 := r0)
    end.
    set (c1 := {| all_promise := all_promise c; len := i + S (S (length values));
                  count := S i; result := Some (<[i:=Plain v]> res);
                  rejected := rejected c |}).
    assert (alls r1 !! a = Some c1) as Ha1.
    { unfold r1. cbn [alls]. apply lookup_insert_eq. }
    assert (len c1 = S i + length (v' :: values)) as Hlen1.
    { simpl. lia. }
    assert (is_Some (result c1)) as Hres1 by by eexists.
    destruct (IH (S i) r1 a c1 ltac:(done) Ha1 Hlen1 eq_refl Hres1 Hpending)
      as (r' & Hrun & Hstate & Hvalue).
    exists r'. split; [|done]. rewrite <- Hrun. done.
Qed.

(** X28. Promise.all of values that are not thenable is fulfilled when it
    returns, with the result array of the call. *)
Theorem all_of_values_is_fulfilled_at_once (values : list Value) r :
  let issued := all (Plain <$> values) r in
  _state (get issued.2 issued.1) = RESOLVED
  ∧ _value (get issued.2 issued.1) = Results (S (next r)).
Proof.
  unfold all. cbn [newPromise].
  cbn [next promises alls timers proxied assigned warnings].
  match goal with
  | |- context [allEach _ _ 0 ?r0] => set (r2 := r0)
  end.
  assert (is_pending (next r) r2 = true) as Hpending.
  { unfold is_pending, get, r2. cbn [promises].
    by rewrite lookup_insert_eq. }
  destruct values as [|v values].
  - cbn [fmap list_fmap length]. cbn zeta. cbn [fst snd].
    unfold resolvePromise. fold r2. rewrite Hpending. cbn [negb].
    by rewrite get_publish.
  - set (c := {| all_promise := next r;
                 len := length (Plain <$> v :: values);
                 count := 0; result := Some ∅; rejected := false |}).
    assert (alls r2 !! S (next r) = Some c) as Ha.
    { unfold r2. cbn [alls]. apply lookup_insert_eq. }
    assert (len c = 0 + length (v :: values)) as Hlen.
    { simpl. by rewrite length_fmap. }
    assert (is_Some (result c)) as Hres by by eexists.
    destruct (allEach_values (v :: values) 0 r2 (S (next r)) c
                ltac:(done) Ha Hlen eq_refl Hres Hpending)
      as (r' & Hrun & Hstate & Hvalue).
    change (Plain <$> v :: values) with (Plain v :: (Plain <$> values)).
    cbv zeta. cbn [fst snd].
    change (Plain v :: (Plain <$> values)) with (Plain <$> v :: values).
    fold r2. rewrite Hrun. done.
Qed.
End all_values.

(** ** The further properties on examples *)

Section further_witnesses.
Import Demo Samples.

(** The entity [&copy;] is not one of the six. *)
Lemma unescape_unknown_entity_is_undefined_witness :
  "copy" ≠ ""
  ∧ filter.unescapeChars ("&" +:+ "copy" +:+ ";") = None
  ∧ filter.unescape ("&" +:+ "copy" +:+ ";" +:+ " 2020")
    = "undefined" +:+ filter.unescape " 2020".
Proof.
  assert ("copy" ≠ "") as Hne by discriminate.
  assert (filter.unescapeChars ("&" +:+ "copy" +:+ ";") = None) as Hunknown.
  { vm_compute. reflexivity. }
  split_and!; [exact Hne|exact Hunknown|].
  apply (unescape_unknown_entity_is_undefined "copy" " 2020" Hne);
    [|exact Hunknown].
  repeat constructor; discriminate.
Defined.

(** Of [my-view], [constructor], [my-view] and [my-list], the first and
    the last get a rule, once each. *)
Lemma registry_has_one_rule_per_name_witness :
  ofObjectPrototype "__proto__" = true
  ∧ Component2.cssRules registered = ["my-view"; "my-list"]
  ∧ is_Some (Component2.constructorsByName registered !! "constructor")
  ∧ NoDup (Component2.cssRules registered)
  ∧ ∀ name,
      is_Some (Component2.constructorsByName registered !! name) →
      ofObjectPrototype name = false →
      name ∈ Component2.cssRules registered.
Proof.
  assert (ofObjectPrototype "__proto__" = true) as Hproto.
  { vm_compute. reflexivity. }
  split_and!; [exact Hproto|reflexivity|by eexists|..];
    apply (registry_has_one_rule_per_name ofObjectPrototype Hproto
             [Component2.Register "my-view" 1;
              Component2.Register "constructor" 2;
              Component2.RegisterByResourcesLazy
                [("my-view", "view.html"); ("my-list", "list.html")]]).
Defined.

(** [escape], then a filter that is not in the map, then [escape]. *)
Lemma pipeFor_throws_on_unknown_filter_witness :
  let escape := {| filter.name := "escape"; filter.param := None |} in
  let upper := {| filter.name := "upper"; filter.param := None |} in
  filter.pipeFor "a<b" (Some [escape]) escapeOnly [] = Return "a&lt;b"
  ∧ escapeOnly (filter.name upper) = None
  ∧ filter.pipeFor "a<b" (Some ([escape] ++ upper :: [escape])) escapeOnly []
    = Throw Error.
Proof.
  intros escape upper.
  assert (filter.pipeFor "a<b" (Some [escape]) escapeOnly []
          = Return "a&lt;b") as Hfirst.
  { vm_compute. reflexivity. }
  assert (escapeOnly (filter.name upper) = None) as Hunknown.
  { vm_compute. reflexivity. }
  split_and!; [exact Hfirst|exact Hunknown|].
  exact (proj1 (pipeFor_throws_on_unknown_filter escapeOnly [] "a<b"
                  [escape] upper [escape] "a&lt;b" Hfirst Hunknown)).
Defined.

(** A text with a quote and a backslash. *)
Lemma stripslashes_undoes_addslashes_witness :
  filter.slashZeroFree "it's a\b" = true
  ∧ filter.stripslashes (filter.addslashes "it's a\b") = "it's a\b".
Proof.
  assert (filter.slashZeroFree "it's a\b" = true) as Hfree.
  { vm_compute. reflexivity. }
  split; [exact Hfree|].
  exact (stripslashes_undoes_addslashes "it's a\b" Hfree).
Defined.

Lemma truncate_adds_the_tail_witness :
  (0 ≤ 5 < Z.of_nat (String.length "hello world"))%Z
  ∧ String.length (filter.truncate "hello world" 5 None) = 8.
Proof.
  assert (0 ≤ 5 < Z.of_nat (String.length "hello world"))%Z as Hlen.
  { simpl. lia. }
  split; [exact Hlen|].
  exact (truncate_adds_the_tail "hello world" 5 None Hlen).
Defined.

Lemma addArrayItem_keeps_items_distinct_witness :
  NoDup [1; 2; 3]
  ∧ NoDup (util.addArrayItem [1; 2; 3] 2)
  ∧ NoDup (util.addArrayItem [1; 2; 3] 4).
Proof.
  assert (NoDup [1; 2; 3]) as Hdup.
  { apply (bool_decide_unpack _). vm_compute. exact I. }
  split_and!; [exact Hdup|..].
  - exact (proj1 (addArrayItem_keeps_items_distinct [1; 2; 3] 2 Hdup)).
  - exact (proj1 (addArrayItem_keeps_items_distinct [1; 2; 3] 4 Hdup)).
Defined.

Lemma removeArrayItem_removes_first_occurrence_witness :
  (2 ∉ [1])
  ∧ util.removeArrayItem ([1] ++ 2 :: [3; 2]) 2 = [1] ++ [3; 2].
Proof.
  assert (2 ∉ [1]) as Hpre.
  { apply (bool_decide_unpack _). vm_compute. exact I. }
  split; [exact Hpre|].
  exact (removeArrayItem_removes_first_occurrence [1] 2 [3; 2] Hpre).
Defined.

Lemma removeArrayItem_undoes_addArrayItem_witness :
  (4 ∉ [1; 2; 3])
  ∧ util.removeArrayItem (util.addArrayItem [1; 2; 3] 4) 4 = [1; 2; 3].
Proof.
  assert (4 ∉ [1; 2; 3]) as Hnot.
  { apply (bool_decide_unpack _). vm_compute. exact I. }
  split; [exact Hnot|].
  exact (removeArrayItem_undoes_addArrayItem [1; 2; 3] 4 Hnot).
Defined.

Lemma camelCase_capitalizes_after_separator_witness :
  Text.wordChar "b" = true
  ∧ util.camelCase ("foo" +:+ String "-" (String "b" "ar-baz"))
    = "foo" +:+ String (Text.toUpperCase "b") (util.camelCase "ar-baz").
Proof.
  assert (Text.wordChar "b" = true) as Hw.
  { vm_compute. reflexivity. }
  split; [exact Hw|].
  apply (camelCase_capitalizes_after_separator "foo" "-" "b" "ar-baz");
    [|left; reflexivity|exact Hw].
  repeat constructor; discriminate.
Defined.

(** The program of the card runs on the card. *)
Lemma program_returns_on_its_target_witness :
  @compile (env true) (Single card)
  = Return ((compiled card).1, (compiled card).2)
  ∧ ∃ vm' d,
      @run (env true) (compiled card).1 (compiled card).2 emptyViewModel
      = (vm', Return d).
Proof.
  assert (@compile (env true) (Single card)
          = Return ((compiled card).1, (compiled card).2)) as Hcompile.
  { vm_compute. reflexivity. }
  split; [exact Hcompile|].
  exact (@program_returns_on_its_target (env true) _ _ _ emptyViewModel
           Hcompile).
Defined.

(** The disposer of the card is called on a ledger that has the bindings
    of the paragraph only: it takes the last of them out. *)
Lemma stale_disposer_removes_the_last_binding_witness :
  let vm := dispose afterCard.2 afterParagraph.1 in
  ∃ b,
    head (bindingList afterCard.2) = Some b
    ∧ (id b ∉ id <$> _bindings vm)
    ∧ (name ∘ descriptor) <$> _bindings vm = ["model"]
    ∧ _bindings (dispose afterCard.2 vm) = [].
Proof.
  intros vm.
  assert (∃ b, head (bindingList afterCard.2) = Some b
               ∧ (id b ∉ id <$> _bindings vm)) as (b & Hhead & Hgone).
  { eexists. split; [vm_compute; reflexivity|].
    apply (bool_decide_unpack _). vm_compute. exact I. }
  exists b. split_and!; [exact Hhead|exact Hgone|vm_compute; reflexivity|].
  rewrite (stale_disposer_removes_the_last_binding _ _ _ Hhead Hgone).
  vm_compute. reflexivity.
Defined.

(** The text of the card has one expression. *)
Lemma text_node_binds_its_clones_witness :
  @hasInterpolation (env true) (textContent greeting) = true
  ∧ ∃ e vm' new,
      @compileTextNode (env true) greeting = Return (Some e, greeting)
      ∧ @exec (env true) e (Single greeting) emptyViewModel
        = (vm', Return ())
      ∧ (expression ∘ descriptor) <$> new = ["name"].
Proof.
  assert (@hasInterpolation (env true) (textContent greeting) = true)
    as Hinter.
  { vm_compute. reflexivity. }
  assert (@getDefinintionByName (env true) "bind"
          = Some {| priority := 1; def_isTerminal := None;
                    retainAttribute := false |}) as Hdef.
  { vm_compute. reflexivity. }
  split; [exact Hinter|].
  destruct (@text_node_binds_its_clones (env true) greeting _
              (Single greeting) emptyViewModel Hinter Hdef)
    as (e & vm' & new & Hcompile & Hexec & _ & _ & Hexprs & _).
  exists e, vm', new. split_and!; [exact Hcompile|exact Hexec|exact Hexprs].
Defined.

(** A [div] with [drunk-if]: its text is not compiled. *)
Lemma terminal_first_match_wins_witness :
  getAttribute shown (@prefix (env true) +:+ "if") = Some "x"
  ∧ ∃ e, @compileEntry (env true) shown
         = Return ((Some e, None),
                   ElementNode 20 "DIV" [("drunk-model", "m")] ""
                     [TextNode 21 "{{z}}"]).
Proof.
  assert (getAttribute shown (@prefix (env true) +:+ "if") = Some "x")
    as Hget.
  { vm_compute. reflexivity. }
  assert (@getDefinintionByName (env true) "if"
          = Some {| priority := 100; def_isTerminal := Some true;
                    retainAttribute := false |}) as Hdef.
  { vm_compute. reflexivity. }
  split; [exact Hget|].
  destruct (@terminal_first_match_wins (env true) shown [] "if" ["repeat"]
              "x" _ eq_refl (Forall_nil_2 _)
              ltac:(discriminate) ltac:(discriminate) Hget Hdef
              ltac:(discriminate))
    as (element' & Hcompile & _ & Hentry).
  eexists. rewrite (Hentry ltac:(discriminate) ltac:(discriminate)).
  vm_compute in Hcompile. injection Hcompile as <-. reflexivity.
Defined.



(** $mount of component 10 on the array of the card and the paragraph. *)
Lemma mounted_array_is_not_marked_witness :
  (30 ∉ uid <$> [card; paragraph])
  ∧ @Component2.mount (env true) 10 cardAndParagraph liveWorld
    = (mountedOnPair, Return Component.Mounted)
  ∧ (@Component2.mount (env true) 20 cardAndParagraph mountedOnPair).2
    ≠ Return Component.Aborted.
Proof.
  assert (30 ∉ uid <$> [card; paragraph]) as Hfresh.
  { apply (bool_decide_unpack _). vm_compute. exact I. }
  assert (@Component2.mount (env true) 10 cardAndParagraph liveWorld
          = (mountedOnPair, Return Component.Mounted)) as Hmount.
  { vm_compute. reflexivity. }
  split_and!; [exact Hfresh|exact Hmount|].
  exact (@mounted_array_is_not_marked (env true) 10 30 [card; paragraph]
           liveWorld mountedOnPair Hfresh Hmount 20 [card; paragraph]).
Defined.

(** Promise 1 is fulfilled with 7; it is rejected and resolved again. *)
Lemma settled_promise_never_changes_witness :
  Promise._state (Promise.get 1 oneSettled) ≠ Promise.PENDING
  ∧ Promise._value
      (Promise.get 1
         (Promise.steps
            [Promise.Settle 1 false (Promise.Plain (Number 8));
             Promise.Tick;
             Promise.Settle 1 true (Promise.Plain (Number 9))] oneSettled))
    = Promise._value (Promise.get 1 oneSettled).
Proof.
  assert (Promise._state (Promise.get 1 oneSettled) ≠ Promise.PENDING)
    as Hsettled.
  { vm_compute. discriminate. }
  split; [exact Hsettled|].
  exact (proj2 (settled_promise_never_changes _ 1 oneSettled Hsettled)).
Defined.

(** [catch] on the pending future 1, which is then fulfilled with 5. *)
Lemma settlement_passes_a_missing_callback_witness :
  Promise.promises twoFutures !! 1 = Some Promise.pending
  ∧ 1 < Promise.next twoFutures
  ∧ Promise.timers twoFutures = []
  ∧ let issued := Promise.catch 1 (Promise.Warn "a") twoFutures in
    Promise._state
      (Promise.get issued.2
         (Promise.steps
            [Promise.Settle 1 true (Promise.Plain (Number 5)); Promise.Tick]
            issued.1))
    = Promise.RESOLVED.
Proof.
  assert (Promise.promises twoFutures !! 1 = Some Promise.pending) as Hp.
  { vm_compute. reflexivity. }
  assert (1 < Promise.next twoFutures) as Hlt.
  { simpl. lia. }
  assert (Promise.timers twoFutures = []) as Ht.
  { reflexivity. }
  split_and!; [exact Hp|exact Hlt|exact Ht|].
  exact (proj1 (settlement_passes_a_missing_callback 1 (Promise.Warn "a")
                  true (Number 5) twoFutures Hp Hlt Ht)).
Defined.

(** A race of the pending promise 2, the fulfilled promise 1 and a
    value. *)
Lemma race_ignores_items_after_the_first_settled_witness :
  Promise._state (Promise.get 1 oneSettled) ≠ Promise.PENDING
  ∧ 1 < Promise.next oneSettled
  ∧ Promise.race
      ([Promise.Ref 2] ++ Promise.Ref 1 :: [Promise.Plain (Number 3)])
      oneSettled
    = Promise.race ([Promise.Ref 2] ++ [Promise.Ref 1]) oneSettled.
Proof.
  assert (Promise._state (Promise.get 1 oneSettled) ≠ Promise.PENDING)
    as Hsettled.
  { vm_compute. discriminate. }
  assert (1 < Promise.next oneSettled) as Hlt.
  { simpl. lia. }
  split_and!; [exact Hsettled|exact Hlt|].
  exact (race_ignores_items_after_the_first_settled [Promise.Ref 2]
           (Promise.Ref 1) [Promise.Plain (Number 3)] oneSettled
           (conj Hsettled Hlt)).
Defined.

Lemma reject_of_a_fulfilled_promise_is_fulfilled_witness :
  Promise._state (Promise.get 1 oneSettled) = Promise.RESOLVED
  ∧ 1 < Promise.next oneSettled
  ∧ let rejected := Promise.reject (Promise.Ref 1) oneSettled in
    Promise._state (Promise.get rejected.2 rejected.1) = Promise.RESOLVED.
Proof.
  assert (Promise._state (Promise.get 1 oneSettled) = Promise.RESOLVED)
    as Hstate.
  { vm_compute. reflexivity. }
  assert (1 < Promise.next oneSettled) as Hlt.
  { simpl. lia. }
  split_and!; [exact Hstate|exact Hlt|].
  exact (proj1 (reject_of_a_fulfilled_promise_is_fulfilled 1 oneSettled
                  Hstate Hlt)).
Defined.
End further_witnesses.
